(** * Quine-McCluskey minimisation ([qm.py]): model and verification

    The model follows the source file top to bottom: the Python primitives
    the program relies on, the [Minterm] class and the [QM] class.  Then
    come a store of [Minterm] objects, a reader for the expressions [QM]
    prints, the vocabulary of the properties, and the properties. *)

From Stdlib Require Import ZArith List String Ascii Bool Arith Lia.
From Stdlib Require Import Sorting.Sorted Sorting.Permutation.
Import ListNotations.

Local Open Scope list_scope.

(** ** Exceptions

    A Python call either returns or raises.  Only the exceptions the
    program can actually meet are listed. *)

Inductive exn : Type :=
| IndexError      (* list or string subscript out of range *)
| ValueError      (* [list.index] on an absent element *)
| AttributeError  (* method call on [None] *)
| RecursionError. (* unbounded recursion *)

Definition result (A : Type) : Type := (exn + A)%type.

Definition ok {A : Type} (a : A) : result A := inr a.
Definition raise {A : Type} (e : exn) : result A := inl e.

Definition bind {A B : Type} (m : result A) (k : A -> result B) : result B :=
  match m with
  | inl e => inl e
  | inr a => k a
  end.

Notation "x <- m ;; k" := (bind m (fun x => k))
  (at level 61, m at next level, right associativity).
Notation "' pat <- m ;; k" := (bind m (fun x => match x with pat => k end))
  (at level 61, pat pattern, m at next level, right associativity).

(** ** Python primitives on strings and lists *)

Module Py.

(** [s.count(c)] for a one-character [c]. *)
Fixpoint count (c : ascii) (s : string) : nat :=
  match s with
  | EmptyString => 0
  | String d s' => (if Ascii.eqb d c then 1 else 0) + count c s'
  end.

(** [s[n:]] *)
Fixpoint slice_from (n : nat) (s : string) : string :=
  match n, s with
  | 0, _ => s
  | S _, EmptyString => EmptyString
  | S n', String _ s' => slice_from n' s'
  end.

(** [c * n] *)
Fixpoint replicate (n : nat) (c : ascii) : string :=
  match n with
  | 0 => EmptyString
  | S n' => String c (replicate n' c)
  end.

(** [s.rjust(width, fill)]: pads on the left, never truncates. *)
Definition rjust (s : string) (width : nat) (fill : ascii) : string :=
  (replicate (width - String.length s) fill ++ s)%string.

(** Binary digits of a positive number, most significant first. *)
Fixpoint digits (p : positive) : string :=
  match p with
  | xH => "1"
  | xO p' => digits p' ++ "0"
  | xI p' => digits p' ++ "1"
  end%string.

(** [bin(z)] *)
Definition bin (z : Z) : string :=
  match z with
  | Z0 => "0b0"
  | Zpos p => "0b" ++ digits p
  | Zneg p => "-0b" ++ digits p
  end%string.

(** [l1 == l2] on lists of integers. *)
Fixpoint list_eqb (l1 l2 : list Z) : bool :=
  match l1, l2 with
  | [], [] => true
  | x :: l1', y :: l2' => Z.eqb x y && list_eqb l1' l2'
  | _, _ => false
  end.

(** [v in l] on lists of integers. *)
Definition mem (v : Z) (l : list Z) : bool := existsb (Z.eqb v) l.

(** [l.index(v)]: position of the first occurrence. *)
Fixpoint index (v : Z) (l : list Z) : result nat :=
  match l with
  | [] => raise ValueError
  | x :: l' => if Z.eqb x v then ok 0 else i <- index v l' ;; ok (S i)
  end.

(** [l[i] = x] for [i] known to be a natural number. *)
Fixpoint set_item {A : Type} (l : list A) (i : nat) (x : A) : result (list A) :=
  match l, i with
  | [], _ => raise IndexError
  | _ :: l', 0 => ok (x :: l')
  | y :: l', S i' => l'' <- set_item l' i' x ;; ok (y :: l'')
  end.

(** [l.sort()] on integers.  Whatever the algorithm, the outcome is the one
    ascending rearrangement of [l]; insertion is the simplest way to say it. *)
Fixpoint insert (x : Z) (l : list Z) : list Z :=
  match l with
  | [] => [x]
  | y :: l' => if Z.leb x y then x :: l else y :: insert x l'
  end.

Fixpoint sort (l : list Z) : list Z :=
  match l with
  | [] => []
  | x :: l' => insert x (sort l')
  end.

End Py.

(** ** class Minterm *)

Module Minterm.

Record t : Type := mk {
  _values : list Z;   (* the indices the term covers *)
  _value : string;    (* the ternary pattern over 0, 1 and - *)
  _used : bool
}.

(** [Minterm(values, value)] *)
Definition __init__ (values : list Z) (value : string) : t :=
  {| _values := Py.sort values; _value := value; _used := false |}.

Definition get_values (self : t) : list Z := _values self.
Definition get_value (self : t) : string := _value self.
Definition used (self : t) : bool := _used self.

(** [self.use()] : the only assignment to [_used] after construction. *)
Definition use (self : t) : t :=
  {| _values := _values self; _value := _value self; _used := true |}.

Definition __eq__ (self minterm : t) : bool :=
  String.eqb (_value self) (get_value minterm)
  && Py.list_eqb (_values self) (get_values minterm).

(** The loop of [combine].  Both patterns are read at the same position
    [char]; running past the end of the argument's pattern is an
    [IndexError], running past the end of the receiver's ends the loop. *)
Fixpoint combine_loop (self_value minterm_value : string)
         (diff : nat) (result_ : string) : result (option string) :=
  match self_value with
  | EmptyString => ok (Some result_)
  | String c rest =>
      match minterm_value with
      | EmptyString => raise IndexError
      | String d rest' =>
          let diff' := if Ascii.eqb c d then diff else S diff in
          let result' :=
            (if Ascii.eqb c d then result_ ++ String c EmptyString
             else result_ ++ "-")%string in
          if 1 <? diff' then ok None
          else combine_loop rest rest' diff' result'
      end
  end.

(** [self.combine(minterm)].  The body never touches [_used] of either
    operand, so it has no state to hand back. *)
Definition combine (self minterm : t) : result (option t) :=
  if String.eqb (_value self) (_value minterm)
     || Py.list_eqb (_values self) (_values minterm)
  then ok None
  else
    r <- combine_loop (_value self) (_value minterm) 0 EmptyString ;;
    match r with
    | None => ok None
    | Some result_ => ok (Some (__init__ (_values self ++ _values minterm) result_))
    end.

End Minterm.

(** ** Loops

    [for x in l: body] threading the loop's variables as [s]; the first
    exception ends it. *)

Fixpoint for_each {A S : Type} (body : S -> A -> result S) (l : list A) (s : S)
  : result S :=
  match l with
  | [] => ok s
  | x :: l' => s' <- body s x ;; for_each body l' s'
  end.

(** ** class QM *)

Module QM.

Import Minterm.

(** [term in terms], decided by [Minterm.__eq__]. *)
Definition contains (terms : list Minterm.t) (term : Minterm.t) : bool :=
  existsb (fun e => Minterm.__eq__ e term) terms.

(** [groups[i].append(x)] *)
Fixpoint append_at {A : Type} (groups : list (list A)) (i : nat) (x : A)
  : result (list (list A)) :=
  match groups, i with
  | [], _ => raise IndexError
  | g :: gs, 0 => ok ((g ++ [x]) :: gs)
  | g :: gs, S i' => gs' <- append_at gs i' x ;; ok (g :: gs')
  end.

(** *** [__power_set] (a static method) *)

(** The subset numbered [i]: the candidates at the positions where the
    padded binary representation of [i] has a [1]. *)
Definition subset_at (prime_implicants : list Minterm.t) (i : Z)
  : result (list Minterm.t) :=
  let bin_value :=
    Py.rjust (Py.slice_from 2 (Py.bin i)) (List.length prime_implicants) "0" in
  for_each
    (fun current_set index =>
       match String.get index bin_value with
       | None => raise IndexError
       | Some c =>
           if Ascii.eqb c "1" then
             match nth_error prime_implicants index with
             | None => raise IndexError
             | Some p => ok (current_set ++ [p])
             end
           else ok current_set
       end)
    (seq 0 (String.length bin_value)) [].

(** The sorted list of the wanted [values] that [subset] covers. *)
Definition temp_values (values : list Z) (subset : list Minterm.t) : list Z :=
  Py.sort
    (fold_left
       (fun temp implicant =>
          fold_left
            (fun temp value =>
               if negb (Py.mem value temp) && Py.mem value values
               then temp ++ [value] else temp)
            (get_values implicant) temp)
       subset []).

Definition __power_set (values : list Z) (prime_implicants : list Minterm.t)
  : result (list Minterm.t) :=
  power_set <-
    for_each
      (fun power_set i =>
         current_set <- subset_at prime_implicants (Z.of_nat i) ;;
         ok (power_set ++ [current_set]))
      (seq 1 (2 ^ List.length prime_implicants - 1)) [] ;;
  match power_set with
  | [] => raise IndexError
  | first :: _ =>
      ok (fold_left
            (fun min_set subset =>
               if Py.list_eqb (temp_values values subset) values
               then if List.length subset <? List.length min_set then subset else min_set
               else min_set)
            power_set first)
  end.

(** *** [__get_prime_implicants] *)

(** One [term1] against every [term2] of [group2]: the innermost loop.
    Returned are [term1] and [group2] with their flags as the loop leaves
    them, and [new_groups[compare]]. *)
Fixpoint compare_term (term1 : Minterm.t) (group2 new_group : list Minterm.t)
  : result (Minterm.t * list Minterm.t * list Minterm.t) :=
  match group2 with
  | [] => ok (term1, [], new_group)
  | term2 :: rest =>
      term3 <- Minterm.combine term1 term2 ;;
      match term3 with
      | Some t3 =>
          let new_group' :=
            if contains new_group t3 then new_group else new_group ++ [t3] in
          '(t1, g2, ng) <- compare_term (use term1) rest new_group' ;;
          ok (t1, use term2 :: g2, ng)
      | None =>
          '(t1, g2, ng) <- compare_term term1 rest new_group ;;
          ok (t1, term2 :: g2, ng)
      end
  end.

(** Every term of [group1] against every term of [group2]. *)
Fixpoint compare_group (group1 group2 new_group : list Minterm.t)
  : result (list Minterm.t * list Minterm.t * list Minterm.t) :=
  match group1 with
  | [] => ok ([], group2, new_group)
  | term1 :: rest =>
      '(t1, g2, ng) <- compare_term term1 group2 new_group ;;
      '(g1, g2', ng') <- compare_group rest g2 ng ;;
      ok (t1 :: g1, g2', ng')
  end.

(** The loop over [comparisons]: each group against its successor.  The
    flags set while a group is the right operand are still there when it
    becomes the left one.  Returned are the groups with their final flags
    and [new_groups]. *)
Fixpoint compare_all (group1 : list Minterm.t) (rest : list (list Minterm.t))
  : result (list (list Minterm.t) * list (list Minterm.t)) :=
  match rest with
  | [] => ok ([group1], [])
  | group2 :: rest' =>
      '(g1, g2, ng) <- compare_group group1 group2 [] ;;
      '(gs, ngs) <- compare_all g2 rest' ;;
      ok (g1 :: gs, ng :: ngs)
  end.

(** [if not term.used() and term not in unused: unused.append(term)] *)
Definition add_unused (unused : list Minterm.t) (term : Minterm.t)
  : list Minterm.t :=
  if negb (used term) && negb (contains unused term)
  then unused ++ [term] else unused.

(** The recursion, with the number of nested calls still allowed.  Each
    call passes one group fewer, so [length groups] calls are enough for a
    non-empty list; on the empty list Python recurses without end. *)
Fixpoint get_prime_implicants_rec (depth : nat) (groups : list (list Minterm.t))
  : result (list Minterm.t) :=
  match groups with
  | [group] => ok group
  | _ =>
      match depth with
      | 0 => raise RecursionError
      | S depth' =>
          '(groups', new_groups) <-
            match groups with
            | [] => ok ([], [])
            | group1 :: rest => compare_all group1 rest
            end ;;
          let unused := fold_left add_unused (List.concat groups') [] in
          deeper <- get_prime_implicants_rec depth' new_groups ;;
          ok (fold_left add_unused deeper unused)
      end
  end.

Definition __get_prime_implicants (groups : list (list Minterm.t))
  : result (list Minterm.t) :=
  get_prime_implicants_rec (List.length groups) groups.

Section Instance.

Variable variables : list string.
Variables values dont_cares : list Z.
Variable is_maxterm : bool.

Let all_values : list Z := values ++ dont_cares.

Definition __get_bits (value : Z) : string :=
  Py.rjust (Py.slice_from 2 (Py.bin value)) (List.length variables) "0".

Definition __initial_group : result (list (list Minterm.t)) :=
  for_each
    (fun groups value =>
       let count := Py.count "1" (__get_bits value) in
       append_at groups count (Minterm.__init__ [value] (__get_bits value)))
    all_values
    (map (fun _ => []) (seq 0 (List.length variables + 1))).

(** *** [__solve] *)

(** The inner loop over the prime implicants: [(uses, last)]. *)
Definition count_uses (prime_implicants : list Minterm.t) (value : Z)
  : nat * option Minterm.t :=
  fold_left
    (fun st minterm =>
       if Py.mem value (get_values minterm)
       then (S (fst st), Some minterm) else st)
    prime_implicants (0, None).

(** [if v not in self._dont_cares: values_used[self._values.index(v)] = True] *)
Definition mark (values_used : list bool) (v : Z) : result (list bool) :=
  if Py.mem v dont_cares then ok values_used
  else i <- Py.index v values ;; Py.set_item values_used i true.

(** One round of the loop over the true values. *)
Definition essential_step (prime_implicants : list Minterm.t)
           (st : list Minterm.t * list bool) (value : Z)
  : result (list Minterm.t * list bool) :=
  let '(uses, last) := count_uses prime_implicants value in
  if uses =? 1 then
    match last with
    | None => raise AttributeError
    | Some last =>
        if contains (fst st) last then ok st
        else
          values_used <- for_each mark (get_values last) (snd st) ;;
          ok (fst st ++ [last], values_used)
    end
  else ok st.

(** The whole pass: [(essential_prime_implicants, values_used)]. *)
Definition essential_pass (prime_implicants : list Minterm.t)
  : result (list Minterm.t * list bool) :=
  for_each (essential_step prime_implicants) values
           ([], repeat false (List.length values)).

(** The candidates kept for the cover search. *)
Definition remaining (prime_implicants essential : list Minterm.t)
  : list Minterm.t :=
  filter
    (fun prime_implicant =>
       negb (contains essential prime_implicant)
       && (0 <? List.length (filter (fun value => negb (Py.mem value dont_cares))
                               (get_values prime_implicant))))
    prime_implicants.

(** The true values not yet marked, in the order of [values]. *)
Definition residual (values_used : list bool) : list Z :=
  map fst (filter (fun p => negb (snd p)) (List.combine values values_used)).

(** [__solve] after its first statement. *)
Definition solve_from (prime_implicants : list Minterm.t)
  : result (list Minterm.t) :=
  '(essential, values_used) <- essential_pass prime_implicants ;;
  if count_occ bool_dec values_used false =? 0 then ok essential
  else
    let prime_implicants := remaining prime_implicants essential in
    if List.length prime_implicants =? 1 then ok (essential ++ prime_implicants)
    else
      cover <- __power_set (residual values_used) prime_implicants ;;
      ok (essential ++ cover).

Definition __solve : result (list Minterm.t) :=
  groups <- __initial_group ;;
  prime_implicants <- __get_prime_implicants groups ;;
  solve_from prime_implicants.

(** *** [__get_function] *)

(** One round of the loop over the positions [i] of an implicant's pattern. *)
Definition render_bit (value : string) (result_ : string) (i : nat)
  : result string :=
  match String.get i value with
  | None => raise IndexError
  | Some c =>
      let dash := Ascii.eqb c "-" in
      let result1 :=
        if Ascii.eqb c (if is_maxterm then "1" else "0")%char
        then (result_ ++ "NOT ")%string else result_ in
      result2 <-
        (if dash then ok result1
         else match nth_error variables i with
              | None => raise IndexError
              | Some name => ok (result1 ++ name)%string
              end) ;;
      if (Py.count "-" (Py.slice_from (i + 1) value)
          <? String.length value - i - 1) && negb dash
      then ok (result2 ++ (if is_maxterm then " OR " else " AND "))%string
      else ok result2
  end.

(** One round of the loop over the implicants, [j] being the position. *)
Definition render_implicant (count : nat) (result_ : string)
           (entry : nat * Minterm.t) : result string :=
  let '(j, implicant) := entry in
  let parens :=
    Py.count "-" (get_value implicant) <? List.length variables in
  let result1 := if parens then (result_ ++ "(")%string else result_ in
  result2 <-
    for_each (render_bit (get_value implicant))
             (seq 0 (String.length (get_value implicant))) result1 ;;
  let result3 := if parens then (result2 ++ ")")%string else result2 in
  if j <? count - 1
  then ok (result3 ++ (if is_maxterm then " AND " else " OR "))%string
  else ok result3.

(** [__get_function] after its first statement. *)
Definition render (prime_implicants : list Minterm.t) : result string :=
  match prime_implicants with
  | [] => ok "0"%string
  | first :: others =>
      if (List.length prime_implicants =? 1)
         && (Py.count "-" (get_value first) =? List.length variables)
      then ok "1"%string
      else
        for_each (render_implicant (List.length prime_implicants))
                 (List.combine (seq 0 (List.length prime_implicants)) prime_implicants)
                 EmptyString
  end.

Definition __get_function : result string :=
  prime_implicants <- __solve ;;
  render prime_implicants.

End Instance.

Record t : Type := mk {
  _variables : list string;
  _values : list Z;
  _dont_cares : list Z;
  _all_values : list Z;
  _is_maxterm : bool;
  _function : string
}.

(** [QM(variables, values, dont_cares, is_maxterm=...)]; [dont_cares]
    defaults to [None].  The instance exists only if [__get_function]
    returns. *)
Definition __init__ (variables : list string) (values : list Z)
           (dont_cares : option (list Z)) (is_maxterm : bool) : result t :=
  let dont_cares := match dont_cares with None => [] | Some d => d end in
  function <- __get_function variables values dont_cares is_maxterm ;;
  ok {| _variables := variables;
        _values := values;
        _dont_cares := dont_cares;
        _all_values := values ++ dont_cares;
        _is_maxterm := is_maxterm;
        _function := function |}.

(** [self.get_function()]: the value returned and the instance afterwards. *)
Definition get_function (self : t) : string * t := (_function self, self).

End QM.

(** ** Minterm objects in a store

    Python hands terms around by reference.  For the question which call
    changes which object, the objects live in a store and a call receives
    references into it. *)

Module Store.

Definition ref : Type := nat.
Definition t : Type := list Minterm.t.

Definition load (h : t) (r : ref) : result Minterm.t :=
  match nth_error h r with
  | Some m => ok m
  | None => raise AttributeError
  end.

(** [r.use()] *)
Definition use (h : t) (r : ref) : result t :=
  m <- load h r ;; Py.set_item h r (Minterm.use m).

(** [self.combine(minterm)]: the value returned and the store afterwards.
    A new term, when there is one, is a new object. *)
Definition combine (h : t) (self minterm : ref) : result (option ref * t) :=
  a <- load h self ;;
  b <- load h minterm ;;
  term3 <- Minterm.combine a b ;;
  match term3 with
  | None => ok (None, h)
  | Some c => ok (Some (List.length h), h ++ [c])
  end.

(** The body of the innermost loop of [__get_prime_implicants], up to the
    two calls of [use]. *)
Definition combine_and_use (h : t) (term1 term2 : ref)
  : result (option ref * t) :=
  '(term3, h1) <- combine h term1 term2 ;;
  match term3 with
  | None => ok (None, h1)
  | Some r => h2 <- use h1 term1 ;; h3 <- use h2 term2 ;; ok (Some r, h3)
  end.

Definition used (h : t) (r : ref) : option bool :=
  option_map Minterm.used (nth_error h r).

End Store.

(** ** Reading the printed expressions

    What an expression printed by [QM] means: words are variable names,
    [0] and [1] the constants, [NOT] binds tighter than [AND], [AND]
    tighter than [OR], parentheses group. *)

Module Expr.

Inductive token : Type :=
| LPAREN | RPAREN | AND | OR | NOT
| WORD (w : string).

Inductive t : Type :=
| Const (b : bool)
| Var (name : string)
| Not (e : t)
| And (e1 e2 : t)
| Or (e1 e2 : t).

Definition classify (w : string) : token :=
  if String.eqb w "AND" then AND
  else if String.eqb w "OR" then OR
  else if String.eqb w "NOT" then NOT
  else WORD w.

Definition flush (word : string) (tokens : list token) : list token :=
  match word with
  | EmptyString => tokens
  | _ => tokens ++ [classify word]
  end.

Fixpoint tokenize (s word : string) (tokens : list token) : list token :=
  match s with
  | EmptyString => flush word tokens
  | String c s' =>
      if Ascii.eqb c " " then tokenize s' EmptyString (flush word tokens)
      else if Ascii.eqb c "(" then
        tokenize s' EmptyString (flush word tokens ++ [LPAREN])
      else if Ascii.eqb c ")" then
        tokenize s' EmptyString (flush word tokens ++ [RPAREN])
      else tokenize s' (word ++ String c EmptyString)%string tokens
  end.

Definition atom (w : string) : t :=
  if String.eqb w "0" then Const false
  else if String.eqb w "1" then Const true
  else Var w.

Fixpoint parse_or (fuel : nat) (ts : list token) : option (t * list token) :=
  match fuel with
  | 0 => None
  | S fuel' =>
      match parse_and fuel' ts with
      | Some (e1, OR :: ts') =>
          match parse_or fuel' ts' with
          | Some (e2, ts'') => Some (Or e1 e2, ts'')
          | None => None
          end
      | r => r
      end
  end
with parse_and (fuel : nat) (ts : list token) : option (t * list token) :=
  match fuel with
  | 0 => None
  | S fuel' =>
      match parse_atom fuel' ts with
      | Some (e1, AND :: ts') =>
          match parse_and fuel' ts' with
          | Some (e2, ts'') => Some (And e1 e2, ts'')
          | None => None
          end
      | r => r
      end
  end
with parse_atom (fuel : nat) (ts : list token) : option (t * list token) :=
  match fuel with
  | 0 => None
  | S fuel' =>
      match ts with
      | NOT :: ts' =>
          match parse_atom fuel' ts' with
          | Some (e, ts'') => Some (Not e, ts'')
          | None => None
          end
      | LPAREN :: ts' =>
          match parse_or fuel' ts' with
          | Some (e, RPAREN :: ts'') => Some (e, ts'')
          | _ => None
          end
      | WORD w :: ts' => Some (atom w, ts')
      | _ => None
      end
  end.

Definition parse (s : string) : option t :=
  let ts := tokenize s EmptyString [] in
  match parse_or (3 * List.length ts + 3) ts with
  | Some (e, []) => Some e
  | _ => None
  end.

Fixpoint eval (env : string -> bool) (e : t) : bool :=
  match e with
  | Const b => b
  | Var name => env name
  | Not e1 => negb (eval env e1)
  | And e1 e2 => eval env e1 && eval env e2
  | Or e1 e2 => eval env e1 || eval env e2
  end.

(** The value of the variable [name] when the variables carry the bits
    [bits], first variable first. *)
Fixpoint lookup (name : string) (variables : list string) (bits : string)
  : bool :=
  match variables, bits with
  | x :: variables', String c bits' =>
      if String.eqb x name then Ascii.eqb c "1"
      else lookup name variables' bits'
  | _, _ => false
  end.

(** The bit assignment of the truth-table index [v]. *)
Definition assignment (variables : list string) (v : Z) : string -> bool :=
  fun name => lookup name variables (QM.__get_bits variables v).

(** The truth value of the printed expression [s] at index [v]; [None] if
    [s] does not parse. *)
Definition value_at (variables : list string) (s : string) (v : Z)
  : option bool :=
  option_map (eval (assignment variables v)) (parse s).

End Expr.

(** ** The vocabulary of the properties *)

Local Open Scope string_scope.
Local Open Scope Z_scope.

(** The variables of the three-variable examples. *)
Definition ABC : list string := ["A"; "B"; "C"].

(** The six prime implicants of the truth table 0, 1, 2, 5, 6, 7, in the
    order [__get_prime_implicants] returns them. *)
Definition cyclic_pool : list Minterm.t :=
  [ Minterm.mk [0; 1] "00-" false; Minterm.mk [0; 2] "0-0" false;
    Minterm.mk [1; 5] "-01" false; Minterm.mk [2; 6] "-10" false;
    Minterm.mk [5; 7] "1-1" false; Minterm.mk [6; 7] "11-" false ].

(** The number of positions at which two patterns differ. *)
Fixpoint differences (s1 s2 : string) : nat :=
  match s1, s2 with
  | String c r1, String d r2 =>
      ((if Ascii.eqb c d then 0 else 1) + differences r1 r2)%nat
  | _, _ => 0%nat
  end.

(** The pattern with a dash wherever two patterns differ. *)
Fixpoint merge (s1 s2 : string) : string :=
  match s1, s2 with
  | String c r1, String d r2 =>
      String (if Ascii.eqb c d then c else "-"%char) (merge r1 r2)
  | _, _ => EmptyString
  end.

(** Two patterns differ at position [i] and nowhere else. *)
Definition differ_only_at (i : nat) (s1 s2 : string) : Prop :=
  (i < String.length s1)%nat
  /\ String.get i s1 <> String.get i s2
  /\ forall j : nat, j <> i -> String.get j s1 = String.get j s2.

(** The guard as the specification words it: the patterns differ or the
    covered lists differ. *)
Definition spec_guard (self minterm : Minterm.t) : Prop :=
  Minterm._value self <> Minterm._value minterm
  \/ Minterm._values self <> Minterm._values minterm.

(** The success condition as the specification words it. *)
Definition spec_combine_condition (self minterm : Minterm.t) : Prop :=
  (exists term3, Minterm.combine self minterm = ok (Some term3))
  <-> (spec_guard self minterm
       /\ exists i, differ_only_at i (Minterm._value self)
                                   (Minterm._value minterm)).

(** The terms a program can hold: made by the constructor, returned by
    [combine] on such terms, or such a term after [use]. *)
Inductive built : Minterm.t -> Prop :=
| built_init (values : list Z) (value : string) :
    built (Minterm.__init__ values value)
| built_use (m : Minterm.t) :
    built m -> built (Minterm.use m)
| built_combine (self minterm term3 : Minterm.t) :
    built self -> built minterm ->
    Minterm.combine self minterm = ok (Some term3) ->
    built term3.

(** [m] covers the index [v]. *)
Definition covers (v : Z) (m : Minterm.t) : bool :=
  Py.mem v (Minterm.get_values m).

(** The index [v] is marked in [values_used], at the position where
    [values] first has it. *)
Definition satisfied (values : list Z) (values_used : list bool) (v : Z)
  : Prop :=
  exists i : nat,
    Py.index v values = ok i /\ nth_error values_used i = Some true.

(** What the essential pass keeps: one flag per true value, and every index an
    essential implicant covers is marked unless it is a don't-care. *)
Definition essential_inv (values dont_cares : list Z)
           (st : list Minterm.t * list bool) : Prop :=
  List.length (snd st) = List.length values
  /\ forall m, In m (fst st) ->
       forall v, In v (Minterm.get_values m) -> Py.mem v dont_cares = false ->
                 satisfied values (snd st) v.

(** The members picked by a string of binary digits, read from the left. *)
Fixpoint picks (bin_value : string) (prime_implicants : list Minterm.t)
  : list Minterm.t :=
  match bin_value, prime_implicants with
  | String c rest, p :: others =>
      if Ascii.eqb c "1" then p :: picks rest others else picks rest others
  | _, _ => []
  end.

(** *** Bits, buckets and patterns *)

(** The number a string of binary digits denotes, most significant digit
    first, continuing from [acc]. *)
Fixpoint decode_from (acc : Z) (s : string) : Z :=
  match s with
  | EmptyString => acc
  | String c rest =>
      decode_from (2 * acc + (if Ascii.eqb c "1" then 1 else 0)) rest
  end.

Definition decode (s : string) : Z := decode_from 0 s.

(** Every character is [0] or [1]. *)
Fixpoint binary (s : string) : bool :=
  match s with
  | EmptyString => true
  | String c rest => (Ascii.eqb c "0" || Ascii.eqb c "1") && binary rest
  end.

(** Every character is [0], [1] or [-]. *)
Fixpoint ternary (s : string) : bool :=
  match s with
  | EmptyString => true
  | String c rest =>
      (Ascii.eqb c "0" || Ascii.eqb c "1" || Ascii.eqb c "-") && ternary rest
  end.

(** The bits [bits] agree with [pattern] wherever it has no dash. *)
Fixpoint matches (bits pattern : string) : bool :=
  match bits, pattern with
  | EmptyString, EmptyString => true
  | String b bits', String c pattern' =>
      (Ascii.eqb c "-" || Ascii.eqb b c) && matches bits' pattern'
  | _, _ => false
  end.

(** The index [v] has a row in the truth table over [variables]. *)
Definition in_range (variables : list string) (v : Z) : Prop :=
  0 <= v < 2 ^ Z.of_nat (List.length variables).

(** The number of ones among the bits of [v]. *)
Definition ones (variables : list string) (v : Z) : nat :=
  Py.count "1" (QM.__get_bits variables v).

(** The term [__initial_group] makes for the index [v]. *)
Definition singleton (variables : list string) (v : Z) : Minterm.t :=
  Minterm.__init__ [v] (QM.__get_bits variables v).

(** Bucket [k]: the terms of the indices with [k] ones, in the order of
    [all_values]. *)
Definition bucket (variables : list string) (all_values : list Z) (k : nat)
  : list Minterm.t :=
  map (singleton variables)
      (filter (fun v => Nat.eqb (ones variables v) k) all_values).

Definition buckets (variables : list string) (all_values : list Z)
  : list (list Minterm.t) :=
  map (bucket variables all_values) (seq 0 (List.length variables + 1)).

(** [t] covers nothing that some member of [l] does not cover. *)
Definition subsumed (t : Minterm.t) (l : list Minterm.t) : Prop :=
  exists p : Minterm.t,
    In p l /\ incl (Minterm.get_values t) (Minterm.get_values p).

(** No two members are equal in the sense of [__eq__]. *)
Fixpoint distinct (l : list Minterm.t) : Prop :=
  match l with
  | [] => True
  | a :: l' => QM.contains l' a = false /\ distinct l'
  end.

(** [y] is [x] after some comparisons that filled [new_group]: it covers
    what [x] covers, and if it is marked then [x] was marked before or some
    member of [new_group] covers all of [x]. *)
Definition tracked (new_group : list Minterm.t) (x y : Minterm.t) : Prop :=
  Minterm.get_values y = Minterm.get_values x
  /\ (Minterm.used y = true ->
      Minterm.used x = true \/ subsumed x new_group).

(** The term [m] has a pattern of the right length over [0], [1] and [-]
    and covers, among the indices of the truth table, exactly those whose
    bits match its pattern. *)
Definition exact_term (variables : list string) (m : Minterm.t) : Prop :=
  String.length (Minterm.get_value m) = List.length variables
  /\ ternary (Minterm.get_value m) = true
  /\ forall x : Z,
       in_range variables x ->
       (In x (Minterm.get_values m)
        <-> matches (QM.__get_bits variables x) (Minterm.get_value m) = true).

(** Where the essential list and the marks come from: each essential
    implicant is a prime implicant, the only one covering some true value,
    no two are equal, and a mark sits where [values] first has an index
    that an essential implicant covers. *)
Definition essential_origin (values : list Z) (prime_implicants : list Minterm.t)
           (st : list Minterm.t * list bool) : Prop :=
  incl (fst st) prime_implicants
  /\ distinct (fst st)
  /\ (forall m, In m (fst st) ->
        exists v, In v values /\ filter (covers v) prime_implicants = [m])
  /\ (forall i, nth_error (snd st) i = Some true ->
        exists m v, In m (fst st) /\ In v (Minterm.get_values m)
                    /\ Py.index v values = ok i).

(** The inputs the program is meant for: at least one variable, every
    index a row of the truth table, no true value given twice, and no true
    value among the don't-cares. *)
Definition valid_input (variables : list string) (values dont_cares : list Z)
  : Prop :=
  variables <> []
  /\ Forall (in_range variables) (values ++ dont_cares)%list
  /\ NoDup values
  /\ (forall v, In v values -> ~ In v dont_cares).

(** *** The printed form *)

(** The literal printed for the pattern character [c] of the variable
    [name]: negated when [c] is the false polarity of the mode. *)
Definition printed_literal (is_maxterm : bool) (c : ascii) (name : string)
  : string :=
  ((if Ascii.eqb c (if is_maxterm then "1" else "0")%char then "NOT " else "")
   ++ name)%string.

(** The literals of a pattern, one for each position that is not a dash. *)
Fixpoint printed_literals (is_maxterm : bool) (value : string)
         (variables : list string) : list string :=
  match value, variables with
  | String c rest, name :: names =>
      if Ascii.eqb c "-" then printed_literals is_maxterm rest names
      else printed_literal is_maxterm c name
           :: printed_literals is_maxterm rest names
  | _, _ => []
  end.

(** One implicant: its literals joined, in parentheses unless there are as
    many dashes as variables. *)
Definition printed_clause (variables : list string) (is_maxterm : bool)
           (m : Minterm.t) : string :=
  let body :=
    String.concat (if is_maxterm then " OR " else " AND ")
                  (printed_literals is_maxterm (Minterm.get_value m) variables) in
  if (Py.count "-" (Minterm.get_value m) <? List.length variables)%nat
  then ("(" ++ body ++ ")")%string else body.

(** The whole expression. *)
Definition printed_expression (variables : list string) (is_maxterm : bool)
           (prime_implicants : list Minterm.t) : string :=
  match prime_implicants with
  | [] => "0"
  | first :: others =>
      if (List.length prime_implicants =? 1)%nat
         && (Py.count "-" (Minterm.get_value first) =? List.length variables)%nat
      then "1"
      else String.concat (if is_maxterm then " AND " else " OR ")
                         (map (printed_clause variables is_maxterm)
                              prime_implicants)
  end.

(** *** The meaning of the printed form *)

(** A variable name that reads back as one word: not empty, without blank
    or parenthesis, and none of the words of the expression language. *)
Definition plain_char (c : ascii) : bool :=
  negb (Ascii.eqb c " " || Ascii.eqb c "(" || Ascii.eqb c ")").

Fixpoint plain_chars (w : string) : bool :=
  match w with
  | EmptyString => true
  | String c rest => plain_char c && plain_chars rest
  end.

Definition plain_name (w : string) : bool :=
  plain_chars w
  && negb (String.eqb w "")
  && negb (String.eqb w "AND") && negb (String.eqb w "OR")
  && negb (String.eqb w "NOT")
  && negb (String.eqb w "0") && negb (String.eqb w "1").

(** Sub-expressions combined by one operator, nested to the right. *)
Fixpoint chain (op : Expr.t -> Expr.t -> Expr.t) (es : list Expr.t) : Expr.t :=
  match es with
  | [] => Expr.Const false
  | [e] => e
  | e :: es' => op e (chain op es')
  end.

(** Token blocks with one separator between neighbours. *)
Fixpoint join_tokens (sep : Expr.token) (blocks : list (list Expr.token))
  : list Expr.token :=
  match blocks with
  | [] => []
  | [b] => b
  | b :: bs => (b ++ sep :: join_tokens sep bs)%list
  end.

(** The expression and the tokens of a literal. *)
Definition literal_ast (is_maxterm : bool) (c : ascii) (name : string)
  : Expr.t :=
  if Ascii.eqb c (if is_maxterm then "1" else "0")%char
  then Expr.Not (Expr.Var name) else Expr.Var name.

Definition literal_tokens (is_maxterm : bool) (c : ascii) (name : string)
  : list Expr.token :=
  if Ascii.eqb c (if is_maxterm then "1" else "0")%char
  then [Expr.NOT; Expr.WORD name] else [Expr.WORD name].

(** The positions of a pattern that are no dash, with their variables. *)
Fixpoint positions (value : string) (variables : list string)
  : list (ascii * string) :=
  match value, variables with
  | String c rest, name :: names =>
      if Ascii.eqb c "-" then positions rest names
      else (c, name) :: positions rest names
  | _, _ => []
  end.

(** The expression of one implicant and of the implicant list. *)
Definition clause_ast (variables : list string) (is_maxterm : bool)
           (m : Minterm.t) : Expr.t :=
  chain (if is_maxterm then Expr.Or else Expr.And)
        (map (fun p => literal_ast is_maxterm (fst p) (snd p))
             (positions (Minterm.get_value m) variables)).

Definition expression_ast (variables : list string) (is_maxterm : bool)
           (prime_implicants : list Minterm.t) : Expr.t :=
  chain (if is_maxterm then Expr.And else Expr.Or)
        (map (clause_ast variables is_maxterm) prime_implicants).

(** The tokens of one implicant and of the implicant list. *)
Definition clause_tokens (variables : list string) (is_maxterm : bool)
           (m : Minterm.t) : list Expr.token :=
  (Expr.LPAREN
   :: join_tokens (if is_maxterm then Expr.OR else Expr.AND)
        (map (fun p => literal_tokens is_maxterm (fst p) (snd p))
             (positions (Minterm.get_value m) variables))
   ++ [Expr.RPAREN])%list.

Definition expression_tokens (variables : list string) (is_maxterm : bool)
           (prime_implicants : list Minterm.t) : list Expr.token :=
  join_tokens (if is_maxterm then Expr.AND else Expr.OR)
              (map (clause_tokens variables is_maxterm) prime_implicants).

(** An implicant that is printed as a clause in parentheses with at least
    one literal. *)
Definition proper_clause (variables : list string) (m : Minterm.t) : Prop :=
  String.length (Minterm.get_value m) = List.length variables
  /\ (Py.count "-" (Minterm.get_value m)
      < String.length (Minterm.get_value m))%nat.

(** The environment [env] gives each name the bit at its position. *)
Fixpoint agrees (env : string -> bool) (names : list string) (bits : string)
  : Prop :=
  match names, bits with
  | name :: names', String b bits' =>
      env name = Ascii.eqb b "1" /\ agrees env names' bits'
  | _, _ => True
  end.

(** The next token is not the given operator. *)
Definition no_and (ts : list Expr.token) : Prop :=
  match ts with Expr.AND :: _ => False | _ => True end.

Definition no_or (ts : list Expr.token) : Prop :=
  match ts with Expr.OR :: _ => False | _ => True end.

(** The block [b] is read as [e] by the parser at each of its levels,
    with fuel in proportion to its length, whatever follows. *)
Definition reads_atom (b : list Expr.token) (e : Expr.t) : Prop :=
  forall f rest,
    (2 * List.length b <= f)%nat ->
    Expr.parse_atom f (b ++ rest)%list = Some (e, rest).

Definition reads_and (b : list Expr.token) (e : Expr.t) : Prop :=
  forall f rest,
    (2 * List.length b + 1 <= f)%nat -> no_and rest ->
    Expr.parse_and f (b ++ rest)%list = Some (e, rest).

Definition reads_or (b : list Expr.token) (e : Expr.t) : Prop :=
  forall f rest,
    (2 * List.length b + 2 <= f)%nat -> no_and rest -> no_or rest ->
    Expr.parse_or f (b ++ rest)%list = Some (e, rest).

(** The scanner of [Expr.tokenize] without the final flush: the pending
    word and the tokens after reading [s]. *)
Fixpoint scan (s word : string) (tokens : list Expr.token)
  : string * list Expr.token :=
  match s with
  | EmptyString => (word, tokens)
  | String c s' =>
      if Ascii.eqb c " " then scan s' EmptyString (Expr.flush word tokens)
      else if Ascii.eqb c "(" then
        scan s' EmptyString (Expr.flush word tokens ++ [Expr.LPAREN])%list
      else if Ascii.eqb c ")" then
        scan s' EmptyString (Expr.flush word tokens ++ [Expr.RPAREN])%list
      else scan s' (word ++ String c EmptyString)%string tokens
  end.






(** * Properties *)

Lemma bind_ok {A B : Type} (m : result A) (k : A -> result B) (b : B) :
  bind m k = ok b -> exists a, m = ok a /\ k a = ok b.
Proof.
  destruct m as [e|a]; simpl; intros H.
  - discriminate H.
  - exists a. split; [reflexivity | exact H].
Qed.

(** Closed facts about concrete inputs are settled by running the model. *)
Ltac evaluate := vm_compute; reflexivity.

(** A [bind] that returned: its first part returned as well. *)
Tactic Notation "bind_inv" hyp(E) "as" simple_intropattern(a)
       simple_intropattern(Ea) :=
  apply bind_ok in E; destruct E as [a [Ea E]].

(** ** Facts about the primitives *)

Section PyFacts.

Lemma list_eqb_eq (l1 l2 : list Z) : Py.list_eqb l1 l2 = true <-> l1 = l2.
Proof.
  revert l2. induction l1 as [|x l1 IH]; intros [|y l2]; simpl;
    try (split; [discriminate | congruence]).
  - split; reflexivity.
  - rewrite andb_true_iff, Z.eqb_eq, IH. split.
    + intros [-> ->]. reflexivity.
    + intros E. injection E as -> ->. split; reflexivity.
Qed.

Lemma list_eqb_refl (l : list Z) : Py.list_eqb l l = true.
Proof. apply list_eqb_eq. reflexivity. Qed.

Lemma mem_In (v : Z) (l : list Z) : Py.mem v l = true <-> In v l.
Proof.
  unfold Py.mem. rewrite existsb_exists. split.
  - intros [x [Hx E]]. apply Z.eqb_eq in E. subst x. exact Hx.
  - intros H. exists v. split; [exact H | apply Z.eqb_refl].
Qed.

Lemma mem_false (v : Z) (l : list Z) : Py.mem v l = false <-> ~ In v l.
Proof.
  rewrite <- mem_In. destruct (Py.mem v l); split; intros H;
    congruence || (exfalso; apply H; reflexivity) || discriminate.
Qed.

Lemma insert_perm (x : Z) (l : list Z) : Permutation (Py.insert x l) (x :: l).
Proof.
  induction l as [|y l IH]; simpl.
  - apply Permutation_refl.
  - destruct (x <=? y).
    + apply Permutation_refl.
    + apply perm_trans with (y :: x :: l).
      * apply perm_skip. exact IH.
      * apply perm_swap.
Qed.

Lemma sort_perm (l : list Z) : Permutation (Py.sort l) l.
Proof.
  induction l as [|x l IH]; simpl.
  - apply perm_nil.
  - apply perm_trans with (x :: Py.sort l).
    + apply insert_perm.
    + apply perm_skip. exact IH.
Qed.

Lemma sort_In (x : Z) (l : list Z) : In x (Py.sort l) <-> In x l.
Proof.
  split; apply Permutation_in.
  - apply sort_perm.
  - apply Permutation_sym, sort_perm.
Qed.

Lemma insert_sorted (x : Z) (l : list Z) :
  Sorted Z.le l -> Sorted Z.le (Py.insert x l).
Proof.
  induction l as [|y l IH]; simpl; intros S.
  - repeat constructor.
  - destruct (Z.leb_spec x y) as [L|L].
    + constructor; [exact S | constructor; exact L].
    + inversion S as [|? ? S' R]; subst.
      constructor; [apply IH; exact S'|].
      destruct l as [|z l]; simpl.
      * constructor. lia.
      * destruct (x <=? z); constructor; try lia.
        inversion R; subst. assumption.
Qed.

Lemma sort_sorted (l : list Z) : Sorted Z.le (Py.sort l).
Proof.
  induction l as [|x l IH]; simpl.
  - constructor.
  - apply insert_sorted. exact IH.
Qed.

(** Two ascending lists without repetition that hold the same elements
    are the same list. *)
Lemma sorted_nodup_ext (l1 l2 : list Z) :
  Sorted Z.le l1 -> Sorted Z.le l2 -> NoDup l1 -> NoDup l2 ->
  (forall x, In x l1 <-> In x l2) -> l1 = l2.
Proof.
  intros S1 S2. apply Sorted_StronglySorted in S1; [|intros a b c; apply Z.le_trans].
  apply Sorted_StronglySorted in S2; [|intros a b c; apply Z.le_trans].
  revert l2 S2. induction S1 as [|a l1 S1 IH F1]; intros l2 S2 N1 N2 E.
  - destruct l2 as [|b l2]; [reflexivity|].
    exfalso. apply (E b). left. reflexivity.
  - destruct S2 as [|b l2 S2 F2].
    + exfalso. apply (E a). left. reflexivity.
    + rewrite Forall_forall in F1, F2.
      inversion N1 as [|? ? Na N1']; subst.
      inversion N2 as [|? ? Nb N2']; subst.
      assert (a = b) as ->.
      { assert (Ha : In a (b :: l2)) by (apply E; left; reflexivity).
        assert (Hb : In b (a :: l1)) by (apply E; left; reflexivity).
        destruct Ha as [Ha|Ha]; [congruence|].
        destruct Hb as [Hb|Hb]; [congruence|].
        apply F2 in Ha. apply F1 in Hb. lia. }
      f_equal. apply IH; try assumption.
      intros x. split; intros Hx.
      * assert (H : In x (b :: l2)) by (apply E; right; exact Hx).
        destruct H as [H|H]; [subst x; contradiction | exact H].
      * assert (H : In x (b :: l1)) by (apply E; right; exact Hx).
        destruct H as [H|H]; [subst x; contradiction | exact H].
Qed.

Lemma count_replicate (n : nat) (c : ascii) : Py.count c (Py.replicate n c) = n.
Proof.
  induction n as [|n IH]; simpl.
  - reflexivity.
  - rewrite Ascii.eqb_refl, IH. reflexivity.
Qed.

End PyFacts.

(** ** The worked examples *)

Lemma cyclic_prime_implicants :
  (groups <- QM.__initial_group ABC [0; 1; 2; 5; 6; 7] [] ;;
   QM.__get_prime_implicants groups) = ok cyclic_pool.
Proof. evaluate. Qed.

(** C1, at the truth table 0, 1, 2, 5, 6, 7 over A, B, C: the instance is
    built, its expression is [(A AND B)], and that expression is false at
    the listed true values 0, 1, 2 and 5. *)
Theorem soundness_lost_on_cyclic_table :
  exists q : QM.t,
    QM.__init__ ABC [0; 1; 2; 5; 6; 7] None false = ok q
    /\ fst (QM.get_function q) = "(A AND B)"
    /\ map (Expr.value_at ABC (fst (QM.get_function q))) [0; 1; 2; 5]
       = [Some false; Some false; Some false; Some false].
Proof.
  eexists. split; [evaluate|].
  split; evaluate.
Qed.

(** C6: for A, B, C with true values 1, 3, 5, 7 the solver returns the one
    implicant [--1], and the printed expression has, at each of the eight
    indices, the value of C. *)
Theorem single_literal_example :
  QM.__solve ABC [1; 3; 5; 7] [] = ok [Minterm.mk [1; 3; 5; 7] "--1" false]
  /\ exists q : QM.t,
       QM.__init__ ABC [1; 3; 5; 7] None false = ok q
       /\ Forall
            (fun v => Expr.value_at ABC (fst (QM.get_function q)) v
                      = Some (Expr.assignment ABC v "C"))
            [0; 1; 2; 3; 4; 5; 6; 7].
Proof.
  split; [evaluate|].
  eexists. split; [evaluate|].
  repeat constructor.
Qed.

(** C9: nothing checks the indices.  For the one variable A and the true
    value 3 the bits are [11], longer than the variable list, their count
    of ones is 2, there are only the buckets 0 and 1, and construction ends
    in an [IndexError].  An index out of range whose count of ones has a
    bucket gets past the grouping: over A and B the true values 0 and 4
    are taken as they come and an expression is printed. *)
Theorem out_of_range_value_raises :
  QM.__get_bits ["A"] 3 = "11"
  /\ Py.count "1" (QM.__get_bits ["A"] 3) = 2%nat
  /\ QM.__initial_group ["A"] [] [] = ok [[]; []]
  /\ QM.__initial_group ["A"] [3] [] = raise IndexError
  /\ QM.__init__ ["A"] [3] None false = raise IndexError
  /\ QM.__get_function ["A"; "B"] [0; 4] [] false = ok "(NOT B)".
Proof. repeat split; evaluate. Qed.

(** ** The renderer's constants and the stored expression *)

Section Rendering.

Variable variables : list string.
Variable is_maxterm : bool.

Lemma render_nil : QM.render variables is_maxterm [] = ok "0".
Proof. reflexivity. Qed.

Lemma render_all_dashes (values : list Z) (used : bool) :
  QM.render variables is_maxterm
    [Minterm.mk values (Py.replicate (List.length variables) "-") used]
  = ok "1".
Proof.
  unfold QM.render, Minterm.get_value. simpl.
  rewrite count_replicate, Nat.eqb_refl. reflexivity.
Qed.

End Rendering.

(** C7: over A and B, no true value gives [0] and the true values 0, 1, 2,
    3 give [1]; in general an empty implicant list is printed as [0] and a
    single implicant with a dash for every variable as [1]. *)
Theorem constant_cases :
  (exists q : QM.t,
      QM.__init__ ["A"; "B"] [] None false = ok q
      /\ fst (QM.get_function q) = "0")
  /\ (exists q : QM.t,
         QM.__init__ ["A"; "B"] [0; 1; 2; 3] None false = ok q
         /\ fst (QM.get_function q) = "1")
  /\ (forall variables is_maxterm,
        QM.render variables is_maxterm [] = ok "0")
  /\ (forall variables is_maxterm values used,
        QM.render variables is_maxterm
          [Minterm.mk values (Py.replicate (List.length variables) "-") used]
        = ok "1").
Proof.
  split; [eexists; split; evaluate|].
  split; [eexists; split; evaluate|].
  split.
  - intros. apply render_nil.
  - intros. apply render_all_dashes.
Qed.

(** C8: the expression is computed by the constructor and stored; a call
    of [get_function] returns the stored string and leaves the instance as
    it was, so a second call returns the same string. *)
Theorem get_function_idempotent
        (variables : list string) (values : list Z)
        (dont_cares : option (list Z)) (is_maxterm : bool) (q : QM.t)
        (Hq : QM.__init__ variables values dont_cares is_maxterm = ok q) :
  let '(s1, q1) := QM.get_function q in
  let '(s2, q2) := QM.get_function q1 in
  s1 = s2 /\ q2 = q
  /\ QM.__get_function variables values
       (match dont_cares with None => [] | Some d => d end) is_maxterm
     = ok s1.
Proof.
  unfold QM.__init__ in Hq. bind_inv Hq as f Hf. injection Hq as <-. simpl.
  repeat split. exact Hf.
Qed.

Lemma get_function_idempotent_witness :
  exists q : QM.t,
    QM.__init__ ["A"; "B"] [1; 3] None false = ok q
    /\ (let '(s1, q1) := QM.get_function q in
        let '(s2, q2) := QM.get_function q1 in
        s1 = s2 /\ q2 = q
        /\ QM.__get_function ["A"; "B"] [1; 3] [] false = ok s1).
Proof.
  eexists. split.
  - evaluate.
  - apply (get_function_idempotent ["A"; "B"] [1; 3] None false).
    evaluate.
Defined.

(** ** [Minterm.combine] *)

Section CombineFacts.

Lemma append_empty_r (s : string) : (s ++ EmptyString)%string = s.
Proof.
  induction s as [|c s IH]; simpl; [reflexivity | rewrite IH; reflexivity].
Qed.

Lemma append_snoc (s : string) (c : ascii) (r : string) :
  ((s ++ String c EmptyString) ++ r)%string = (s ++ String c r)%string.
Proof.
  induction s as [|d s IH]; simpl; [reflexivity | rewrite IH; reflexivity].
Qed.

Lemma combine_loop_spec (s o : string) :
  forall (diff : nat) (res : string),
    String.length s = String.length o -> (diff <= 1)%nat ->
    Minterm.combine_loop s o diff res
    = ok (if (diff + differences s o <=? 1)%nat
          then Some (res ++ merge s o)%string else None).
Proof.
  revert o. induction s as [|c s IH]; intros [|d o] diff res L D;
    simpl in L; try discriminate L.
  - simpl. rewrite Nat.add_0_r, append_empty_r.
    destruct (Nat.leb_spec diff 1); [reflexivity | lia].
  - injection L as L. simpl. destruct (Ascii.eqb c d) eqn:E.
    + destruct (Nat.ltb_spec 1 diff) as [F|_]; [lia|].
      rewrite IH by assumption. simpl. rewrite append_snoc. reflexivity.
    + destruct diff as [|[|diff]]; [| |lia].
      * simpl (1 <? 1)%nat. cbv iota. rewrite IH by (assumption || lia).
        change ("-"%string) with (String "-"%char EmptyString).
        rewrite append_snoc. reflexivity.
      * simpl (1 <? 2)%nat. cbv iota.
        destruct (Nat.leb_spec (1 + (1 + differences s o)) 1); [lia|].
        reflexivity.
Qed.

Lemma differences_refl (s : string) : differences s s = 0%nat.
Proof.
  induction s as [|c s IH]; simpl; [reflexivity|].
  rewrite Ascii.eqb_refl. exact IH.
Qed.

Lemma differences_zero (s o : string) :
  String.length s = String.length o -> differences s o = 0%nat -> s = o.
Proof.
  revert o. induction s as [|c s IH]; intros [|d o] L H;
    simpl in L; try discriminate L; [reflexivity|].
  simpl in H. destruct (Ascii.eqb_spec c d) as [->|N]; [|discriminate H].
  f_equal. apply IH; [congruence | exact H].
Qed.

Lemma differ_only_at_differences (s o : string) (i : nat) :
  String.length s = String.length o ->
  differ_only_at i s o -> differences s o = 1%nat.
Proof.
  revert o i. induction s as [|c s IH]; intros [|d o] i L (Hi & Hd & Hj);
    simpl in L; try discriminate L.
  - simpl in Hi. lia.
  - injection L as L. destruct i as [|i]; simpl in Hd |- *.
    + destruct (Ascii.eqb_spec c d) as [->|N]; [congruence|].
      assert (E : s = o).
      { apply String.get_correct. intros n.
        apply (Hj (S n)). discriminate. }
      subst o. rewrite differences_refl. reflexivity.
    + assert (H := Hj 0%nat ltac:(discriminate)). simpl in H.
      injection H as ->. rewrite Ascii.eqb_refl. simpl.
      apply (IH o i L). repeat split.
      * simpl in Hi. lia.
      * exact Hd.
      * intros j Nj. apply (Hj (S j)). congruence.
Qed.

Lemma differences_differ_only_at (s o : string) :
  String.length s = String.length o -> differences s o = 1%nat ->
  exists i, differ_only_at i s o.
Proof.
  revert o. induction s as [|c s IH]; intros [|d o] L H;
    simpl in L; try discriminate L; [discriminate H|].
  injection L as L. simpl in H.
  destruct (Ascii.eqb_spec c d) as [->|N].
  - destruct (IH o L H) as [i (Hi & Hd & Hj)].
    exists (S i). repeat split.
    + simpl. lia.
    + exact Hd.
    + intros [|j] Nj; simpl; [reflexivity | apply Hj; congruence].
  - assert (E : s = o) by (apply differences_zero; [exact L | lia]).
    subst o. exists 0%nat. repeat split.
    + simpl. lia.
    + simpl. congruence.
    + intros [|j] Nj; simpl; [congruence | reflexivity].
Qed.

Lemma merge_length (s o : string) :
  String.length s = String.length o ->
  String.length (merge s o) = String.length s.
Proof.
  revert o. induction s as [|c s IH]; intros [|d o] L;
    simpl in L; try discriminate L; simpl; [reflexivity|].
  f_equal. apply IH. congruence.
Qed.

Lemma merge_get_same (s o : string) (j : nat) :
  String.length s = String.length o ->
  String.get j s = String.get j o ->
  String.get j (merge s o) = String.get j s.
Proof.
  revert o j. induction s as [|c s IH]; intros [|d o] j L H;
    simpl in L; try discriminate L; [reflexivity|].
  destruct j as [|j]; simpl in H |- *.
  - injection H as ->. rewrite Ascii.eqb_refl. reflexivity.
  - apply IH; [congruence | exact H].
Qed.

Lemma merge_get_differ (s o : string) (i : nat) :
  String.length s = String.length o -> (i < String.length s)%nat ->
  String.get i s <> String.get i o ->
  String.get i (merge s o) = Some "-"%char.
Proof.
  revert o i. induction s as [|c s IH]; intros [|d o] i L Hi H;
    simpl in L; try discriminate L; [simpl in Hi; lia|].
  destruct i as [|i]; simpl in H, Hi |- *.
  - destruct (Ascii.eqb_spec c d) as [->|N]; [congruence | reflexivity].
  - apply IH; [congruence | lia | exact H].
Qed.

(** What [combine] returns on patterns of one length, in one equation. *)
Lemma combine_eq (self minterm : Minterm.t) :
  String.length (Minterm._value self) = String.length (Minterm._value minterm) ->
  Minterm.combine self minterm
  = ok (if negb (Py.list_eqb (Minterm._values self) (Minterm._values minterm))
           && (differences (Minterm._value self) (Minterm._value minterm) =? 1)%nat
        then Some (Minterm.__init__
                     (Minterm._values self ++ Minterm._values minterm)%list
                     (merge (Minterm._value self) (Minterm._value minterm)))
        else None).
Proof.
  intros L. unfold Minterm.combine.
  destruct (String.eqb_spec (Minterm._value self) (Minterm._value minterm))
    as [E|N].
  - rewrite E, differences_refl, andb_false_r. reflexivity.
  - simpl. destruct (Py.list_eqb _ _); [reflexivity|].
    rewrite combine_loop_spec by (exact L || lia). simpl.
    destruct (differences (Minterm._value self) (Minterm._value minterm))
      as [|[|n]] eqn:D.
    + exfalso. apply N. apply differences_zero; assumption.
    + reflexivity.
    + reflexivity.
Qed.

End CombineFacts.

(** The guard as the code has it: on patterns of one length [combine]
    returns a term exactly when the covered lists differ and the patterns
    differ at one position only.  The term covers what either parent covers, and
    its pattern is the parents' pattern with a dash at that position.  In
    every other case [combine] returns [None]; it never raises. *)
Theorem combine_exactly_one_difference
        (self minterm : Minterm.t)
        (Hlen : String.length (Minterm._value self)
                = String.length (Minterm._value minterm)) :
  (forall i : nat,
      Minterm._values self <> Minterm._values minterm ->
      differ_only_at i (Minterm._value self) (Minterm._value minterm) ->
      exists term3 : Minterm.t,
        Minterm.combine self minterm = ok (Some term3)
        /\ Minterm._values term3
           = Py.sort (Minterm._values self ++ Minterm._values minterm)%list
        /\ (forall x : Z,
               In x (Minterm._values term3)
               <-> In x (Minterm._values self) \/ In x (Minterm._values minterm))
        /\ String.length (Minterm._value term3)
           = String.length (Minterm._value self)
        /\ String.get i (Minterm._value term3) = Some "-"%char
        /\ (forall j : nat, j <> i ->
               String.get j (Minterm._value term3)
               = String.get j (Minterm._value self)
               /\ String.get j (Minterm._value term3)
                  = String.get j (Minterm._value minterm)))
  /\ (Minterm._values self = Minterm._values minterm
      \/ ~ (exists i : nat,
               differ_only_at i (Minterm._value self) (Minterm._value minterm)) ->
      Minterm.combine self minterm = ok None).
Proof.
  split.
  - intros i Nv Hd.
    rewrite (combine_eq _ _ Hlen).
    rewrite (differ_only_at_differences _ _ _ Hlen Hd).
    destruct (Py.list_eqb _ _) eqn:E; [apply list_eqb_eq in E; contradiction|].
    simpl. eexists. split; [reflexivity|]. simpl.
    destruct Hd as (Hi & Hne & Hj).
    split; [reflexivity|].
    split; [intros x; rewrite sort_In; apply in_app_iff|].
    split; [apply merge_length; exact Hlen|].
    split; [apply merge_get_differ; assumption|].
    intros j Nj. specialize (Hj j Nj).
    rewrite (merge_get_same _ _ _ Hlen Hj). split; [reflexivity | exact Hj].
  - intros H. rewrite (combine_eq _ _ Hlen).
    destruct H as [E|H].
    + rewrite E, list_eqb_refl. reflexivity.
    + destruct (Nat.eqb_spec
                  (differences (Minterm._value self) (Minterm._value minterm)) 1)
        as [D|D].
      * exfalso. apply H. apply differences_differ_only_at; assumption.
      * rewrite andb_false_r. reflexivity.
Qed.

Lemma combine_exactly_one_difference_witness :
  exists term3 : Minterm.t,
    Minterm.combine (Minterm.__init__ [0; 1] "00-") (Minterm.__init__ [2; 3] "01-")
    = ok (Some term3)
    /\ Minterm._values term3 = [0; 1; 2; 3]
    /\ String.get 1 (Minterm._value term3) = Some "-"%char.
Proof.
  destruct (combine_exactly_one_difference
              (Minterm.__init__ [0; 1] "00-") (Minterm.__init__ [2; 3] "01-")
              eq_refl) as [H _].
  destruct (H 1%nat) as (term3 & E & V & _ & _ & G & _).
  - discriminate.
  - repeat split.
    + simpl. lia.
    + discriminate.
    + intros [|[|[|j]]] Nj; try reflexivity. congruence.
  - exists term3. repeat split; assumption.
Defined.

(** Two terms made by hand, [m(0) = 0] and [m(0) = 1], have equal covered
    lists and patterns that differ at one position only; [combine] returns
    [None] for them.  No run compares such a pair: terms with equal covered
    lists are in the same group, and only neighbouring groups are
    compared. *)
Lemma spec_combine_condition_fails :
  ~ spec_combine_condition (Minterm.mk [0] "0" false) (Minterm.mk [0] "1" false).
Proof.
  intros [_ H].
  destruct H as [term3 H].
  - split.
    + left. discriminate.
    + exists 0%nat. repeat split.
      * simpl. lia.
      * discriminate.
      * intros [|j] Nj; [congruence | reflexivity].
  - discriminate H.
Qed.

(** ** The covered list of a term *)

Section CoveredList.

Lemma combine_some_init (self minterm term3 : Minterm.t) :
  Minterm.combine self minterm = ok (Some term3) ->
  exists value : string,
    term3 = Minterm.__init__
              (Minterm._values self ++ Minterm._values minterm)%list value.
Proof.
  unfold Minterm.combine. destruct (_ || _); [discriminate|].
  destruct (Minterm.combine_loop _ _ _ _) as [e|[r|]]; simpl; try discriminate.
  intros H. injection H as <-. exists r. reflexivity.
Qed.

Lemma built_sorted (m : Minterm.t) :
  built m -> Sorted Z.le (Minterm.get_values m).
Proof.
  induction 1 as [values value | m _ IH | self minterm term3 _ _ _ _ H].
  - apply sort_sorted.
  - exact IH.
  - apply combine_some_init in H. destruct H as [value ->]. apply sort_sorted.
Qed.

Lemma eq_spec (self minterm : Minterm.t) :
  Minterm.__eq__ self minterm = true
  <-> Minterm.get_value self = Minterm.get_value minterm
      /\ Minterm.get_values self = Minterm.get_values minterm.
Proof.
  unfold Minterm.__eq__, Minterm.get_value, Minterm.get_values.
  rewrite andb_true_iff, String.eqb_eq, list_eqb_eq. reflexivity.
Qed.

End CoveredList.

(** C10: the covered list of a term is ascending from construction on:
    the constructor sorts it, [use] leaves it alone, and what [combine]
    returns comes from the constructor.  Hence, for covered lists without
    repetition, [__eq__] holds exactly when the patterns are equal and the
    covered lists hold the same elements. *)
Theorem covered_sorted_eq_is_set_eq
        (self minterm : Minterm.t)
        (Hself : built self) (Hminterm : built minterm) :
  Sorted Z.le (Minterm.get_values self)
  /\ Minterm.get_values (Minterm.use self) = Minterm.get_values self
  /\ (NoDup (Minterm.get_values self) -> NoDup (Minterm.get_values minterm) ->
      (Minterm.__eq__ self minterm = true
       <-> Minterm.get_value self = Minterm.get_value minterm
           /\ forall x : Z, In x (Minterm.get_values self)
                            <-> In x (Minterm.get_values minterm))).
Proof.
  split; [apply built_sorted; exact Hself|].
  split; [reflexivity|].
  intros N1 N2. rewrite eq_spec. split.
  - intros [Ev Es]. split; [exact Ev|]. rewrite Es. reflexivity.
  - intros [Ev Es]. split; [exact Ev|].
    apply sorted_nodup_ext; try assumption; apply built_sorted; assumption.
Qed.

Lemma covered_sorted_eq_is_set_eq_witness :
  Sorted Z.le (Minterm.get_values (Minterm.__init__ [3; 1] "0-1"))
  /\ (Minterm.__eq__ (Minterm.__init__ [3; 1] "0-1")
                     (Minterm.use (Minterm.__init__ [1; 3] "0-1")) = true
      <-> Minterm.get_value (Minterm.__init__ [3; 1] "0-1")
          = Minterm.get_value (Minterm.use (Minterm.__init__ [1; 3] "0-1"))
          /\ forall x : Z,
               In x (Minterm.get_values (Minterm.__init__ [3; 1] "0-1"))
               <-> In x (Minterm.get_values
                           (Minterm.use (Minterm.__init__ [1; 3] "0-1")))).
Proof.
  destruct (covered_sorted_eq_is_set_eq
              (Minterm.__init__ [3; 1] "0-1")
              (Minterm.use (Minterm.__init__ [1; 3] "0-1"))
              (built_init [3; 1] "0-1")
              (built_use _ (built_init [1; 3] "0-1"))) as (S & _ & E).
  split; [exact S|].
  apply E; simpl; repeat constructor; simpl; intuition lia.
Defined.

(** ** What every term of a run satisfies

    A property of terms that [use] keeps and that [combine] hands on to
    its result holds for every prime implicant as soon as it holds for the
    terms of the initial groups. *)

Section TermInvariant.

Variable P : Minterm.t -> Prop.
Hypothesis P_use : forall m, P m -> P (Minterm.use m).
Hypothesis P_combine :
  forall self minterm term3,
    P self -> P minterm ->
    Minterm.combine self minterm = ok (Some term3) -> P term3.

Lemma compare_term_inv (group2 : list Minterm.t) :
  forall term1 new_group t1 g2 ng,
    P term1 -> Forall P group2 -> Forall P new_group ->
    QM.compare_term term1 group2 new_group = ok (t1, g2, ng) ->
    P t1 /\ Forall P g2 /\ Forall P ng.
Proof.
  induction group2 as [|term2 rest IH]; intros term1 new_group t1 g2 ng H1 H2 Hn E.
  - simpl in E. injection E as <- <- <-. auto.
  - simpl in E. inversion H2 as [|? ? Ht2 Hrest]; subst.
    bind_inv E as term3 Ec.
    destruct term3 as [t3|].
    + bind_inv E as [[t1' g2'] ng'] Er.
      injection E as <- <- <-.
      apply IH in Er.
      * destruct Er as (A & B & C). repeat split; auto.
      * apply P_use. exact H1.
      * exact Hrest.
      * destruct (QM.contains new_group t3); [exact Hn|].
        apply Forall_app. split; [exact Hn|]. constructor; [|constructor].
        apply (P_combine term1 term2); assumption.
    + bind_inv E as [[t1' g2'] ng'] Er.
      injection E as <- <- <-.
      apply IH in Er; try assumption.
      destruct Er as (A & B & C). repeat split; auto.
Qed.

Lemma compare_group_inv (group1 : list Minterm.t) :
  forall group2 new_group g1 g2 ng,
    Forall P group1 -> Forall P group2 -> Forall P new_group ->
    QM.compare_group group1 group2 new_group = ok (g1, g2, ng) ->
    Forall P g1 /\ Forall P g2 /\ Forall P ng.
Proof.
  induction group1 as [|term1 rest IH]; intros group2 new_group g1 g2 ng H1 H2 Hn E.
  - simpl in E. injection E as <- <- <-. auto.
  - simpl in E. inversion H1 as [|? ? Ht1 Hrest]; subst.
    bind_inv E as [[t1 g2a] nga] Et.
    bind_inv E as [[g1b g2b] ngb] Eg.
    injection E as <- <- <-.
    apply compare_term_inv in Et; try assumption.
    destruct Et as (A & B & C).
    apply IH in Eg; try assumption.
    destruct Eg as (A' & B' & C'). repeat split; auto.
Qed.

Lemma compare_all_inv (rest : list (list Minterm.t)) :
  forall group1 gs ngs,
    Forall P group1 -> Forall (Forall P) rest ->
    QM.compare_all group1 rest = ok (gs, ngs) ->
    Forall (Forall P) gs /\ Forall (Forall P) ngs.
Proof.
  induction rest as [|group2 rest IH]; intros group1 gs ngs H1 H2 E.
  - simpl in E. injection E as <- <-. auto.
  - simpl in E. inversion H2 as [|? ? Hg2 Hrest]; subst.
    bind_inv E as [[g1 g2] ng] Eg.
    bind_inv E as [gs' ngs'] Ea.
    injection E as <- <-.
    apply compare_group_inv in Eg; auto.
    destruct Eg as (A & B & C).
    apply IH in Ea; auto.
    destruct Ea as (A' & B'). auto.
Qed.

Lemma add_unused_inv (terms : list Minterm.t) :
  forall unused, Forall P unused -> Forall P terms ->
                 Forall P (fold_left QM.add_unused terms unused).
Proof.
  induction terms as [|term terms IH]; intros unused Hu Ht; simpl.
  - exact Hu.
  - inversion Ht; subst. apply IH; [|assumption].
    unfold QM.add_unused. destruct (_ && _); [|exact Hu].
    apply Forall_app. auto.
Qed.

Lemma get_prime_implicants_rec_inv (depth : nat) :
  forall groups prime_implicants,
    Forall (Forall P) groups ->
    QM.get_prime_implicants_rec depth groups = ok prime_implicants ->
    Forall P prime_implicants.
Proof.
  induction depth as [|depth IH]; intros groups pis Hg E.
  - destruct groups as [|g [|g' gs]]; simpl in E; try discriminate E.
    injection E as <-. inversion Hg; assumption.
  - assert (Step :
      ('(groups', new_groups) <-
          match groups with
          | [] => ok ([], [])
          | group1 :: rest => QM.compare_all group1 rest
          end ;;
        deeper <- QM.get_prime_implicants_rec depth new_groups ;;
        ok (fold_left QM.add_unused deeper
                      (fold_left QM.add_unused (List.concat groups') [])))
      = ok pis ->
      Forall P pis).
    { clear E. intros E.
      bind_inv E as [groups' new_groups] Ec.
      bind_inv E as deeper Ed.
      injection E as <-.
      assert (Forall (Forall P) groups' /\ Forall (Forall P) new_groups)
        as [A B].
      { destruct groups as [|group1 rest].
        - injection Ec as <- <-. auto.
        - inversion Hg; subst. eapply compare_all_inv; eassumption. }
      apply add_unused_inv.
      - apply add_unused_inv; [constructor|].
        apply Forall_concat. exact A.
      - eapply IH; eassumption. }
    destruct groups as [|g [|g' gs]].
    + apply Step. exact E.
    + simpl in E. injection E as <-. inversion Hg; assumption.
    + apply Step. exact E.
Qed.

End TermInvariant.

(** The rule for a [for] loop: what holds before the loop and is kept by
    every round that returns, holds when the loop returns. *)
Lemma for_each_inv {A S : Type} (body : S -> A -> result S)
      (I : S -> Prop) (R : A -> Prop) :
  (forall s x s', I s -> R x -> body s x = ok s' -> I s') ->
  forall l s s', Forall R l -> I s -> for_each body l s = ok s' -> I s'.
Proof.
  intros Hbody. induction l as [|x l IH]; intros s s' Hl Hs E; simpl in E.
  - injection E as <-. exact Hs.
  - inversion Hl; subst.
    bind_inv E as s1 E1.
    apply (IH s1 s'); [assumption | | exact E].
    apply (Hbody s x); assumption.
Qed.

Section InitialGroup.

Variable P : Minterm.t -> Prop.
Hypothesis P_use : forall m, P m -> P (Minterm.use m).
Hypothesis P_combine :
  forall self minterm term3,
    P self -> P minterm ->
    Minterm.combine self minterm = ok (Some term3) -> P term3.

Variable variables : list string.
Variables values dont_cares : list Z.

Hypothesis P_init :
  forall v, In v (values ++ dont_cares)%list ->
            P (Minterm.__init__ [v] (QM.__get_bits variables v)).

Lemma append_at_inv (groups : list (list Minterm.t)) :
  forall i x groups',
    Forall (Forall P) groups -> P x ->
    QM.append_at groups i x = ok groups' -> Forall (Forall P) groups'.
Proof.
  induction groups as [|g gs IH]; intros i x groups' Hg Hx E.
  - destruct i; discriminate E.
  - inversion Hg; subst. destruct i as [|i]; simpl in E.
    + injection E as <-. constructor; [|assumption].
      apply Forall_app. auto.
    + bind_inv E as gs' E1. injection E as <-.
      constructor; [assumption|]. eapply IH; eassumption.
Qed.

Lemma initial_group_inv (groups : list (list Minterm.t)) :
  QM.__initial_group variables values dont_cares = ok groups ->
  Forall (Forall P) groups.
Proof.
  unfold QM.__initial_group.
  apply (for_each_inv _ (Forall (Forall P))
                      (fun v => In v (values ++ dont_cares)%list)).
  - intros s x s' Hs Hx E. eapply append_at_inv; [exact Hs | | exact E].
    apply P_init. exact Hx.
  - apply Forall_forall. auto.
  - apply Forall_forall. intros g Hg. apply in_map_iff in Hg.
    destruct Hg as [_ [<- _]]. constructor.
Qed.

Lemma prime_implicants_inv (groups : list (list Minterm.t))
      (prime_implicants : list Minterm.t) :
  QM.__initial_group variables values dont_cares = ok groups ->
  QM.__get_prime_implicants groups = ok prime_implicants ->
  Forall P prime_implicants.
Proof.
  intros Hg Hp. apply initial_group_inv in Hg.
  unfold QM.__get_prime_implicants in Hp.
  eapply get_prime_implicants_rec_inv; eassumption.
Qed.

End InitialGroup.

(** Every prime implicant is a term in the sense of [built]. *)
Lemma prime_implicants_built
      (variables : list string) (values dont_cares : list Z)
      (groups : list (list Minterm.t)) (prime_implicants : list Minterm.t) :
  QM.__initial_group variables values dont_cares = ok groups ->
  QM.__get_prime_implicants groups = ok prime_implicants ->
  Forall built prime_implicants.
Proof.
  apply prime_implicants_inv.
  - apply built_use.
  - apply built_combine.
  - intros v _. apply built_init.
Qed.

(** Every prime implicant covers given indices only. *)
Lemma prime_implicants_cover_given
      (variables : list string) (values dont_cares : list Z)
      (groups : list (list Minterm.t)) (prime_implicants : list Minterm.t) :
  QM.__initial_group variables values dont_cares = ok groups ->
  QM.__get_prime_implicants groups = ok prime_implicants ->
  Forall (fun m => forall x, In x (Minterm.get_values m) ->
                             In x (values ++ dont_cares)%list)
         prime_implicants.
Proof.
  apply prime_implicants_inv.
  - intros m H. exact H.
  - intros self minterm term3 Hs Hm E x Hx.
    apply combine_some_init in E. destruct E as [value ->].
    unfold Minterm.get_values in Hx. simpl in Hx.
    apply sort_In, in_app_iff in Hx. destruct Hx; auto.
  - intros v Hv x Hx. simpl in Hx. destruct Hx as [<-|[]]. exact Hv.
Qed.

(** ** Essential selection *)

Section ListFacts.

Lemma index_In (v : Z) (l : list Z) :
  In v l -> exists i : nat, Py.index v l = ok i /\ (i < List.length l)%nat.
Proof.
  induction l as [|x l IH]; intros H; [contradiction|].
  simpl. destruct (Z.eqb_spec x v) as [E|N].
  - exists 0%nat. split; [reflexivity | simpl; lia].
  - destruct H as [H|H]; [contradiction|].
    destruct (IH H) as [i [Ei Li]]. rewrite Ei. simpl.
    exists (S i). split; [reflexivity | simpl; lia].
Qed.

Lemma set_item_ok {A : Type} (l : list A) :
  forall (i : nat) (x : A),
    (i < List.length l)%nat ->
    exists l' : list A,
      Py.set_item l i x = ok l'
      /\ List.length l' = List.length l
      /\ nth_error l' i = Some x
      /\ forall j : nat, j <> i -> nth_error l' j = nth_error l j.
Proof.
  induction l as [|y l IH]; intros i x Hi; simpl in Hi; [lia|].
  destruct i as [|i]; simpl.
  - exists (x :: l). repeat split.
    intros [|j] Nj; [congruence | reflexivity].
  - destruct (IH i x ltac:(lia)) as (l' & E & L & G & O).
    rewrite E. simpl. exists (y :: l'). repeat split.
    + simpl. congruence.
    + exact G.
    + intros [|j] Nj; simpl; [reflexivity | apply O; congruence].
Qed.

Lemma contains_app (l1 l2 : list Minterm.t) (m : Minterm.t) :
  QM.contains (l1 ++ l2)%list m = QM.contains l1 m || QM.contains l2 m.
Proof. apply existsb_app. Qed.

Lemma eq_refl_term (m : Minterm.t) : Minterm.__eq__ m m = true.
Proof. apply eq_spec. split; reflexivity. Qed.

Lemma contains_last (l : list Minterm.t) (m : Minterm.t) :
  QM.contains (l ++ [m])%list m = true.
Proof.
  rewrite contains_app. simpl. rewrite eq_refl_term, orb_true_r. reflexivity.
Qed.

End ListFacts.

Section EssentialPass.

Variables values dont_cares : list Z.
Variable prime_implicants : list Minterm.t.

Hypothesis cover_given :
  Forall (fun m => forall x, In x (Minterm.get_values m) ->
                             In x (values ++ dont_cares)%list)
         prime_implicants.

Lemma mark_ok (values_used : list bool) (v : Z) :
  List.length values_used = List.length values ->
  In v (values ++ dont_cares)%list ->
  exists values_used' : list bool,
    QM.mark values dont_cares values_used v = ok values_used'
    /\ List.length values_used' = List.length values
    /\ (forall j, nth_error values_used j = Some true ->
                  nth_error values_used' j = Some true)
    /\ (Py.mem v dont_cares = false -> satisfied values values_used' v).
Proof.
  intros L Hv. unfold QM.mark. destruct (Py.mem v dont_cares) eqn:D.
  - exists values_used. repeat split; auto. discriminate.
  - assert (Hin : In v values).
    { apply in_app_iff in Hv. destruct Hv as [H|H]; [exact H|].
      apply mem_In in H. congruence. }
    destruct (index_In v values Hin) as [i [Ei Li]].
    rewrite Ei. simpl.
    destruct (set_item_ok values_used i true ltac:(lia)) as (l' & E & L' & G & O).
    exists l'. repeat split.
    + exact E.
    + congruence.
    + intros j Hj. destruct (Nat.eq_dec j i) as [->|N];
        [exact G | rewrite (O j N); exact Hj].
    + intros _. exists i. auto.
Qed.

Lemma marks_ok (l : list Z) :
  forall values_used : list bool,
    List.length values_used = List.length values ->
    (forall v, In v l -> In v (values ++ dont_cares)%list) ->
    exists values_used' : list bool,
      for_each (QM.mark values dont_cares) l values_used = ok values_used'
      /\ List.length values_used' = List.length values
      /\ (forall j, nth_error values_used j = Some true ->
                    nth_error values_used' j = Some true)
      /\ (forall v, In v l -> Py.mem v dont_cares = false ->
                    satisfied values values_used' v).
Proof.
  induction l as [|x l IH]; intros values_used L Hl; simpl.
  - exists values_used. repeat split; auto. intros v [].
  - destruct (mark_ok values_used x L (Hl x (or_introl eq_refl)))
      as (u1 & E1 & L1 & M1 & S1).
    rewrite E1. simpl.
    destruct (IH u1 L1 (fun v Hv => Hl v (or_intror Hv)))
      as (u2 & E2 & L2 & M2 & S2).
    exists u2. repeat split; auto.
    intros v [<-|Hv] D; [|apply S2; assumption].
    destruct (S1 D) as [i [Ei Gi]]. exists i. auto.
Qed.

Lemma count_uses_none (v : Z) (pis : list Minterm.t) :
  forall st, filter (covers v) pis = [] ->
             fold_left
               (fun st minterm =>
                  if Py.mem v (Minterm.get_values minterm)
                  then (S (fst st), Some minterm) else st) pis st = st.
Proof.
  induction pis as [|p pis IH]; intros st H; simpl in *; [reflexivity|].
  unfold covers in H at 1. destruct (Py.mem v (Minterm.get_values p)).
  - discriminate H.
  - apply IH. exact H.
Qed.

Lemma count_uses_sole (v : Z) (pis : list Minterm.t) (m : Minterm.t) :
  forall st, filter (covers v) pis = [m] ->
             fold_left
               (fun st minterm =>
                  if Py.mem v (Minterm.get_values minterm)
                  then (S (fst st), Some minterm) else st) pis st
             = (S (fst st), Some m).
Proof.
  induction pis as [|p pis IH]; intros st H; simpl in *; [discriminate H|].
  unfold covers in H at 1. destruct (Py.mem v (Minterm.get_values p)).
  - injection H as -> H. apply count_uses_none. exact H.
  - apply IH. exact H.
Qed.

Lemma count_uses_last (v : Z) (pis : list Minterm.t) :
  forall st,
    (fst st = 0%nat \/ exists m, snd st = Some m /\ In m prime_implicants) ->
    (forall m, In m pis -> In m prime_implicants) ->
    let st' :=
      fold_left
        (fun st minterm =>
           if Py.mem v (Minterm.get_values minterm)
           then (S (fst st), Some minterm) else st) pis st in
    fst st' = 0%nat \/ exists m, snd st' = Some m /\ In m prime_implicants.
Proof.
  induction pis as [|p pis IH]; intros st Hst Hsub; simpl; [exact Hst|].
  apply IH; [|intros m Hm; apply Hsub; right; exact Hm].
  destruct (Py.mem v (Minterm.get_values p)); [|exact Hst].
  right. exists p. split; [reflexivity | apply Hsub; left; reflexivity].
Qed.

Lemma essential_step_ok (st : list Minterm.t * list bool) (v : Z) :
  essential_inv values dont_cares st ->
  exists st',
    QM.essential_step values dont_cares prime_implicants st v = ok st'
    /\ essential_inv values dont_cares st'
    /\ (forall m, QM.contains (fst st) m = true ->
                  QM.contains (fst st') m = true)
    /\ (forall m, filter (covers v) prime_implicants = [m] ->
                  QM.contains (fst st') m = true).
Proof.
  intros [L M]. unfold QM.essential_step.
  assert (Sole : forall m, filter (covers v) prime_implicants = [m] ->
                           QM.count_uses prime_implicants v = (1%nat, Some m)).
  { intros m H. unfold QM.count_uses.
    rewrite (count_uses_sole v prime_implicants m (0%nat, None) H).
    reflexivity. }
  assert (Last := count_uses_last v prime_implicants (0%nat, None)
                    (or_introl eq_refl) (fun m H => H)).
  fold (QM.count_uses prime_implicants v) in Last. simpl in Last.
  destruct (QM.count_uses prime_implicants v) as [uses last] eqn:C.
  simpl in Last.
  destruct (Nat.eqb_spec uses 1) as [->|N].
  - destruct Last as [Z|[m [-> Hm]]]; [discriminate Z|].
    destruct (QM.contains (fst st) m) eqn:In_ess.
    + exists st. repeat split; auto.
      intros m' H. apply Sole in H. injection H as <-. exact In_ess.
    + rewrite Forall_forall in cover_given.
      destruct (marks_ok (Minterm.get_values m) (snd st) L (cover_given m Hm))
        as (u & E & Lu & Mu & Su).
      rewrite E. simpl. eexists. split; [reflexivity|]. simpl.
      split; [|split].
      * split; [exact Lu|]. simpl. intros m' Hm' x Hx D.
        apply in_app_iff in Hm'. destruct Hm' as [Hm'|[<-|[]]].
        -- destruct (M m' Hm' x Hx D) as [i [Ei Gi]]. exists i. auto.
        -- apply Su; assumption.
      * intros m' H. rewrite contains_app, H. reflexivity.
      * intros m' H. apply Sole in H. injection H as <-. apply contains_last.
  - exists st. repeat split; auto.
    intros m H. apply Sole in H. congruence.
Qed.

Lemma essential_loop_ok (l : list Z) :
  forall st,
    essential_inv values dont_cares st ->
    exists st',
      for_each (QM.essential_step values dont_cares prime_implicants) l st
      = ok st'
      /\ essential_inv values dont_cares st'
      /\ (forall m, QM.contains (fst st) m = true ->
                    QM.contains (fst st') m = true)
      /\ (forall v m, In v l -> filter (covers v) prime_implicants = [m] ->
                      QM.contains (fst st') m = true).
Proof.
  induction l as [|x l IH]; intros st Hst; simpl.
  - exists st. split; [reflexivity|]. split; [exact Hst|].
    split; [auto|]. intros v m [].
  - destruct (essential_step_ok st x Hst) as (st1 & E1 & I1 & M1 & S1).
    rewrite E1. simpl.
    destruct (IH st1 I1) as (st2 & E2 & I2 & M2 & S2).
    exists st2. split; [exact E2|]. split; [exact I2|].
    split; [auto|].
    intros v m [<-|Hv] H; [apply M2, S1; exact H | eapply S2; eassumption].
Qed.

(** The pass returns, and it has selected and marked what it should. *)
Lemma essential_pass_ok :
  exists essential values_used,
    QM.essential_pass values dont_cares prime_implicants
    = ok (essential, values_used)
    /\ forall v m,
         In v values -> filter (covers v) prime_implicants = [m] ->
         QM.contains essential m = true
         /\ forall v', In v' (Minterm.get_values m) -> ~ In v' dont_cares ->
                       satisfied values values_used v'.
Proof.
  unfold QM.essential_pass.
  destruct (essential_loop_ok values ([], repeat false (List.length values)))
    as ([essential values_used] & E & [L M] & _ & S).
  - split; simpl; [apply repeat_length | intros m []].
  - exists essential, values_used. split; [exact E|].
    intros v m Hv Hm. specialize (S v m Hv Hm). simpl in S, M.
    split; [exact S|].
    intros v' Hv' D. unfold QM.contains in S. apply existsb_exists in S.
    destruct S as [m' [Hm' Eq]]. apply eq_spec in Eq. destruct Eq as [_ Eq].
    apply (M m' Hm' v'); [rewrite Eq; exact Hv' | apply mem_false; exact D].
Qed.

End EssentialPass.

(** C5: the essential pass returns.  For every true value [v] that exactly
    one prime implicant [m] covers, [m] is in the essential list when the
    pass ends, and every index [m] covers that is not a don't-care is
    marked.  If no flag is left unmarked, [__solve] returns the essential
    list as it is. *)
Theorem essential_selection
        (variables : list string) (values dont_cares : list Z)
        (groups : list (list Minterm.t)) (prime_implicants : list Minterm.t)
        (Hgroups : QM.__initial_group variables values dont_cares = ok groups)
        (Hprime : QM.__get_prime_implicants groups = ok prime_implicants) :
  exists (essential : list Minterm.t) (values_used : list bool),
    QM.essential_pass values dont_cares prime_implicants
    = ok (essential, values_used)
    /\ (forall (v : Z) (m : Minterm.t),
           In v values -> filter (covers v) prime_implicants = [m] ->
           QM.contains essential m = true
           /\ forall v' : Z,
                In v' (Minterm.get_values m) -> ~ In v' dont_cares ->
                satisfied values values_used v')
    /\ (count_occ bool_dec values_used false = 0%nat ->
        QM.__solve variables values dont_cares = ok essential).
Proof.
  destruct (essential_pass_ok values dont_cares prime_implicants
              (prime_implicants_cover_given _ _ _ _ _ Hgroups Hprime))
    as (essential & values_used & E & H).
  exists essential, values_used. split; [exact E|]. split; [exact H|].
  intros C. unfold QM.__solve. rewrite Hgroups. simpl. rewrite Hprime. simpl.
  unfold QM.solve_from. rewrite E. simpl. rewrite C. reflexivity.
Qed.

Lemma essential_selection_witness :
  exists (essential : list Minterm.t) (values_used : list bool),
    QM.essential_pass [4; 5; 7] [6] 
      [Minterm.mk [4; 5; 6; 7] "1--" false]
    = ok (essential, values_used)
    /\ (forall (v : Z) (m : Minterm.t),
           In v [4; 5; 7] ->
           filter (covers v) [Minterm.mk [4; 5; 6; 7] "1--" false] = [m] ->
           QM.contains essential m = true
           /\ forall v' : Z,
                In v' (Minterm.get_values m) -> ~ In v' [6] ->
                satisfied [4; 5; 7] values_used v')
    /\ (count_occ bool_dec values_used false = 0%nat ->
        QM.__solve ABC [4; 5; 7] [6] = ok essential).
Proof.
  apply (essential_selection ABC [4; 5; 7] [6]
           [[]; [Minterm.mk [4] "100" false];
            [Minterm.mk [5] "101" false; Minterm.mk [6] "110" false];
            [Minterm.mk [7] "111" false]]).
  - evaluate.
  - evaluate.
Defined.

(** ** The cover search

    Whatever the residual values are, the search over a non-empty list of
    candidates returns its last candidate and nothing else: [min_set]
    starts as the first subset, which has one member, and is replaced only
    by a shorter subset, while every subset is non-empty. *)

Section CoverSearch.

Lemma for_each_map {A B S : Type} (f : S -> B -> result S) (h : A -> B)
      (l : list A) :
  forall s, for_each f (map h l) s = for_each (fun s x => f s (h x)) l s.
Proof.
  induction l as [|x l IH]; intros s; simpl; [reflexivity|].
  destruct (f s (h x)); simpl; [reflexivity | apply IH].
Qed.

Lemma string_length_append (s1 s2 : string) :
  String.length (s1 ++ s2) = (String.length s1 + String.length s2)%nat.
Proof.
  induction s1 as [|c s1 IH]; simpl; [reflexivity | rewrite IH; reflexivity].
Qed.

Lemma replicate_length (n : nat) (c : ascii) :
  String.length (Py.replicate n c) = n.
Proof.
  induction n as [|n IH]; simpl; [reflexivity | rewrite IH; reflexivity].
Qed.

Lemma subset_loop (bin_value : string) :
  forall (prime_implicants current_set : list Minterm.t),
    String.length bin_value = List.length prime_implicants ->
    for_each
      (fun current_set index =>
         match String.get index bin_value with
         | None => raise IndexError
         | Some c =>
             if Ascii.eqb c "1" then
               match nth_error prime_implicants index with
               | None => raise IndexError
               | Some p => ok (current_set ++ [p])%list
               end
             else ok current_set
         end)
      (seq 0 (String.length bin_value)) current_set
    = ok (current_set ++ picks bin_value prime_implicants)%list.
Proof.
  induction bin_value as [|c rest IH]; intros [|p others] current_set L;
    simpl in L; try discriminate L.
  - simpl. rewrite app_nil_r. reflexivity.
  - injection L as L. cbn [String.length seq for_each String.get nth_error picks].
    destruct (Ascii.eqb c "1"); cbn [bind ok];
      rewrite <- seq_shift, for_each_map.
    + replace (current_set ++ p :: picks rest others)%list
        with ((current_set ++ [p]) ++ picks rest others)%list
        by (rewrite <- app_assoc; reflexivity).
      apply (IH others (current_set ++ [p])%list L).
    + apply (IH others current_set L).
Qed.

Lemma digits_head (p : positive) :
  exists rest : string, Py.digits p = String "1" rest.
Proof.
  induction p as [p [rest IH]|p [rest IH]|]; simpl.
  - rewrite IH. eexists. reflexivity.
  - rewrite IH. eexists. reflexivity.
  - eexists. reflexivity.
Qed.

Lemma digits_length (p : positive) :
  forall k : nat, (Pos.to_nat p < 2 ^ k)%nat ->
                  (String.length (Py.digits p) <= k)%nat.
Proof.
  induction p as [p IH|p IH|]; intros [|k] H; simpl in H;
    try rewrite Pos2Nat.inj_xI in H; try rewrite Pos2Nat.inj_xO in H;
    try (pose proof (Pos2Nat.is_pos p); lia).
  - simpl. rewrite string_length_append. simpl.
    specialize (IH k ltac:(lia)). lia.
  - simpl. rewrite string_length_append. simpl.
    specialize (IH k ltac:(lia)). lia.
  - rewrite Pos2Nat.inj_1 in H. lia.
  - simpl. lia.
Qed.

Lemma picks_nil (bin_value : string) : picks bin_value [] = [].
Proof. destruct bin_value; reflexivity. Qed.

Lemma picks_pad (n : nat) (s : string) :
  forall prime_implicants,
    picks (Py.replicate n "0" ++ s) prime_implicants
    = picks s (skipn n prime_implicants).
Proof.
  induction n as [|n IH]; intros [|p others]; simpl;
    try reflexivity; try (rewrite picks_nil; reflexivity).
  apply IH.
Qed.

(** The padded digits of [i], for [i] from 1 on. *)
Lemma bin_value_eq (k : nat) (p : positive) :
  Py.rjust (Py.slice_from 2 (Py.bin (Zpos p))) k "0"
  = (Py.replicate (k - String.length (Py.digits p)) "0" ++ Py.digits p)%string.
Proof. reflexivity. Qed.

Lemma subset_at_picks (prime_implicants : list Minterm.t) (p : positive) :
  (Pos.to_nat p < 2 ^ List.length prime_implicants)%nat ->
  QM.subset_at prime_implicants (Zpos p)
  = ok (picks (Py.digits p)
              (skipn (List.length prime_implicants
                      - String.length (Py.digits p)) prime_implicants)).
Proof.
  intros H. apply digits_length in H. unfold QM.subset_at.
  rewrite bin_value_eq. rewrite subset_loop.
  - simpl. rewrite picks_pad. reflexivity.
  - rewrite string_length_append, replicate_length. lia.
Qed.

Lemma subset_at_nonempty (prime_implicants : list Minterm.t) (i : nat) :
  (1 <= i < 2 ^ List.length prime_implicants)%nat ->
  exists subset : list Minterm.t,
    QM.subset_at prime_implicants (Z.of_nat i) = ok subset
    /\ (1 <= List.length subset)%nat.
Proof.
  intros [Lo Hi]. destruct i as [|i]; [lia|].
  simpl Z.of_nat. rewrite subset_at_picks
    by (rewrite SuccNat2Pos.id_succ; exact Hi).
  eexists. split; [reflexivity|].
  assert (D := digits_length (Pos.of_succ_nat i) (List.length prime_implicants)).
  rewrite SuccNat2Pos.id_succ in D. specialize (D Hi).
  destruct (digits_head (Pos.of_succ_nat i)) as [rest E].
  rewrite E in D |- *. simpl in D.
  destruct (skipn (List.length prime_implicants - String.length (String "1" rest))
                  prime_implicants) as [|x l] eqn:K.
  - apply (f_equal (@List.length _)) in K. rewrite length_skipn in K.
    simpl in K. lia.
  - simpl. lia.
Qed.

Lemma subset_at_one (others : list Minterm.t) (p : Minterm.t) :
  QM.subset_at (others ++ [p])%list 1 = ok [p].
Proof.
  rewrite subset_at_picks.
  - simpl Py.digits. simpl String.length. rewrite length_app. simpl List.length.
    replace (List.length others + 1 - 1)%nat with (List.length others) by lia.
    rewrite skipn_app, skipn_all, Nat.sub_diag. reflexivity.
  - rewrite length_app. simpl. rewrite Nat.add_1_r. simpl.
    pose proof (Nat.pow_nonzero 2 (List.length others)). lia.
Qed.

Lemma power_set_loop (prime_implicants : list Minterm.t) (l : list nat) :
  forall power_set : list (list Minterm.t),
    Forall (fun i => 1 <= i < 2 ^ List.length prime_implicants)%nat l ->
    exists more : list (list Minterm.t),
      for_each
        (fun power_set i =>
           current_set <- QM.subset_at prime_implicants (Z.of_nat i) ;;
           ok (power_set ++ [current_set])%list)
        l power_set
      = ok (power_set ++ more)%list
      /\ Forall (fun subset => 1 <= List.length subset)%nat more.
Proof.
  induction l as [|i l IH]; intros power_set H; simpl.
  - exists []. rewrite app_nil_r. split; [reflexivity | constructor].
  - inversion H as [|? ? Hi Hl]; subst.
    destruct (subset_at_nonempty prime_implicants i Hi) as [subset [E N]].
    rewrite E. simpl.
    destruct (IH (power_set ++ [subset])%list Hl) as [more [E' N']].
    exists (subset :: more). rewrite E', <- app_assoc.
    split; [reflexivity | constructor; assumption].
Qed.

Lemma min_set_kept (values : list Z) (power_set : list (list Minterm.t)) :
  forall min_set : list Minterm.t,
    List.length min_set = 1%nat ->
    Forall (fun subset => 1 <= List.length subset)%nat power_set ->
    fold_left
      (fun min_set subset =>
         if Py.list_eqb (QM.temp_values values subset) values
         then if (List.length subset <? List.length min_set)%nat
              then subset else min_set
         else min_set)
      power_set min_set
    = min_set.
Proof.
  induction power_set as [|subset power_set IH]; intros min_set L H; simpl.
  - reflexivity.
  - inversion H as [|? ? Hs Hp]; subst.
    destruct (Nat.ltb_spec (List.length subset) (List.length min_set)); [lia|].
    destruct (Py.list_eqb _ _); apply IH; assumption.
Qed.

(** The search returns the last candidate alone. *)
Lemma power_set_last (values : list Z) (others : list Minterm.t)
      (p : Minterm.t) :
  QM.__power_set values (others ++ [p])%list = ok [p].
Proof.
  unfold QM.__power_set.
  set (k := List.length (others ++ [p])%list).
  assert (Hk : (2 ^ k - 1 = S (2 ^ k - 2))%nat).
  { subst k. rewrite length_app. simpl. rewrite Nat.add_1_r. simpl.
    pose proof (Nat.pow_nonzero 2 (List.length others)). lia. }
  rewrite Hk. cbn [seq for_each].
  change (Z.of_nat 1) with 1. rewrite subset_at_one. cbn [bind ok app].
  destruct (power_set_loop (others ++ [p])%list (seq 2 (2 ^ k - 2)) [[p]])
    as [more [E N]].
  - apply Forall_forall. intros i Hi. apply in_seq in Hi. fold k. lia.
  - rewrite E. cbn [bind ok app].
    apply f_equal. apply min_set_kept; [reflexivity|].
    constructor; [simpl; lia | exact N].
Qed.

End CoverSearch.

(** C2, in general and at the truth table 0, 1, 2, 5, 6, 7: the search
    returns the last candidate alone whatever the residual values are.  At
    that table no implicant is essential, so the search runs on all six
    candidates and all six values; the candidate it returns covers only 6
    and 7, although three candidates cover every value. *)
Theorem power_set_returns_non_cover :
  (forall (values : list Z) (others : list Minterm.t) (p : Minterm.t),
      QM.__power_set values (others ++ [p])%list = ok [p])
  /\ QM.essential_pass [0; 1; 2; 5; 6; 7] [] cyclic_pool
     = ok ([], repeat false 6%nat)
  /\ QM.remaining [] cyclic_pool [] = cyclic_pool
  /\ QM.residual [0; 1; 2; 5; 6; 7] (repeat false 6%nat) = [0; 1; 2; 5; 6; 7]
  /\ QM.__power_set [0; 1; 2; 5; 6; 7] cyclic_pool
     = ok [Minterm.mk [6; 7] "11-" false]
  /\ QM.temp_values [0; 1; 2; 5; 6; 7] [Minterm.mk [6; 7] "11-" false]
     = [6; 7]
  /\ QM.temp_values [0; 1; 2; 5; 6; 7]
       [Minterm.mk [0; 1] "00-" false; Minterm.mk [2; 6] "-10" false;
        Minterm.mk [5; 7] "1-1" false]
     = [0; 1; 2; 5; 6; 7].
Proof.
  split; [exact power_set_last|].
  repeat split; evaluate.
Qed.

(** ** Who marks the operands *)

Section StoreFacts.

Lemma set_item_inv {A : Type} (l : list A) :
  forall (i : nat) (x : A) (l' : list A),
    Py.set_item l i x = ok l' ->
    nth_error l' i = Some x
    /\ forall j : nat, j <> i -> nth_error l' j = nth_error l j.
Proof.
  induction l as [|y l IH]; intros i x l' E.
  - destruct i; discriminate E.
  - destruct i as [|i]; simpl in E.
    + injection E as <-. split; [reflexivity|].
      intros [|j] Nj; [congruence | reflexivity].
    + bind_inv E as l1 E1. injection E as <-.
      destruct (IH i x l1 E1) as [G O]. split; [exact G|].
      intros [|j] Nj; simpl; [reflexivity | apply O; congruence].
Qed.

Lemma store_use_marks (h h' : Store.t) (r : Store.ref) :
  Store.use h r = ok h' ->
  Store.used h' r = Some true
  /\ forall r', Store.used h r' = Some true -> Store.used h' r' = Some true.
Proof.
  unfold Store.use, Store.used. intros E.
  bind_inv E as m _.
  apply set_item_inv in E. destruct E as [G O]. split.
  - rewrite G. reflexivity.
  - intros r' H. destruct (Nat.eq_dec r' r) as [->|N].
    + rewrite G. reflexivity.
    + rewrite (O r' N). exact H.
Qed.

(** [combine] leaves every object of the store as it was: the store it
    returns begins with the store it was given. *)
Lemma store_combine_frame (h : Store.t) (self minterm : Store.ref) :
  match Store.combine h self minterm with
  | inr (_, h') => firstn (List.length h) h' = h
  | inl _ => True
  end.
Proof.
  unfold Store.combine.
  destruct (Store.load h self) as [e|a]; simpl; [exact I|].
  destruct (Store.load h minterm) as [e|b]; simpl; [exact I|].
  destruct (Minterm.combine a b) as [e|[c|]]; simpl; [exact I| |].
  - rewrite firstn_app, firstn_all, Nat.sub_diag. apply app_nil_r.
  - apply firstn_all.
Qed.

(** The loop body of [__get_prime_implicants] is where both get marked. *)
Lemma combine_and_use_marks (h : Store.t) (term1 term2 : Store.ref) :
  match Store.combine_and_use h term1 term2 with
  | inr (Some _, h') =>
      Store.used h' term1 = Some true /\ Store.used h' term2 = Some true
  | inr (None, h') => h' = h
  | inl _ => True
  end.
Proof.
  unfold Store.combine_and_use.
  destruct (Store.combine h term1 term2) as [e|[[r|] h1]] eqn:C; simpl;
    [exact I| |].
  - destruct (Store.use h1 term1) as [e|h2] eqn:U1; simpl; [exact I|].
    destruct (Store.use h2 term2) as [e|h3] eqn:U2; simpl; [exact I|].
    apply store_use_marks in U1, U2. destruct U1 as [A _], U2 as [B K].
    split; [apply K; exact A | exact B].
  - unfold Store.combine in C.
    destruct (Store.load h term1) as [e|a]; simpl in C; [discriminate C|].
    destruct (Store.load h term2) as [e|b]; simpl in C; [discriminate C|].
    destruct (Minterm.combine a b) as [e|[c|]]; simpl in C;
      [discriminate C | discriminate C | inversion C; reflexivity].
Qed.

End StoreFacts.

(** C3: a call of [combine] changes no object of the store, whatever it
    returns: the store afterwards begins with the store before.  At the terms 0 and 1 of one variable it returns the new term
    and both operands are still unused; they are marked by the two calls
    of [use] that follow in [__get_prime_implicants]. *)
Theorem combine_leaves_operands_unused :
  (forall (h : Store.t) (self minterm : Store.ref),
      match Store.combine h self minterm with
      | inr (_, h') => firstn (List.length h) h' = h
      | inl _ => True
      end)
  /\ (let h := [Minterm.__init__ [0] "0"; Minterm.__init__ [1] "1"] in
      exists h' h'' : Store.t,
        Store.combine h 0%nat 1%nat = ok (Some 2%nat, h')
        /\ nth_error h' 2%nat = Some (Minterm.mk [0; 1] "-" false)
        /\ Store.used h' 0%nat = Some false
        /\ Store.used h' 1%nat = Some false
        /\ Store.combine_and_use h 0%nat 1%nat = ok (Some 2%nat, h'')
        /\ Store.used h'' 0%nat = Some true
        /\ Store.used h'' 1%nat = Some true).
Proof.
  split; [exact store_combine_frame|].
  do 2 eexists. split; [evaluate|].
  split; [evaluate|].
  split; [evaluate|].
  split; [evaluate|].
  split; [evaluate|].
  split; evaluate.
Qed.

(** * Further properties of the code *)

(** ** [__get_bits] *)

Section Bits.

Lemma decode_from_app (s1 s2 : string) :
  forall acc, decode_from acc (s1 ++ s2) = decode_from (decode_from acc s1) s2.
Proof.
  induction s1 as [|c s1 IH]; intros acc; simpl; [reflexivity | apply IH].
Qed.

Lemma decode_digits (p : positive) : decode_from 0 (Py.digits p) = Zpos p.
Proof.
  induction p as [p IH|p IH|]; simpl; try reflexivity;
    rewrite decode_from_app, IH; simpl; lia.
Qed.

Lemma decode_from_zeros (n : nat) (s : string) :
  decode_from 0 (Py.replicate n "0" ++ s) = decode_from 0 s.
Proof. induction n as [|n IH]; simpl; [reflexivity | exact IH]. Qed.

Lemma binary_app (s1 s2 : string) :
  binary (s1 ++ s2) = binary s1 && binary s2.
Proof.
  induction s1 as [|c s1 IH]; simpl; [reflexivity|].
  rewrite IH, andb_assoc. reflexivity.
Qed.

Lemma binary_digits (p : positive) : binary (Py.digits p) = true.
Proof.
  induction p as [p IH|p IH|]; simpl; try reflexivity;
    rewrite binary_app, IH; reflexivity.
Qed.

Lemma binary_zeros (n : nat) : binary (Py.replicate n "0") = true.
Proof. induction n as [|n IH]; simpl; [reflexivity | exact IH]. Qed.

Lemma digits_length_Z (p : positive) (k : nat) :
  Zpos p < 2 ^ Z.of_nat k -> (String.length (Py.digits p) <= k)%nat.
Proof.
  intros H. apply digits_length. apply Nat2Z.inj_lt.
  rewrite positive_nat_Z, Nat2Z.inj_pow. exact H.
Qed.

Lemma get_bits_pos (variables : list string) (p : positive) :
  QM.__get_bits variables (Zpos p)
  = (Py.replicate (List.length variables - String.length (Py.digits p)) "0"
     ++ Py.digits p)%string.
Proof. reflexivity. Qed.

Lemma get_bits_zero (variables : list string) :
  QM.__get_bits variables 0
  = (Py.replicate (List.length variables - 1) "0" ++ "0")%string.
Proof. reflexivity. Qed.

Lemma get_bits_length_ge (variables : list string) (v : Z) :
  (List.length variables <= String.length (QM.__get_bits variables v))%nat.
Proof.
  unfold QM.__get_bits, Py.rjust.
  rewrite string_length_append, replicate_length. lia.
Qed.

Lemma get_bits_length (variables : list string) (v : Z) :
  variables <> [] -> in_range variables v ->
  String.length (QM.__get_bits variables v) = List.length variables.
Proof.
  intros Hn [Lo Hi].
  assert (1 <= List.length variables)%nat
    by (destruct variables; [congruence | simpl; lia]).
  destruct v as [|p|p]; [| |lia].
  - rewrite get_bits_zero, string_length_append, replicate_length. simpl. lia.
  - rewrite get_bits_pos, string_length_append, replicate_length.
    apply digits_length_Z in Hi. lia.
Qed.

Lemma get_bits_decode (variables : list string) (v : Z) :
  0 <= v -> decode (QM.__get_bits variables v) = v.
Proof.
  intros H. unfold decode. destruct v as [|p|p]; [| |lia].
  - rewrite get_bits_zero, decode_from_zeros. reflexivity.
  - rewrite get_bits_pos, decode_from_zeros. apply decode_digits.
Qed.

Lemma get_bits_binary (variables : list string) (v : Z) :
  0 <= v -> binary (QM.__get_bits variables v) = true.
Proof.
  intros H. destruct v as [|p|p]; [| |lia].
  - rewrite get_bits_zero, binary_app, binary_zeros. reflexivity.
  - rewrite get_bits_pos, binary_app, binary_zeros, binary_digits. reflexivity.
Qed.

Lemma get_bits_inj (variables : list string) (x v : Z) :
  0 <= x -> 0 <= v ->
  QM.__get_bits variables x = QM.__get_bits variables v -> x = v.
Proof.
  intros Hx Hv E. rewrite <- (get_bits_decode variables x Hx).
  rewrite <- (get_bits_decode variables v Hv). rewrite E. reflexivity.
Qed.

End Bits.

(** X1: the bits of a non-negative index are binary digits that denote the
    index, at least as many as there are variables; for an index of the
    truth table over a non-empty variable list they are exactly as many. *)
Theorem get_bits_round_trip (variables : list string) (v : Z) (Hv : 0 <= v) :
  decode (QM.__get_bits variables v) = v
  /\ binary (QM.__get_bits variables v) = true
  /\ (List.length variables <= String.length (QM.__get_bits variables v))%nat
  /\ (variables <> [] -> v < 2 ^ Z.of_nat (List.length variables) ->
      String.length (QM.__get_bits variables v) = List.length variables).
Proof.
  split; [apply get_bits_decode; exact Hv|].
  split; [apply get_bits_binary; exact Hv|].
  split; [apply get_bits_length_ge|].
  intros Hn Hi. apply get_bits_length; [exact Hn | split; assumption].
Qed.

Lemma get_bits_round_trip_witness :
  decode (QM.__get_bits ABC 5) = 5
  /\ String.length (QM.__get_bits ABC 5) = 3%nat.
Proof.
  destruct (get_bits_round_trip ABC 5 ltac:(lia)) as (D & _ & _ & L).
  split; [exact D|]. apply L; [discriminate | reflexivity].
Defined.

(** ** [__initial_group] *)

Section Grouping.

Variable variables : list string.

Lemma append_at_seq {A : Type} (f : nat -> list A) (x : A) (m : nat) :
  forall a c : nat,
    (c < m)%nat ->
    QM.append_at (map f (seq a m)) c x
    = ok (map (fun k => if (k =? a + c)%nat then (f k ++ [x])%list else f k)
              (seq a m)).
Proof.
  induction m as [|m IH]; intros a c H; [lia|].
  destruct c as [|c]; simpl.
  - rewrite Nat.add_0_r, Nat.eqb_refl. do 2 f_equal.
    apply map_ext_in. intros k Hk. apply in_seq in Hk.
    destruct (Nat.eqb_spec k a); [lia | reflexivity].
  - rewrite (IH (S a) c) by lia. simpl.
    destruct (Nat.eqb_spec a (a + S c)); [lia|]. do 2 f_equal.
    apply map_ext. intros k. rewrite Nat.add_succ_r. reflexivity.
Qed.

Lemma append_at_out {A : Type} (groups : list (list A)) (x : A) :
  forall c : nat,
    (List.length groups <= c)%nat ->
    QM.append_at groups c x = raise IndexError.
Proof.
  induction groups as [|g gs IH]; intros c H.
  - destruct c; reflexivity.
  - destruct c as [|c]; simpl in H; [lia|].
    simpl. rewrite IH by lia. reflexivity.
Qed.

Lemma bucket_snoc (done : list Z) (v : Z) (k : nat) :
  bucket variables (done ++ [v])%list k
  = if (k =? ones variables v)%nat
    then (bucket variables done k ++ [singleton variables v])%list
    else bucket variables done k.
Proof.
  unfold bucket. rewrite filter_app, map_app. simpl.
  rewrite (Nat.eqb_sym k). destruct (ones variables v =? k)%nat; simpl.
  - reflexivity.
  - apply app_nil_r.
Qed.

Lemma initial_loop (l : list Z) :
  forall done : list Z,
    for_each
      (fun groups value =>
         QM.append_at groups (ones variables value) (singleton variables value))
      l (map (bucket variables done) (seq 0 (List.length variables + 1)))
    = if forallb (fun v => (ones variables v <=? List.length variables)%nat) l
      then ok (map (bucket variables (done ++ l)%list)
                   (seq 0 (List.length variables + 1)))
      else raise IndexError.
Proof.
  induction l as [|v l IH]; intros done; simpl.
  - rewrite app_nil_r. reflexivity.
  - destruct (Nat.leb_spec (ones variables v) (List.length variables)) as [H|H].
    + rewrite append_at_seq by lia. simpl.
      rewrite (map_ext _ (bucket variables (done ++ [v])%list))
        by (intros k; symmetry; apply bucket_snoc).
      rewrite IH, <- app_assoc. reflexivity.
    + rewrite append_at_out; [reflexivity|]. rewrite length_map, length_seq. lia.
Qed.

Lemma count_le_length (c : ascii) (s : string) :
  (Py.count c s <= String.length s)%nat.
Proof.
  induction s as [|d s IH]; simpl; [lia|]. destruct (Ascii.eqb d c); lia.
Qed.

Lemma ones_in_range (v : Z) :
  variables <> [] -> in_range variables v ->
  (ones variables v <= List.length variables)%nat.
Proof.
  intros Hn Hv. unfold ones.
  rewrite <- (get_bits_length variables v Hn Hv). apply count_le_length.
Qed.

End Grouping.

(** The grouping loop in one equation. *)
Lemma initial_group_unfold (variables : list string) (values dont_cares : list Z) :
  QM.__initial_group variables values dont_cares
  = if forallb (fun v => (ones variables v <=? List.length variables)%nat)
               (values ++ dont_cares)%list
    then ok (buckets variables (values ++ dont_cares)%list)
    else raise IndexError.
Proof.
  unfold QM.__initial_group, buckets.
  exact (initial_loop variables (values ++ dont_cares)%list []).
Qed.

(** X2: [__initial_group] returns unless some index has more ones among
    its bits than there are variables, in which case it raises
    [IndexError].  When it returns there is one bucket per count from 0 to
    the number of variables, and bucket [k] holds the terms of the indices
    with [k] ones, true values first, each in the order given. *)
Theorem initial_group_eq (variables : list string) (values dont_cares : list Z) :
  QM.__initial_group variables values dont_cares
  = if forallb (fun v => (ones variables v <=? List.length variables)%nat)
               (values ++ dont_cares)%list
    then ok (buckets variables (values ++ dont_cares)%list)
    else raise IndexError.
Proof. apply initial_group_unfold. Qed.

(** Indices of the truth table never overflow the buckets. *)
Lemma initial_group_returns
        (variables : list string) (values dont_cares : list Z)
        (Hvars : variables <> [])
        (Hrange : Forall (in_range variables) (values ++ dont_cares)%list) :
  QM.__initial_group variables values dont_cares
  = ok (buckets variables (values ++ dont_cares)%list).
Proof.
  rewrite initial_group_unfold.
  replace (forallb _ _) with true; [reflexivity|].
  symmetry. apply forallb_forall. intros v Hv. apply Nat.leb_le.
  rewrite Forall_forall in Hrange. apply ones_in_range; auto.
Qed.

(** X3: on a non-empty variable list and indices of the truth table the
    grouping returns. *)
Theorem initial_group_in_range
        (variables : list string) (values dont_cares : list Z)
        (Hvars : variables <> [])
        (Hrange : Forall (in_range variables) (values ++ dont_cares)%list) :
  QM.__initial_group variables values dont_cares
  = ok (buckets variables (values ++ dont_cares)%list).
Proof. apply initial_group_returns; assumption. Qed.

Lemma initial_group_in_range_witness :
  QM.__initial_group ABC [1; 6] [7]
  = ok [[]; [singleton ABC 1]; [singleton ABC 6]; [singleton ABC 7]].
Proof.
  apply (initial_group_in_range ABC [1; 6] [7]).
  - discriminate.
  - repeat constructor; unfold in_range; simpl; lia.
Defined.

(** ** [__get_prime_implicants] returns *)

Section PrimeImplicantsReturn.

Variable n : nat.

Let P (m : Minterm.t) : Prop := String.length (Minterm._value m) = n.

Lemma length_use (m : Minterm.t) : P m -> P (Minterm.use m).
Proof. intros H. exact H. Qed.

Lemma length_combine (self minterm term3 : Minterm.t) :
  P self -> P minterm ->
  Minterm.combine self minterm = ok (Some term3) -> P term3.
Proof.
  unfold P. intros Hs Hm E. rewrite combine_eq in E by congruence.
  destruct (_ && _); [|discriminate E]. injection E as <-. simpl.
  rewrite merge_length by congruence. exact Hs.
Qed.

Lemma combine_returns (self minterm : Minterm.t) :
  P self -> P minterm -> exists r, Minterm.combine self minterm = ok r.
Proof.
  unfold P. intros Hs Hm. rewrite combine_eq by congruence.
  eexists. reflexivity.
Qed.

Lemma compare_term_returns (group2 : list Minterm.t) :
  forall term1 new_group,
    P term1 -> Forall P group2 ->
    exists r, QM.compare_term term1 group2 new_group = ok r.
Proof.
  induction group2 as [|term2 rest IH]; intros term1 new_group H1 H2; simpl.
  - eexists. reflexivity.
  - inversion H2 as [|? ? Ht2 Hrest]; subst.
    destruct (combine_returns term1 term2 H1 Ht2) as [[t3|] ->]; simpl.
    + destruct (IH (Minterm.use term1)
                   (if QM.contains new_group t3 then new_group
                    else (new_group ++ [t3])%list)
                   (length_use _ H1) Hrest) as [[[t1 g2] ng] ->].
      simpl. eexists. reflexivity.
    + destruct (IH term1 new_group H1 Hrest) as [[[t1 g2] ng] ->].
      simpl. eexists. reflexivity.
Qed.

Lemma compare_group_returns (group1 : list Minterm.t) :
  forall group2 new_group,
    Forall P group1 -> Forall P group2 -> Forall P new_group ->
    exists r, QM.compare_group group1 group2 new_group = ok r.
Proof.
  induction group1 as [|term1 rest IH]; intros group2 new_group H1 H2 Hn; simpl.
  - eexists. reflexivity.
  - inversion H1 as [|? ? Ht1 Hrest]; subst.
    destruct (compare_term_returns group2 term1 new_group Ht1 H2)
      as [[[t1 g2] ng] E].
    rewrite E. simpl.
    destruct (compare_term_inv P length_use length_combine
                group2 term1 new_group t1 g2 ng Ht1 H2 Hn E) as (_ & Hg2 & Hng).
    destruct (IH g2 ng Hrest Hg2 Hng) as [[[g1' g2'] ng'] ->].
    simpl. eexists. reflexivity.
Qed.

Lemma compare_all_returns (rest : list (list Minterm.t)) :
  forall group1,
    Forall P group1 -> Forall (Forall P) rest ->
    exists gs ngs,
      QM.compare_all group1 rest = ok (gs, ngs)
      /\ List.length ngs = List.length rest.
Proof.
  induction rest as [|group2 rest IH]; intros group1 H1 H2; simpl.
  - do 2 eexists. split; reflexivity.
  - inversion H2 as [|? ? Hg2 Hrest]; subst.
    destruct (compare_group_returns group1 group2 [] H1 Hg2 (Forall_nil _))
      as [[[g1 g2] ng] E].
    rewrite E. simpl.
    destruct (compare_group_inv P length_use length_combine
                group1 group2 [] g1 g2 ng H1 Hg2 (Forall_nil _) E)
      as (_ & Hg2' & _).
    destruct (IH g2 Hg2' Hrest) as (gs & ngs & -> & L).
    simpl. do 2 eexists. split; [reflexivity|]. simpl. congruence.
Qed.

Lemma get_prime_implicants_rec_step
      (depth : nat) (g g' : list Minterm.t) (gs : list (list Minterm.t)) :
  QM.get_prime_implicants_rec (S depth) (g :: g' :: gs)
  = ('(groups', new_groups) <- QM.compare_all g (g' :: gs) ;;
     deeper <- QM.get_prime_implicants_rec depth new_groups ;;
     ok (fold_left QM.add_unused deeper
                   (fold_left QM.add_unused (List.concat groups') []))).
Proof. reflexivity. Qed.

Lemma get_prime_implicants_rec_returns (depth : nat) :
  forall groups,
    Forall (Forall P) groups ->
    (1 <= List.length groups <= S depth)%nat ->
    exists prime_implicants,
      QM.get_prime_implicants_rec depth groups = ok prime_implicants.
Proof.
  induction depth as [|depth IH]; intros groups Hg L.
  - destruct groups as [|g [|g' gs]]; simpl in L; try lia.
    eexists. reflexivity.
  - destruct groups as [|g [|g' gs]]; simpl in L; try lia.
    + eexists. reflexivity.
    + inversion Hg as [|? ? Hhead Htail]; subst.
      destruct (compare_all_returns (g' :: gs) g Hhead Htail)
        as (gs' & ngs & E & Ln).
      destruct (compare_all_inv P length_use length_combine
                  (g' :: gs) g gs' ngs Hhead Htail E) as [_ Hngs].
      destruct (IH ngs Hngs) as [deeper D].
      { rewrite Ln. simpl. lia. }
      rewrite get_prime_implicants_rec_step, E. cbn [bind ok].
      rewrite D. cbn [bind ok]. eexists. reflexivity.
Qed.

End PrimeImplicantsReturn.



(** ** The list of unused terms *)

Section Unused.

Lemma eq_sym_term (a b : Minterm.t) : Minterm.__eq__ a b = Minterm.__eq__ b a.
Proof.
  destruct (Minterm.__eq__ a b) eqn:E1, (Minterm.__eq__ b a) eqn:E2;
    try reflexivity.
  - apply eq_spec in E1. destruct E1 as [A B].
    assert (Minterm.__eq__ b a = true) by (apply eq_spec; split; congruence).
    congruence.
  - apply eq_spec in E2. destruct E2 as [A B].
    assert (Minterm.__eq__ a b = true) by (apply eq_spec; split; congruence).
    congruence.
Qed.

Lemma distinct_snoc (l : list Minterm.t) (t : Minterm.t) :
  distinct l -> QM.contains l t = false -> distinct (l ++ [t])%list.
Proof.
  induction l as [|a l IH]; simpl; intros D C.
  - auto.
  - destruct D as [Ca D]. apply orb_false_iff in C. destruct C as [Eat C].
    split; [|apply IH; assumption].
    rewrite contains_app, Ca. simpl.
    rewrite eq_sym_term, Eat. reflexivity.
Qed.

Lemma add_unused_incl (terms : list Minterm.t) :
  forall acc x, In x acc -> In x (fold_left QM.add_unused terms acc).
Proof.
  induction terms as [|t terms IH]; intros acc x H; simpl; [exact H|].
  apply IH. unfold QM.add_unused. destruct (_ && _); [|exact H].
  apply in_or_app. left. exact H.
Qed.

Lemma add_unused_unused (terms : list Minterm.t) :
  forall acc,
    Forall (fun m => Minterm.used m = false) acc ->
    Forall (fun m => Minterm.used m = false) (fold_left QM.add_unused terms acc).
Proof.
  induction terms as [|t terms IH]; intros acc H; simpl; [exact H|].
  apply IH. unfold QM.add_unused.
  destruct (Minterm.used t) eqn:U; simpl; [exact H|].
  destruct (QM.contains acc t); simpl; [exact H|].
  apply Forall_app. split; [exact H|]. constructor; [exact U | constructor].
Qed.

Lemma add_unused_distinct (terms : list Minterm.t) :
  forall acc, distinct acc -> distinct (fold_left QM.add_unused terms acc).
Proof.
  induction terms as [|t terms IH]; intros acc H; simpl; [exact H|].
  apply IH. unfold QM.add_unused.
  destruct (Minterm.used t); simpl; [exact H|].
  destruct (QM.contains acc t) eqn:C; simpl; [exact H|].
  apply distinct_snoc; assumption.
Qed.

Lemma contains_fold (terms : list Minterm.t) (y : Minterm.t) :
  forall acc,
    QM.contains acc y = true ->
    QM.contains (fold_left QM.add_unused terms acc) y = true.
Proof.
  intros acc H. unfold QM.contains in *. apply existsb_exists in H.
  destruct H as [e [He E]]. apply existsb_exists. exists e.
  split; [apply add_unused_incl; exact He | exact E].
Qed.

Lemma add_unused_keeps (terms : list Minterm.t) (y : Minterm.t) :
  forall acc,
    In y terms -> Minterm.used y = false ->
    QM.contains (fold_left QM.add_unused terms acc) y = true.
Proof.
  induction terms as [|t terms IH]; intros acc H U; [contradiction|].
  simpl. destruct H as [->|H]; [|apply IH; assumption].
  apply contains_fold. unfold QM.add_unused. rewrite U. simpl.
  destruct (QM.contains acc y) eqn:C; simpl; [exact C | apply contains_last].
Qed.

Lemma buckets_length (variables : list string) (all_values : list Z) :
  List.length (buckets variables all_values) = (List.length variables + 1)%nat.
Proof. unfold buckets. rewrite length_map, length_seq. reflexivity. Qed.

Lemma initial_group_buckets
      (variables : list string) (values dont_cares : list Z)
      (groups : list (list Minterm.t)) :
  QM.__initial_group variables values dont_cares = ok groups ->
  groups = buckets variables (values ++ dont_cares)%list
  /\ Forall (fun v => (ones variables v <= List.length variables)%nat)
            (values ++ dont_cares)%list.
Proof.
  rewrite initial_group_unfold. destruct (forallb _ _) eqn:F; [|discriminate].
  intros E. injection E as <-. split; [reflexivity|].
  apply Forall_forall. intros v Hv.
  rewrite forallb_forall in F. apply Nat.leb_le. apply F. exact Hv.
Qed.

End Unused.

(** X5: over a non-empty variable list, the prime implicants returned are
    all unmarked and no two of them are equal in the sense of [__eq__]. *)
Theorem prime_implicants_distinct_unused
        (variables : list string) (values dont_cares : list Z)
        (groups : list (list Minterm.t)) (prime_implicants : list Minterm.t)
        (Hvars : variables <> [])
        (Hgroups : QM.__initial_group variables values dont_cares = ok groups)
        (Hprime : QM.__get_prime_implicants groups = ok prime_implicants) :
  distinct prime_implicants
  /\ Forall (fun m => Minterm.used m = false) prime_implicants.
Proof.
  apply initial_group_buckets in Hgroups. destruct Hgroups as [G _].
  assert (L : (2 <= List.length groups)%nat).
  { rewrite G, buckets_length. destruct variables; [congruence | simpl; lia]. }
  unfold QM.__get_prime_implicants in Hprime.
  destruct groups as [|g [|g' gs]]; simpl in L; try lia.
  cbn [List.length] in Hprime. rewrite get_prime_implicants_rec_step in Hprime.
  bind_inv Hprime as [gs' ngs] E. bind_inv Hprime as deeper D.
  injection Hprime as <-. split.
  - apply add_unused_distinct, add_unused_distinct. exact I.
  - apply add_unused_unused, add_unused_unused. constructor.
Qed.

Lemma prime_implicants_distinct_unused_witness :
  distinct cyclic_pool /\ Forall (fun m => Minterm.used m = false) cyclic_pool.
Proof.
  apply (prime_implicants_distinct_unused ABC [0; 1; 2; 5; 6; 7] []
           (buckets ABC [0; 1; 2; 5; 6; 7])).
  - discriminate.
  - evaluate.
  - evaluate.
Defined.

(** ** Every given index is covered by a prime implicant *)

Section Completeness.

Lemma subsumed_incl (x : Minterm.t) (l1 l2 : list Minterm.t) :
  incl l1 l2 -> subsumed x l1 -> subsumed x l2.
Proof. intros H [p [Hp S]]. exists p. split; [apply H; exact Hp | exact S]. Qed.

Lemma tracked_refl (ng : list Minterm.t) (x : Minterm.t) : tracked ng x x.
Proof. split; [reflexivity | auto]. Qed.

Lemma tracked_incl (ng ng' : list Minterm.t) (x y : Minterm.t) :
  incl ng ng' -> tracked ng x y -> tracked ng' x y.
Proof.
  intros H [V U]. split; [exact V|]. intros Hy.
  destruct (U Hy) as [A|A]; [left; exact A | right].
  eapply subsumed_incl; eassumption.
Qed.

Lemma tracked_trans (ng : list Minterm.t) (x y z : Minterm.t) :
  tracked ng x y -> tracked ng y z -> tracked ng x z.
Proof.
  intros [V1 U1] [V2 U2]. split; [congruence|]. intros Hz.
  destruct (U2 Hz) as [A|[p [Hp S]]]; [exact (U1 A)|].
  right. exists p. split; [exact Hp|].
  unfold Minterm.get_values in *. rewrite <- V1. exact S.
Qed.

Lemma Forall2_tracked_refl (ng l : list Minterm.t) : Forall2 (tracked ng) l l.
Proof. induction l; constructor; [apply tracked_refl | assumption]. Qed.

Lemma Forall2_tracked_incl (ng ng' l l' : list Minterm.t) :
  incl ng ng' -> Forall2 (tracked ng) l l' -> Forall2 (tracked ng') l l'.
Proof.
  intros H F. induction F; constructor; [|assumption].
  eapply tracked_incl; eassumption.
Qed.

Lemma Forall2_tracked_trans (ng : list Minterm.t) :
  forall l1 l2 l3,
    Forall2 (tracked ng) l1 l2 -> Forall2 (tracked ng) l2 l3 ->
    Forall2 (tracked ng) l1 l3.
Proof.
  intros l1 l2 l3 F. revert l3. induction F; intros l3 G; inversion G; subst;
    constructor; [eapply tracked_trans; eassumption | auto].
Qed.

Lemma combine_covers (self minterm term3 : Minterm.t) :
  Minterm.combine self minterm = ok (Some term3) ->
  incl (Minterm.get_values self) (Minterm.get_values term3)
  /\ incl (Minterm.get_values minterm) (Minterm.get_values term3)
  /\ Minterm.used term3 = false.
Proof.
  intros E. apply combine_some_init in E. destruct E as [value ->].
  unfold Minterm.get_values. simpl.
  repeat split; intros x Hx; apply sort_In, in_app_iff; auto.
Qed.

Lemma subsumed_new (x t3 : Minterm.t) (new_group : list Minterm.t) :
  incl (Minterm.get_values x) (Minterm.get_values t3) ->
  subsumed x (if QM.contains new_group t3 then new_group
              else (new_group ++ [t3])%list).
Proof.
  intros H. destruct (QM.contains new_group t3) eqn:C.
  - unfold QM.contains in C. apply existsb_exists in C.
    destruct C as [e [He E]]. apply eq_spec in E. destruct E as [_ E].
    exists e. split; [exact He | rewrite E; exact H].
  - exists t3. split; [apply in_or_app; right; left; reflexivity | exact H].
Qed.

Lemma incl_new (t3 : Minterm.t) (new_group : list Minterm.t) :
  incl new_group (if QM.contains new_group t3 then new_group
                  else (new_group ++ [t3])%list).
Proof.
  destruct (QM.contains new_group t3);
    [apply incl_refl | apply incl_appl, incl_refl].
Qed.

Lemma compare_term_tracked (group2 : list Minterm.t) :
  forall term1 new_group t1 g2 ng,
    QM.compare_term term1 group2 new_group = ok (t1, g2, ng) ->
    incl new_group ng
    /\ tracked ng term1 t1
    /\ Forall2 (tracked ng) group2 g2.
Proof.
  induction group2 as [|term2 rest IH]; intros term1 new_group t1 g2 ng E;
    simpl in E.
  - injection E as <- <- <-.
    split; [apply incl_refl|]. split; [apply tracked_refl | constructor].
  - bind_inv E as term3 Ec. destruct term3 as [t3|].
    + bind_inv E as [[t1' g2'] ng'] Er. injection E as <- <- <-.
      apply combine_covers in Ec. destruct Ec as (C1 & C2 & _).
      apply IH in Er. destruct Er as (I & [V U] & F).
      assert (I0 := incl_new t3 new_group).
      split; [eapply incl_tran; eassumption|].
      split; [|constructor; [|exact F]].
      * split; [exact V|]. intros _. right.
        eapply subsumed_incl; [exact I | apply subsumed_new; exact C1].
      * split; [reflexivity|]. intros _. right.
        eapply subsumed_incl; [exact I | apply subsumed_new; exact C2].
    + bind_inv E as [[t1' g2'] ng'] Er. injection E as <- <- <-.
      apply IH in Er. destruct Er as (I & T & F).
      split; [exact I|]. split; [exact T|].
      constructor; [apply tracked_refl | exact F].
Qed.

Lemma compare_group_tracked (group1 : list Minterm.t) :
  forall group2 new_group g1 g2 ng,
    QM.compare_group group1 group2 new_group = ok (g1, g2, ng) ->
    incl new_group ng
    /\ Forall2 (tracked ng) group1 g1
    /\ Forall2 (tracked ng) group2 g2.
Proof.
  induction group1 as [|term1 rest IH]; intros group2 new_group g1 g2 ng E;
    simpl in E.
  - injection E as <- <- <-.
    split; [apply incl_refl|]. split; [constructor | apply Forall2_tracked_refl].
  - bind_inv E as [[t1 g2a] nga] Et. bind_inv E as [[g1b g2b] ngb] Eg.
    injection E as <- <- <-.
    apply compare_term_tracked in Et. destruct Et as (I1 & T1 & F1).
    apply IH in Eg. destruct Eg as (I2 & Fa & Fb).
    split; [eapply incl_tran; eassumption|]. split.
    + constructor; [eapply tracked_incl; eassumption | exact Fa].
    + eapply Forall2_tracked_trans; [|exact Fb].
      eapply Forall2_tracked_incl; eassumption.
Qed.

Lemma compare_all_tracked (rest : list (list Minterm.t)) :
  forall group1 gs ngs,
    QM.compare_all group1 rest = ok (gs, ngs) ->
    Forall2 (Forall2 (tracked (List.concat ngs))) (group1 :: rest) gs.
Proof.
  induction rest as [|group2 rest IH]; intros group1 gs ngs E; simpl in E.
  - injection E as <- <-. repeat constructor. apply Forall2_tracked_refl.
  - bind_inv E as [[g1 g2] ng] Eg. bind_inv E as [gs' ngs'] Ea.
    injection E as <- <-.
    apply compare_group_tracked in Eg. destruct Eg as (_ & F1 & F2).
    apply IH in Ea. inversion Ea as [|? ? ? ? Fh Ft]; subst.
    simpl List.concat.
    constructor; [eapply Forall2_tracked_incl; [|exact F1];
                  apply incl_appl, incl_refl|].
    constructor.
    + eapply Forall2_tracked_trans.
      * eapply Forall2_tracked_incl; [|exact F2]. apply incl_appl, incl_refl.
      * eapply Forall2_tracked_incl; [|exact Fh]. apply incl_appr, incl_refl.
    + clear - Ft. induction Ft; constructor; [|assumption].
      eapply Forall2_tracked_incl; [|eassumption]. apply incl_appr, incl_refl.
Qed.

(** The new groups hold fresh terms only. *)
Lemma compare_term_fresh (group2 : list Minterm.t) :
  forall term1 new_group t1 g2 ng,
    Forall (fun m => Minterm.used m = false) new_group ->
    QM.compare_term term1 group2 new_group = ok (t1, g2, ng) ->
    Forall (fun m => Minterm.used m = false) ng.
Proof.
  induction group2 as [|term2 rest IH]; intros term1 new_group t1 g2 ng H E;
    simpl in E.
  - injection E as <- <- <-. exact H.
  - bind_inv E as term3 Ec. destruct term3 as [t3|].
    + bind_inv E as [[t1' g2'] ng'] Er. injection E as <- <- <-.
      apply IH in Er; [exact Er|].
      destruct (QM.contains new_group t3); [exact H|].
      apply Forall_app. split; [exact H|].
      constructor; [apply (combine_covers _ _ _ Ec) | constructor].
    + bind_inv E as [[t1' g2'] ng'] Er. injection E as <- <- <-.
      eapply IH; eassumption.
Qed.

Lemma compare_group_fresh (group1 : list Minterm.t) :
  forall group2 new_group g1 g2 ng,
    Forall (fun m => Minterm.used m = false) new_group ->
    QM.compare_group group1 group2 new_group = ok (g1, g2, ng) ->
    Forall (fun m => Minterm.used m = false) ng.
Proof.
  induction group1 as [|term1 rest IH]; intros group2 new_group g1 g2 ng H E;
    simpl in E.
  - injection E as <- <- <-. exact H.
  - bind_inv E as [[t1 g2a] nga] Et. bind_inv E as [[g1b g2b] ngb] Eg.
    injection E as <- <- <-.
    eapply IH; [|exact Eg]. eapply compare_term_fresh; eassumption.
Qed.

Lemma compare_all_fresh (rest : list (list Minterm.t)) :
  forall group1 gs ngs,
    QM.compare_all group1 rest = ok (gs, ngs) ->
    Forall (Forall (fun m => Minterm.used m = false)) ngs.
Proof.
  induction rest as [|group2 rest IH]; intros group1 gs ngs E; simpl in E.
  - injection E as <- <-. constructor.
  - bind_inv E as [[g1 g2] ng] Eg. bind_inv E as [gs' ngs'] Ea.
    injection E as <- <-. constructor.
    + eapply compare_group_fresh; [|exact Eg]. constructor.
    + eapply IH; eassumption.
Qed.

Lemma Forall2_concat_tracked (ng : list Minterm.t) :
  forall (A B : list (list Minterm.t)) (x : Minterm.t),
    Forall2 (Forall2 (tracked ng)) A B -> In x (List.concat A) ->
    exists y, In y (List.concat B) /\ tracked ng x y.
Proof.
  intros A B x F. induction F as [|a b A B Fab F IH]; simpl; intros H.
  - contradiction.
  - apply in_app_or in H. destruct H as [H|H].
    + clear - Fab H. induction Fab as [|u v a b T Fab IH'].
      * contradiction.
      * destruct H as [->|H].
        -- exists v. split; [apply in_or_app; left; left; reflexivity | exact T].
        -- destruct (IH' H) as [y [Hy Ty]]. exists y. split; [|exact Ty].
           apply in_app_or in Hy. apply in_or_app.
           destruct Hy as [Hy|Hy]; [left; right; exact Hy | right; exact Hy].
    + destruct (IH H) as [y [Hy Ty]]. exists y.
      split; [apply in_or_app; right; exact Hy | exact Ty].
Qed.

Lemma rec_unused (depth : nat) :
  forall groups prime_implicants,
    Forall (Forall (fun m => Minterm.used m = false)) groups ->
    QM.get_prime_implicants_rec depth groups = ok prime_implicants ->
    Forall (fun m => Minterm.used m = false) prime_implicants.
Proof.
  intros groups pis H E. destruct groups as [|g [|g' gs]].
  - destruct depth; simpl in E; [discriminate E|].
    bind_inv E as deeper D. injection E as <-.
    apply add_unused_unused. constructor.
  - destruct depth; simpl in E; injection E as <-; inversion H; assumption.
  - destruct depth; [discriminate E|].
    rewrite get_prime_implicants_rec_step in E.
    bind_inv E as [gs' ngs] Ec. bind_inv E as deeper D. injection E as <-.
    apply add_unused_unused, add_unused_unused. constructor.
Qed.

Lemma contains_subsumed (l : list Minterm.t) (x y : Minterm.t) :
  QM.contains l y = true ->
  incl (Minterm.get_values x) (Minterm.get_values y) -> subsumed x l.
Proof.
  intros C H. unfold QM.contains in C. apply existsb_exists in C.
  destruct C as [e [He E]]. apply eq_spec in E. destruct E as [_ E].
  exists e. split; [exact He | rewrite E; exact H].
Qed.

Lemma rec_complete (depth : nat) :
  forall groups prime_implicants,
    Forall (Forall (fun m => Minterm.used m = false)) groups ->
    QM.get_prime_implicants_rec depth groups = ok prime_implicants ->
    forall x, In x (List.concat groups) -> subsumed x prime_implicants.
Proof.
  induction depth as [|depth IH]; intros groups pis H E x Hx.
  - destruct groups as [|g [|g' gs]]; simpl in E; try discriminate E.
    injection E as <-. simpl in Hx. rewrite app_nil_r in Hx.
    exists x. split; [exact Hx | apply incl_refl].
  - destruct groups as [|g [|g' gs]].
    + contradiction.
    + simpl in E. injection E as <-. simpl in Hx. rewrite app_nil_r in Hx.
      exists x. split; [exact Hx | apply incl_refl].
    + rewrite get_prime_implicants_rec_step in E.
      bind_inv E as [gs' ngs] Ec. bind_inv E as deeper D. injection E as <-.
      assert (Hfresh := compare_all_fresh _ _ _ _ Ec).
      destruct (Forall2_concat_tracked _ _ _ x
                  (compare_all_tracked _ _ _ _ Ec) Hx) as [y [Hy [V U]]].
      assert (Ux : Minterm.used x = false).
      { assert (F : Forall (fun m => Minterm.used m = false)
                           (List.concat (g :: g' :: gs)))
          by (apply Forall_concat; exact H).
        rewrite Forall_forall in F. apply F. exact Hx. }
      destruct (Minterm.used y) eqn:Uy.
      * destruct (U eq_refl) as [A|[t [Ht S]]]; [congruence|].
        destruct (IH ngs deeper Hfresh D t Ht) as [p [Hp Sp]].
        assert (Up : Minterm.used p = false).
        { assert (F := rec_unused _ _ _ Hfresh D).
          rewrite Forall_forall in F. apply F. exact Hp. }
        apply (contains_subsumed _ x p).
        -- apply add_unused_keeps; assumption.
        -- eapply incl_tran; eassumption.
      * apply (contains_subsumed _ x y).
        -- apply contains_fold. apply add_unused_keeps; assumption.
        -- rewrite V. apply incl_refl.
Qed.

End Completeness.

(** No given index is lost on the way to the prime implicants. *)
Lemma every_index_covered
        (variables : list string) (values dont_cares : list Z)
        (groups : list (list Minterm.t)) (prime_implicants : list Minterm.t)
        (Hgroups : QM.__initial_group variables values dont_cares = ok groups)
        (Hprime : QM.__get_prime_implicants groups = ok prime_implicants) :
  forall v : Z,
    In v (values ++ dont_cares)%list ->
    exists p : Minterm.t,
      In p prime_implicants /\ In v (Minterm.get_values p).
Proof.
  intros v Hv. apply initial_group_buckets in Hgroups.
  destruct Hgroups as [-> Hones]. rewrite Forall_forall in Hones.
  assert (Fresh : Forall (Forall (fun m => Minterm.used m = false))
                         (buckets variables (values ++ dont_cares)%list)).
  { apply Forall_forall. intros g Hg. unfold buckets in Hg.
    apply in_map_iff in Hg. destruct Hg as [k [<- _]].
    apply Forall_forall. intros m Hm. unfold bucket in Hm.
    apply in_map_iff in Hm. destruct Hm as [w [<- _]]. reflexivity. }
  destruct (rec_complete _ _ _ Fresh Hprime (singleton variables v))
    as [p [Hp S]].
  - apply in_concat. exists (bucket variables (values ++ dont_cares)%list
                                    (ones variables v)).
    split.
    + unfold buckets. apply in_map. apply in_seq.
      specialize (Hones v Hv). lia.
    + unfold bucket. apply in_map. apply filter_In.
      split; [exact Hv | apply Nat.eqb_refl].
  - exists p. split; [exact Hp|]. apply S. left. reflexivity.
Qed.

(** X6: when grouping and extraction return, the prime implicants cover
    the given indices and nothing else: an index is covered by some prime
    implicant exactly when it is a true value or a don't-care. *)
Theorem prime_implicants_cover_every_index
        (variables : list string) (values dont_cares : list Z)
        (groups : list (list Minterm.t)) (prime_implicants : list Minterm.t)
        (v : Z)
        (Hgroups : QM.__initial_group variables values dont_cares = ok groups)
        (Hprime : QM.__get_prime_implicants groups = ok prime_implicants) :
  (exists p : Minterm.t, In p prime_implicants /\ In v (Minterm.get_values p))
  <-> In v (values ++ dont_cares)%list.
Proof.
  split.
  - intros [p [Hp Hv]].
    assert (G := prime_implicants_cover_given _ _ _ _ _ Hgroups Hprime).
    rewrite Forall_forall in G. exact (G p Hp v Hv).
  - exact (every_index_covered _ _ _ _ _ Hgroups Hprime v).
Qed.

Lemma prime_implicants_cover_every_index_witness :
  (exists p : Minterm.t, In p cyclic_pool /\ In 5 (Minterm.get_values p))
  <-> In 5 ([0; 1; 2; 5; 6; 7] ++ [])%list.
Proof.
  apply (prime_implicants_cover_every_index ABC [0; 1; 2; 5; 6; 7] []
           (buckets ABC [0; 1; 2; 5; 6; 7]) cyclic_pool).
  - evaluate.
  - evaluate.
Defined.

(** ** A prime implicant covers what its pattern matches *)

Section Exactness.

Lemma binary_ternary (s : string) : binary s = true -> ternary s = true.
Proof.
  induction s as [|c s IH]; simpl; [reflexivity|].
  intros H. apply andb_true_iff in H. destruct H as [H1 H2].
  rewrite (IH H2), H1. reflexivity.
Qed.

Lemma matches_binary (bits pattern : string) :
  binary pattern = true -> (matches bits pattern = true <-> bits = pattern).
Proof.
  revert pattern. induction bits as [|b bits IH]; intros [|c pattern] H;
    simpl; try (split; [discriminate | congruence]); [tauto|].
  simpl in H. apply andb_true_iff in H. destruct H as [Hc H].
  assert (Ascii.eqb c "-" = false) as ->.
  { apply orb_true_iff in Hc.
    destruct Hc as [Hc|Hc]; apply Ascii.eqb_eq in Hc; subst c; reflexivity. }
  simpl. rewrite andb_true_iff, Ascii.eqb_eq, (IH pattern H). split.
  - intros [-> ->]. reflexivity.
  - intros E. injection E as -> ->. auto.
Qed.

Lemma merge_refl (s : string) : merge s s = s.
Proof.
  induction s as [|c s IH]; simpl; [reflexivity|].
  rewrite Ascii.eqb_refl, IH. reflexivity.
Qed.

Lemma ternary_merge (a : string) :
  forall b, ternary a = true -> ternary (merge a b) = true.
Proof.
  induction a as [|c a IH]; intros [|d b] H; simpl; try reflexivity.
  simpl in H. apply andb_true_iff in H. destruct H as [Hc H].
  rewrite (IH b H). destruct (Ascii.eqb c d); [rewrite Hc|]; reflexivity.
Qed.

Lemma head_matches (x c d : ascii) :
  (Ascii.eqb x "0" || Ascii.eqb x "1") = true ->
  (Ascii.eqb c "0" || Ascii.eqb c "1" || Ascii.eqb c "-") = true ->
  (Ascii.eqb d "0" || Ascii.eqb d "1" || Ascii.eqb d "-") = true ->
  c <> d ->
  (Ascii.eqb c "-" || Ascii.eqb x c) || (Ascii.eqb d "-" || Ascii.eqb x d)
  = true.
Proof.
  intros Hx Hc Hd N.
  repeat match goal with
         | H : (_ || _) = true |- _ => apply orb_true_iff in H; destruct H as [H|H]
         | H : Ascii.eqb _ _ = true |- _ => apply Ascii.eqb_eq in H; subst
         end; try reflexivity; congruence.
Qed.

Lemma matches_merge (bits : string) :
  forall a b : string,
    binary bits = true -> ternary a = true -> ternary b = true ->
    String.length a = String.length b ->
    (differences a b <= 1)%nat ->
    matches bits (merge a b) = matches bits a || matches bits b.
Proof.
  induction bits as [|x bits IH]; intros [|c a] [|d b] Hx Ha Hb L D;
    simpl in L; try discriminate L; try reflexivity.
  injection L as L. simpl in Hx, Ha, Hb, D.
  apply andb_true_iff in Hx, Ha, Hb.
  destruct Hx as [Hx Hx'], Ha as [Hc Ha], Hb as [Hd Hb]. simpl.
  destruct (Ascii.eqb_spec c d) as [<-|N].
  - rewrite (IH a b) by (assumption || lia).
    destruct (Ascii.eqb c "-" || Ascii.eqb x c), (matches bits a),
      (matches bits b); reflexivity.
  - assert (a = b) as <- by (apply differences_zero; [exact L | lia]).
    rewrite merge_refl. simpl.
    assert (H := head_matches x c d Hx Hc Hd N).
    destruct (Ascii.eqb c "-" || Ascii.eqb x c),
      (Ascii.eqb d "-" || Ascii.eqb x d), (matches bits a);
      try reflexivity; discriminate H.
Qed.

Variable variables : list string.
Hypothesis variables_given : variables <> [].

Lemma exact_use (m : Minterm.t) :
  exact_term variables m -> exact_term variables (Minterm.use m).
Proof. intros H. exact H. Qed.

Lemma exact_singleton (v : Z) :
  in_range variables v -> exact_term variables (singleton variables v).
Proof.
  intros Hv. unfold exact_term, singleton, Minterm.get_value, Minterm.get_values.
  simpl.
  split; [apply get_bits_length; assumption|].
  split; [apply binary_ternary, get_bits_binary, Hv|].
  intros x Hx. rewrite matches_binary by (apply get_bits_binary, Hv). split.
  - intros [<-|[]]. reflexivity.
  - intros E. left. symmetry.
    apply (get_bits_inj variables); [apply Hx | apply Hv | exact E].
Qed.

Lemma exact_combine (self minterm term3 : Minterm.t) :
  exact_term variables self -> exact_term variables minterm ->
  Minterm.combine self minterm = ok (Some term3) ->
  exact_term variables term3.
Proof.
  unfold exact_term, Minterm.get_value, Minterm.get_values.
  intros (La & Ta & Ea) (Lb & Tb & Eb) E.
  rewrite combine_eq in E by congruence.
  destruct (negb _ && _) eqn:C; [|discriminate E]. injection E as <-. simpl.
  apply andb_true_iff in C. destruct C as [_ C]. apply Nat.eqb_eq in C.
  split; [rewrite merge_length by congruence; exact La|].
  split; [apply ternary_merge; exact Ta|].
  intros x Hx. rewrite sort_In, in_app_iff, (Ea x Hx), (Eb x Hx).
  rewrite matches_merge; try assumption; try congruence; try lia.
  - rewrite orb_true_iff. reflexivity.
  - apply get_bits_binary, Hx.
Qed.

End Exactness.

(** Exactness holds from the singletons on and is handed on by [combine]. *)
Lemma all_exact
        (variables : list string) (values dont_cares : list Z)
        (groups : list (list Minterm.t)) (prime_implicants : list Minterm.t)
        (Hvars : variables <> [])
        (Hrange : Forall (in_range variables) (values ++ dont_cares)%list)
        (Hgroups : QM.__initial_group variables values dont_cares = ok groups)
        (Hprime : QM.__get_prime_implicants groups = ok prime_implicants) :
  Forall (exact_term variables) prime_implicants.
Proof.
  apply (prime_implicants_inv (exact_term variables)
           (exact_use variables) (exact_combine variables)
           variables values dont_cares) with (groups := groups);
    [|exact Hgroups | exact Hprime].
  intros v Hv. apply exact_singleton; [exact Hvars|].
  rewrite Forall_forall in Hrange. apply Hrange. exact Hv.
Qed.

(** X7: over a non-empty variable list and indices of the truth table,
    every prime implicant has a pattern over [0], [1] and [-] with one
    character per variable, and among the indices of the truth table it
    covers exactly those whose bits match the pattern. *)
Theorem prime_implicants_exact
        (variables : list string) (values dont_cares : list Z)
        (groups : list (list Minterm.t)) (prime_implicants : list Minterm.t)
        (Hvars : variables <> [])
        (Hrange : Forall (in_range variables) (values ++ dont_cares)%list)
        (Hgroups : QM.__initial_group variables values dont_cares = ok groups)
        (Hprime : QM.__get_prime_implicants groups = ok prime_implicants) :
  Forall (exact_term variables) prime_implicants.
Proof. exact (all_exact _ _ _ _ _ Hvars Hrange Hgroups Hprime). Qed.

Lemma prime_implicants_exact_witness :
  Forall (exact_term ABC) cyclic_pool.
Proof.
  apply (prime_implicants_exact ABC [0; 1; 2; 5; 6; 7] []
           (buckets ABC [0; 1; 2; 5; 6; 7])).
  - discriminate.
  - repeat constructor; unfold in_range; simpl; lia.
  - evaluate.
  - evaluate.
Defined.

(** ** Where the essential implicants come from *)

Section EssentialOrigin.

Variables values dont_cares : list Z.
Variable prime_implicants : list Minterm.t.

Lemma count_uses_count (v : Z) (pis : list Minterm.t) :
  forall st,
    fst (fold_left
           (fun st minterm =>
              if Py.mem v (Minterm.get_values minterm)
              then (S (fst st), Some minterm) else st) pis st)
    = (fst st + List.length (filter (covers v) pis))%nat.
Proof.
  induction pis as [|p pis IH]; intros st; simpl; [lia|].
  unfold covers at 1. destruct (Py.mem v (Minterm.get_values p)).
  - rewrite IH. simpl. lia.
  - apply IH.
Qed.

Lemma count_uses_one (v : Z) (last : option Minterm.t) :
  QM.count_uses prime_implicants v = (1%nat, last) ->
  exists m, last = Some m /\ filter (covers v) prime_implicants = [m].
Proof.
  intros C. unfold QM.count_uses in C.
  assert (L := count_uses_count v prime_implicants (0%nat, None)).
  rewrite C in L. simpl in L.
  destruct (filter (covers v) prime_implicants) as [|m [|m' l]] eqn:F;
    simpl in L; try lia.
  rewrite (count_uses_sole v prime_implicants m (0%nat, None) F) in C.
  exists m. split; [congruence | reflexivity].
Qed.

Lemma marks_inv (l : list Z) :
  forall values_used values_used',
    for_each (QM.mark values dont_cares) l values_used = ok values_used' ->
    forall i, nth_error values_used' i = Some true ->
              nth_error values_used i = Some true
              \/ exists v, In v l /\ Py.index v values = ok i.
Proof.
  induction l as [|x l IH]; intros u u' E i H; simpl in E.
  - injection E as <-. left. exact H.
  - bind_inv E as u1 E1. destruct (IH u1 u' E i H) as [H1|[v [Hv Ev]]].
    + unfold QM.mark in E1. destruct (Py.mem x dont_cares).
      * injection E1 as <-. left. exact H1.
      * bind_inv E1 as j Ej. apply set_item_inv in E1. destruct E1 as [G O].
        destruct (Nat.eq_dec i j) as [->|N].
        -- right. exists x. split; [left; reflexivity | exact Ej].
        -- left. rewrite <- (O i N). exact H1.
    + right. exists v. split; [right; exact Hv | exact Ev].
Qed.

Lemma essential_step_origin (st st' : list Minterm.t * list bool) (v : Z) :
  essential_origin values prime_implicants st -> In v values ->
  QM.essential_step values dont_cares prime_implicants st v = ok st' ->
  essential_origin values prime_implicants st'.
Proof.
  intros (I & D & S & M) Hv E. unfold QM.essential_step in E.
  destruct (QM.count_uses prime_implicants v) as [uses last] eqn:C.
  destruct (Nat.eqb_spec uses 1) as [->|N]; [|injection E as <-; repeat split; auto].
  destruct (count_uses_one v last C) as [m [-> F]].
  destruct (QM.contains (fst st) m) eqn:K;
    [injection E as <-; repeat split; auto|].
  bind_inv E as u Eu. injection E as <-. simpl.
  assert (Hm : In m prime_implicants).
  { assert (H : In m (filter (covers v) prime_implicants))
      by (rewrite F; left; reflexivity).
    apply filter_In in H. apply H. }
  repeat split.
  - apply incl_app; [exact I|]. intros x [<-|[]]. exact Hm.
  - apply distinct_snoc; assumption.
  - intros m' H. apply in_app_iff in H. destruct H as [H|[<-|[]]].
    + apply S. exact H.
    + exists v. split; assumption.
  - intros i H. destruct (marks_inv _ _ _ Eu i H) as [H1|[w [Hw Ew]]].
    + destruct (M i H1) as (m' & w & A & B & C').
      exists m', w. split; [apply in_or_app; left; exact A | split; assumption].
    + exists m, w.
      split; [apply in_or_app; right; left; reflexivity | split; assumption].
Qed.

Lemma essential_pass_origin (st : list Minterm.t * list bool) :
  QM.essential_pass values dont_cares prime_implicants = ok st ->
  essential_origin values prime_implicants st.
Proof.
  unfold QM.essential_pass.
  apply (for_each_inv _ (essential_origin values prime_implicants)
                      (fun v => In v values)).
  - intros s x s' Hs Hx E. eapply essential_step_origin; eassumption.
  - apply Forall_forall. auto.
  - repeat split; simpl.
    + intros x [].
    + intros m [].
    + intros i H. apply nth_error_In in H. apply repeat_spec in H. discriminate H.
Qed.

End EssentialOrigin.

(** X8: when the essential pass returns, every implicant it selected is a
    prime implicant and is the only prime implicant covering some true
    value, and no two selected implicants are equal. *)
Theorem essential_only_sole_covers
        (values dont_cares : list Z)
        (prime_implicants essential : list Minterm.t) (values_used : list bool)
        (Hpass : QM.essential_pass values dont_cares prime_implicants
                 = ok (essential, values_used)) :
  incl essential prime_implicants
  /\ distinct essential
  /\ forall m : Minterm.t,
       In m essential ->
       exists v : Z,
         In v values /\ filter (covers v) prime_implicants = [m].
Proof.
  apply essential_pass_origin in Hpass. destruct Hpass as (I & D & S & _).
  auto.
Qed.

Lemma essential_only_sole_covers_witness :
  incl [Minterm.mk [4; 5; 6; 7] "1--" false]
       [Minterm.mk [4; 5; 6; 7] "1--" false; Minterm.mk [2; 6] "-10" false]
  /\ distinct [Minterm.mk [4; 5; 6; 7] "1--" false]
  /\ forall m : Minterm.t,
       In m [Minterm.mk [4; 5; 6; 7] "1--" false] ->
       exists v : Z,
         In v [4; 5; 6; 7]
         /\ filter (covers v)
                   [Minterm.mk [4; 5; 6; 7] "1--" false;
                    Minterm.mk [2; 6] "-10" false] = [m].
Proof.
  apply (essential_only_sole_covers [4; 5; 6; 7] [2]
           [Minterm.mk [4; 5; 6; 7] "1--" false; Minterm.mk [2; 6] "-10" false]
           [Minterm.mk [4; 5; 6; 7] "1--" false] [true; true; true; true]).
  evaluate.
Defined.

(** ** What [__solve] returns *)

Section Solve.

Lemma power_set_nil (values : list Z) :
  QM.__power_set values [] = raise IndexError.
Proof. reflexivity. Qed.

Lemma power_set_incl (values : list Z) (pool result : list Minterm.t) :
  QM.__power_set values pool = ok result -> incl result pool.
Proof.
  destruct pool as [|p0 pool0] eqn:Ep.
  - rewrite power_set_nil. discriminate.
  - rewrite <- Ep.
    destruct (exists_last (l := pool)) as [others [p E]]; [congruence|].
    rewrite E, power_set_last. intros H. injection H as <-.
    intros x [<-|[]]. apply in_or_app. right. left. reflexivity.
Qed.

Lemma remaining_incl (dont_cares : list Z)
      (prime_implicants essential : list Minterm.t) :
  incl (QM.remaining dont_cares prime_implicants essential) prime_implicants.
Proof. intros x H. unfold QM.remaining in H. apply filter_In in H. apply H. Qed.

Lemma solve_from_incl (values dont_cares : list Z)
      (prime_implicants result : list Minterm.t) :
  QM.solve_from values dont_cares prime_implicants = ok result ->
  incl result prime_implicants.
Proof.
  unfold QM.solve_from. intros E. bind_inv E as [essential values_used] Ep.
  apply essential_pass_origin in Ep. destruct Ep as (I & _). simpl in I.
  destruct (_ =? 0)%nat; [injection E as <-; exact I|].
  destruct (_ =? 1)%nat.
  - injection E as <-. apply incl_app; [exact I | apply remaining_incl].
  - bind_inv E as cover Ec. injection E as <-.
    apply incl_app; [exact I|]. apply power_set_incl in Ec.
    eapply incl_tran; [exact Ec | apply remaining_incl].
Qed.

Lemma index_nth (v : Z) (l : list Z) :
  forall i, Py.index v l = ok i -> nth_error l i = Some v.
Proof.
  induction l as [|x l IH]; intros i E; simpl in E; [discriminate E|].
  destruct (Z.eqb_spec x v) as [->|N].
  - injection E as <-. reflexivity.
  - bind_inv E as j Ej. injection E as <-. simpl. apply IH. exact Ej.
Qed.

Lemma all_marked (values_used : list bool) :
  count_occ bool_dec values_used false = 0%nat ->
  forall i, (i < List.length values_used)%nat ->
            nth_error values_used i = Some true.
Proof.
  intros C i Hi. apply count_occ_not_In in C.
  destruct (nth_error values_used i) as [[|]|] eqn:E.
  - reflexivity.
  - exfalso. apply C. eapply nth_error_In. exact E.
  - apply nth_error_None in E. lia.
Qed.

End Solve.

(** X9: over a non-empty variable list and indices of the truth table,
    every implicant [__solve] returns is one of the prime implicants of the
    run, and its pattern matches no index of the truth table that is
    neither a true value nor a don't-care: the result is never true where
    the function is given as false. *)
Theorem solve_false_outside_given
        (variables : list string) (values dont_cares : list Z)
        (result : list Minterm.t)
        (Hvars : variables <> [])
        (Hrange : Forall (in_range variables) (values ++ dont_cares)%list)
        (Hsolve : QM.__solve variables values dont_cares = ok result) :
  exists (groups : list (list Minterm.t)) (prime_implicants : list Minterm.t),
    QM.__initial_group variables values dont_cares = ok groups
    /\ QM.__get_prime_implicants groups = ok prime_implicants
    /\ incl result prime_implicants
    /\ forall (m : Minterm.t) (x : Z),
         In m result -> in_range variables x ->
         matches (QM.__get_bits variables x) (Minterm.get_value m) = true ->
         In x (values ++ dont_cares)%list.
Proof.
  unfold QM.__solve in Hsolve.
  bind_inv Hsolve as groups Hg. bind_inv Hsolve as pis Hp.
  apply solve_from_incl in Hsolve.
  exists groups, pis. split; [exact Hg|]. split; [exact Hp|].
  split; [exact Hsolve|].
  intros m x Hm Hx M.
  assert (E := all_exact _ _ _ _ _ Hvars Hrange Hg Hp).
  assert (G := prime_implicants_cover_given _ _ _ _ _ Hg Hp).
  rewrite Forall_forall in E, G. specialize (Hsolve m Hm).
  apply (G m Hsolve). apply (E m Hsolve); assumption.
Qed.

Lemma solve_false_outside_given_witness :
  exists (groups : list (list Minterm.t)) (prime_implicants : list Minterm.t),
    QM.__initial_group ABC [0; 1; 2; 5; 6; 7] [] = ok groups
    /\ QM.__get_prime_implicants groups = ok prime_implicants
    /\ incl [Minterm.mk [6; 7] "11-" false] prime_implicants
    /\ forall (m : Minterm.t) (x : Z),
         In m [Minterm.mk [6; 7] "11-" false] -> in_range ABC x ->
         matches (QM.__get_bits ABC x) (Minterm.get_value m) = true ->
         In x ([0; 1; 2; 5; 6; 7] ++ [])%list.
Proof.
  apply (solve_false_outside_given ABC [0; 1; 2; 5; 6; 7] []
           [Minterm.mk [6; 7] "11-" false]).
  - discriminate.
  - repeat constructor; unfold in_range; simpl; lia.
  - evaluate.
Defined.

(** Marks come from essential implicants only. *)
Lemma essential_covers
        (variables : list string) (values dont_cares : list Z)
        (groups : list (list Minterm.t))
        (prime_implicants essential : list Minterm.t) (values_used : list bool)
        (Hvars : variables <> [])
        (Hrange : Forall (in_range variables) (values ++ dont_cares)%list)
        (Hgroups : QM.__initial_group variables values dont_cares = ok groups)
        (Hprime : QM.__get_prime_implicants groups = ok prime_implicants)
        (Hpass : QM.essential_pass values dont_cares prime_implicants
                 = ok (essential, values_used))
        (Hall : count_occ bool_dec values_used false = 0%nat) :
  QM.__solve variables values dont_cares = ok essential
  /\ forall v : Z,
       In v values ->
       exists m : Minterm.t,
         In m essential
         /\ In v (Minterm.get_values m)
         /\ matches (QM.__get_bits variables v) (Minterm.get_value m) = true.
Proof.
  split.
  - unfold QM.__solve. rewrite Hgroups. simpl. rewrite Hprime. simpl.
    unfold QM.solve_from. rewrite Hpass. simpl. rewrite Hall. reflexivity.
  - intros v Hv.
    assert (G := prime_implicants_cover_given _ _ _ _ _ Hgroups Hprime).
    destruct (essential_loop_ok values dont_cares prime_implicants G values
                ([], repeat false (List.length values)))
      as (st & E & [L _] & _).
    { split; simpl; [apply repeat_length | intros m []]. }
    unfold QM.essential_pass in Hpass. rewrite Hpass in E.
    injection E as <-. simpl in L.
    destruct (essential_pass_origin _ _ _ _ Hpass) as (I & _ & _ & M).
    simpl in I, M.
    destruct (index_In v values Hv) as [i [Ei Li]].
    destruct (M i (all_marked _ Hall i ltac:(lia))) as (m & w & Hm & Hw & Ew).
    apply index_nth in Ei. apply index_nth in Ew.
    assert (w = v) as -> by congruence.
    exists m. split; [exact Hm|]. split; [exact Hw|].
    assert (X := all_exact _ _ _ _ _ Hvars Hrange Hgroups Hprime).
    rewrite Forall_forall in X, Hrange.
    apply (X m (I m Hm)); [|exact Hw].
    apply Hrange. apply in_or_app. left. exact Hv.
Qed.

(** X10: over a non-empty variable list and indices of the truth table,
    if the essential pass leaves no true value unmarked then [__solve]
    returns the essential implicants, and every true value is covered by
    one of them and matches its pattern. *)
Theorem essential_result_true_at_values
        (variables : list string) (values dont_cares : list Z)
        (groups : list (list Minterm.t))
        (prime_implicants essential : list Minterm.t) (values_used : list bool)
        (Hvars : variables <> [])
        (Hrange : Forall (in_range variables) (values ++ dont_cares)%list)
        (Hgroups : QM.__initial_group variables values dont_cares = ok groups)
        (Hprime : QM.__get_prime_implicants groups = ok prime_implicants)
        (Hpass : QM.essential_pass values dont_cares prime_implicants
                 = ok (essential, values_used))
        (Hall : count_occ bool_dec values_used false = 0%nat) :
  QM.__solve variables values dont_cares = ok essential
  /\ forall v : Z,
       In v values ->
       exists m : Minterm.t,
         In m essential
         /\ In v (Minterm.get_values m)
         /\ matches (QM.__get_bits variables v) (Minterm.get_value m) = true.
Proof.
  exact (essential_covers _ _ _ _ _ _ _ Hvars Hrange Hgroups Hprime Hpass Hall).
Qed.

Lemma essential_result_true_at_values_witness :
  QM.__solve ABC [1; 3; 5; 7] [] = ok [Minterm.mk [1; 3; 5; 7] "--1" false]
  /\ forall v : Z,
       In v [1; 3; 5; 7] ->
       exists m : Minterm.t,
         In m [Minterm.mk [1; 3; 5; 7] "--1" false]
         /\ In v (Minterm.get_values m)
         /\ matches (QM.__get_bits ABC v) (Minterm.get_value m) = true.
Proof.
  apply (essential_result_true_at_values ABC [1; 3; 5; 7] []
           (buckets ABC [1; 3; 5; 7])
           [Minterm.mk [1; 3; 5; 7] "--1" false]
           [Minterm.mk [1; 3; 5; 7] "--1" false]
           [true; true; true; true]).
  - discriminate.
  - repeat constructor; unfold in_range; simpl; lia.
  - evaluate.
  - evaluate.
  - evaluate.
  - reflexivity.
Defined.

(** ** A candidate for every value the essential implicants miss *)

Section Candidates.

Variable variables : list string.
Variables values dont_cares : list Z.
Variable groups : list (list Minterm.t).
Variables prime_implicants essential : list Minterm.t.
Variable values_used : list bool.

Hypothesis Hdisjoint : forall v, In v values -> ~ In v dont_cares.
Hypothesis Hgroups :
  QM.__initial_group variables values dont_cares = ok groups.
Hypothesis Hprime : QM.__get_prime_implicants groups = ok prime_implicants.
Hypothesis Hpass :
  QM.essential_pass values dont_cares prime_implicants
  = ok (essential, values_used).

Lemma pass_invariant :
  essential_inv values dont_cares (essential, values_used).
Proof.
  assert (G := prime_implicants_cover_given _ _ _ _ _ Hgroups Hprime).
  destruct (essential_loop_ok values dont_cares prime_implicants G values
              ([], repeat false (List.length values)))
    as (st & E & Inv & _).
  { split; simpl; [apply repeat_length | intros m []]. }
  unfold QM.essential_pass in Hpass. rewrite Hpass in E.
  injection E as <-. exact Inv.
Qed.

Lemma index_NoDup (l : list Z) :
  NoDup l -> forall i v, nth_error l i = Some v -> Py.index v l = ok i.
Proof.
  induction 1 as [|x l Nx N IH]; intros i v E.
  - destruct i; discriminate E.
  - destruct i as [|i]; simpl in E |- *.
    + injection E as ->. rewrite Z.eqb_refl. reflexivity.
    + destruct (Z.eqb_spec x v) as [->|Ne].
      * exfalso. apply Nx. eapply nth_error_In. exact E.
      * rewrite (IH i v E). reflexivity.
Qed.

Lemma filter_filter_same {A : Type} (c g : A -> bool) (l : list A) :
  (forall x, In x l -> c x = true -> g x = true) ->
  filter c (filter g l) = filter c l.
Proof.
  induction l as [|x l IH]; intros H; simpl; [reflexivity|].
  destruct (c x) eqn:Cx.
  - rewrite (H x (or_introl eq_refl) Cx). simpl. rewrite Cx.
    f_equal. apply IH. intros y Hy. apply H. right. exact Hy.
  - destruct (g x); simpl; [rewrite Cx|];
      apply IH; intros y Hy; apply H; right; exact Hy.
Qed.

Lemma filter_shorter {A : Type} (c : A -> bool) (l : list A) :
  (List.length (filter c l) <= List.length l)%nat.
Proof.
  induction l as [|x l IH]; simpl; [lia|]. destruct (c x); simpl; lia.
Qed.

(** A true value left unmarked is covered by at least two candidates. *)
Lemma unmarked_has_two_candidates :
  NoDup values ->
  count_occ bool_dec values_used false <> 0%nat ->
  (2 <= List.length (QM.remaining dont_cares prime_implicants essential))%nat.
Proof.
  intros N C. destruct pass_invariant as [L M]. simpl in L, M.
  assert (Hf : In false values_used).
  { apply (count_occ_In bool_dec). lia. }
  apply In_nth_error in Hf. destruct Hf as [i Hi].
  assert (Li : (i < List.length values)%nat).
  { rewrite <- L. apply nth_error_Some. congruence. }
  destruct (nth_error values i) as [v|] eqn:Ev;
    [|apply nth_error_None in Ev; lia].
  assert (Hv : In v values) by (eapply nth_error_In; exact Ev).
  assert (Iv := index_NoDup values N i v Ev).
  assert (Unmarked : ~ satisfied values values_used v).
  { intros [j [Ej Gj]]. rewrite Iv in Ej. injection Ej as <-. congruence. }
  assert (Free : forall q, In q prime_implicants -> covers v q = true ->
                           In q (QM.remaining dont_cares prime_implicants
                                              essential)).
  { intros q Hq Cq. apply mem_In in Cq.
    unfold QM.remaining. apply filter_In. split; [exact Hq|].
    destruct (QM.contains essential q) eqn:K.
    - exfalso. apply Unmarked. unfold QM.contains in K.
      apply existsb_exists in K. destruct K as [e [He E]].
      apply eq_spec in E. destruct E as [_ E].
      apply (M e He v); [rewrite E; exact Cq | apply mem_false, Hdisjoint, Hv].
    - simpl. apply Nat.ltb_lt.
      assert (H : In v (filter (fun value => negb (Py.mem value dont_cares))
                               (Minterm.get_values q))).
      { apply filter_In. split; [exact Cq|].
        apply negb_true_iff, mem_false, Hdisjoint, Hv. }
      destruct (filter _ (Minterm.get_values q)); [contradiction | simpl; lia]. }
  assert (Same : filter (covers v)
                        (QM.remaining dont_cares prime_implicants essential)
                 = filter (covers v) prime_implicants).
  { unfold QM.remaining. apply filter_filter_same. intros q Hq Cq.
    specialize (Free q Hq Cq). unfold QM.remaining in Free.
    apply filter_In in Free. apply Free. }
  assert (Len := filter_shorter (covers v)
                   (QM.remaining dont_cares prime_implicants essential)).
  rewrite Same in Len.
  destruct (filter (covers v) prime_implicants) as [|m [|m' l]] eqn:F.
  - exfalso.
    destruct (every_index_covered _ _ _ _ _ Hgroups Hprime v) as [p [Hp Cp]];
      [apply in_or_app; left; exact Hv|].
    assert (H : In p (filter (covers v) prime_implicants))
      by (apply filter_In; split; [exact Hp | apply mem_In; exact Cp]).
    rewrite F in H. contradiction.
  - exfalso. apply Unmarked.
    assert (G := prime_implicants_cover_given _ _ _ _ _ Hgroups Hprime).
    destruct (essential_pass_ok values dont_cares prime_implicants G)
      as (e' & u' & E' & H').
    rewrite Hpass in E'. injection E' as <- <-.
    destruct (H' v m Hv F) as [_ Marks]. apply Marks.
    + assert (H : In m (filter (covers v) prime_implicants))
        by (rewrite F; left; reflexivity).
      apply filter_In in H. apply mem_In. apply H.
    + apply Hdisjoint, Hv.
  - simpl in Len. lia.
Qed.

End Candidates.

(** ** Valid inputs *)

Section ValidInput.

Variable variables : list string.
Variables values dont_cares : list Z.
Hypothesis Hvalid : valid_input variables values dont_cares.

Lemma valid_groups :
  QM.__initial_group variables values dont_cares
  = ok (buckets variables (values ++ dont_cares)%list).
Proof.
  destruct Hvalid as (Hvars & Hrange & _). apply initial_group_returns; assumption.
Qed.

Lemma valid_prime_implicants :
  exists prime_implicants,
    QM.__get_prime_implicants (buckets variables (values ++ dont_cares)%list)
    = ok prime_implicants.
Proof.
  destruct Hvalid as (Hvars & Hrange & _). rewrite Forall_forall in Hrange.
  apply (get_prime_implicants_rec_returns (List.length variables)).
  - apply Forall_forall. intros g Hg. unfold buckets in Hg.
    apply in_map_iff in Hg. destruct Hg as [k [<- _]].
    apply Forall_forall. intros m Hm. unfold bucket in Hm.
    apply in_map_iff in Hm. destruct Hm as [v [<- Hv]].
    apply filter_In in Hv. simpl. apply get_bits_length; [exact Hvars|].
    apply Hrange, Hv.
  - rewrite buckets_length. lia.
Qed.

(** What [__solve] does on a valid input. *)
Lemma solve_valid :
  exists (prime_implicants essential : list Minterm.t) (values_used : list bool),
    QM.__get_prime_implicants (buckets variables (values ++ dont_cares)%list)
    = ok prime_implicants
    /\ QM.essential_pass values dont_cares prime_implicants
       = ok (essential, values_used)
    /\ (count_occ bool_dec values_used false = 0%nat ->
        QM.__solve variables values dont_cares = ok essential)
    /\ (count_occ bool_dec values_used false <> 0%nat ->
        exists (others : list Minterm.t) (p : Minterm.t),
          QM.remaining dont_cares prime_implicants essential
          = (others ++ [p])%list
          /\ others <> []
          /\ QM.__solve variables values dont_cares = ok (essential ++ [p])%list).
Proof.
  destruct valid_prime_implicants as [pis Hp].
  assert (Hg := valid_groups).
  assert (G := prime_implicants_cover_given _ _ _ _ _ Hg Hp).
  destruct (essential_pass_ok values dont_cares pis G) as (ess & used & E & _).
  exists pis, ess, used. split; [exact Hp|]. split; [exact E|].
  assert (Unfold : QM.__solve variables values dont_cares
                   = QM.solve_from values dont_cares pis).
  { unfold QM.__solve. rewrite Hg. simpl. rewrite Hp. reflexivity. }
  rewrite Unfold. unfold QM.solve_from. rewrite E. simpl. split.
  - intros C. rewrite C. reflexivity.
  - intros C. destruct Hvalid as (_ & _ & N & D).
    assert (Two := unmarked_has_two_candidates variables values dont_cares _
                     pis ess used D Hg Hp E N C).
    destruct (exists_last (l := QM.remaining dont_cares pis ess))
      as [others [p R]].
    { intros Z. rewrite Z in Two. simpl in Two. lia. }
    exists others, p. split; [exact R|].
    rewrite R in Two |- *. rewrite length_app in Two. simpl in Two. split.
    + intros Z. subst others. simpl in Two. lia.
    + destruct (Nat.eqb_spec (count_occ bool_dec used false) 0); [contradiction|].
      rewrite length_app. simpl.
      destruct (Nat.eqb_spec (List.length others + 1) 1); [lia|].
      rewrite power_set_last. reflexivity.
Qed.

End ValidInput.

(** X11: for a valid input [__solve] returns.  It returns the essential
    implicants when they leave no true value unmarked.  Otherwise at least
    two candidates remain, so the single-candidate return is never taken,
    and it returns the essential implicants followed by the last
    candidate. *)
Theorem solve_on_valid_input
        (variables : list string) (values dont_cares : list Z)
        (Hvalid : valid_input variables values dont_cares) :
  exists (prime_implicants essential : list Minterm.t) (values_used : list bool),
    QM.__get_prime_implicants (buckets variables (values ++ dont_cares)%list)
    = ok prime_implicants
    /\ QM.essential_pass values dont_cares prime_implicants
       = ok (essential, values_used)
    /\ (count_occ bool_dec values_used false = 0%nat ->
        QM.__solve variables values dont_cares = ok essential)
    /\ (count_occ bool_dec values_used false <> 0%nat ->
        exists (others : list Minterm.t) (p : Minterm.t),
          QM.remaining dont_cares prime_implicants essential
          = (others ++ [p])%list
          /\ others <> []
          /\ QM.__solve variables values dont_cares = ok (essential ++ [p])%list).
Proof. exact (solve_valid variables values dont_cares Hvalid). Qed.

Lemma solve_on_valid_input_witness :
  exists result, QM.__solve ABC [0; 1; 2; 5; 6; 7] [] = ok result.
Proof.
  destruct (solve_on_valid_input ABC [0; 1; 2; 5; 6; 7] [])
    as (pis & ess & used & _ & _ & A & B).
  - repeat split.
    + discriminate.
    + repeat constructor; unfold in_range; simpl; lia.
    + repeat constructor; simpl; intuition lia.
    + intros v _ [].
  - destruct (Nat.eq_dec (count_occ bool_dec used false) 0) as [C|C].
    + eexists. exact (A C).
    + destruct (B C) as (others & p & _ & _ & S). eexists. exact S.
Defined.

(** ** [__get_function] returns *)

Section RenderReturns.

Variable variables : list string.
Variable is_maxterm : bool.

Lemma for_each_returns {A S : Type} (body : S -> A -> result S) (l : list A) :
  (forall s x, In x l -> exists s', body s x = ok s') ->
  forall s, exists s', for_each body l s = ok s'.
Proof.
  induction l as [|x l IH]; intros H s; simpl.
  - eexists. reflexivity.
  - destruct (H s x (or_introl eq_refl)) as [s1 ->]. simpl.
    apply IH. intros s2 y Hy. apply H. right. exact Hy.
Qed.

Lemma get_some (s : string) :
  forall i, (i < String.length s)%nat -> exists c, String.get i s = Some c.
Proof.
  induction s as [|c s IH]; intros i H; simpl in H; [lia|].
  destruct i as [|i]; simpl; [eexists; reflexivity | apply IH; lia].
Qed.

Lemma render_bit_returns (value result_ : string) (i : nat) :
  (i < String.length value)%nat ->
  (String.length value <= List.length variables)%nat ->
  exists r, QM.render_bit variables is_maxterm value result_ i = ok r.
Proof.
  intros Hi Hl. unfold QM.render_bit.
  destruct (get_some value i Hi) as [c ->].
  destruct (nth_error variables i) as [name|] eqn:N;
    [|apply nth_error_None in N; lia].
  destruct (Ascii.eqb c "-"); simpl; destruct (_ && _); eexists; reflexivity.
Qed.

Lemma render_implicant_returns (count : nat) (result_ : string)
      (entry : nat * Minterm.t) :
  (String.length (Minterm.get_value (snd entry)) <= List.length variables)%nat ->
  exists r, QM.render_implicant variables is_maxterm count result_ entry = ok r.
Proof.
  destruct entry as [j implicant]. simpl. intros Hl.
  unfold QM.render_implicant.
  match goal with
  | |- context [for_each ?b ?l ?s0] =>
      assert (F : exists r2, for_each b l s0 = ok r2)
  end.
  { apply for_each_returns. intros s i Hi. apply in_seq in Hi.
    apply render_bit_returns; [lia | exact Hl]. }
  destruct F as [r2 ->]. simpl. destruct (_ <? _)%nat; eexists; reflexivity.
Qed.

Lemma render_returns_lemma (prime_implicants : list Minterm.t) :
  Forall (fun m => (String.length (Minterm.get_value m)
                    <= List.length variables)%nat) prime_implicants ->
  exists s, QM.render variables is_maxterm prime_implicants = ok s.
Proof.
  intros H. unfold QM.render. destruct prime_implicants as [|first others].
  - eexists. reflexivity.
  - destruct (_ && _); [eexists; reflexivity|].
    apply for_each_returns. intros s [j m] Hx.
    apply render_implicant_returns. simpl.
    apply in_combine_r in Hx. rewrite Forall_forall in H. apply H. exact Hx.
Qed.

End RenderReturns.

(** X12: for a valid input the constructor returns an instance, in either
    mode: no exception escapes. *)
Theorem constructor_returns_on_valid_input
        (variables : list string) (values : list Z)
        (dont_cares : option (list Z)) (is_maxterm : bool)
        (Hvalid : valid_input variables values
                    (match dont_cares with None => [] | Some d => d end)) :
  exists q : QM.t,
    QM.__init__ variables values dont_cares is_maxterm = ok q.
Proof.
  set (dcs := match dont_cares with None => [] | Some d => d end) in *.
  assert (R : exists result, QM.__solve variables values dcs = ok result).
  { destruct (solve_valid variables values dcs Hvalid)
      as (pis & ess & used & _ & _ & A & B).
    destruct (Nat.eq_dec (count_occ bool_dec used false) 0) as [C|C].
    - eexists. exact (A C).
    - destruct (B C) as (others & p & _ & _ & S). eexists. exact S. }
  destruct R as [result S].
  assert (L : Forall (fun m => (String.length (Minterm.get_value m)
                                <= List.length variables)%nat) result).
  { destruct Hvalid as (Hvars & Hrange & _).
    pose proof S as S'. unfold QM.__solve in S'.
    bind_inv S' as groups Hg. bind_inv S' as pis Hp.
    apply solve_from_incl in S'.
    assert (X := all_exact _ _ _ _ _ Hvars Hrange Hg Hp).
    rewrite Forall_forall in X. apply Forall_forall. intros m Hm.
    destruct (X m (S' m Hm)) as [Len _]. lia. }
  destruct (render_returns_lemma variables is_maxterm result L) as [s Hs].
  unfold QM.__init__. fold dcs. unfold QM.__get_function.
  rewrite S. simpl. rewrite Hs. simpl. eexists. reflexivity.
Qed.

Lemma constructor_returns_on_valid_input_witness :
  exists q : QM.t,
    QM.__init__ ABC [0; 1; 2; 5] (Some [7]) true = ok q.
Proof.
  apply constructor_returns_on_valid_input. repeat split.
  - discriminate.
  - repeat constructor; unfold in_range; simpl; lia.
  - repeat constructor; simpl; intuition lia.
  - simpl. intuition lia.
Defined.

(** ** The order of the operands of [combine] *)

Section CombineSymmetry.

Lemma sorted_perm_eq (l1 : list Z) :
  forall l2, Sorted Z.le l1 -> Sorted Z.le l2 -> Permutation l1 l2 -> l1 = l2.
Proof.
  intros l2 S1 S2.
  apply Sorted_StronglySorted in S1; [|intros a b c; apply Z.le_trans].
  apply Sorted_StronglySorted in S2; [|intros a b c; apply Z.le_trans].
  revert l2 S2. induction S1 as [|a l1 S1 IH F1]; intros l2 S2 P.
  - apply Permutation_nil in P. congruence.
  - destruct S2 as [|b l2 S2 F2].
    + apply Permutation_sym, Permutation_nil in P. discriminate P.
    + rewrite Forall_forall in F1, F2.
      assert (a = b) as ->.
      { assert (Ha : In a (b :: l2))
          by (eapply Permutation_in; [exact P | left; reflexivity]).
        assert (Hb : In b (a :: l1))
          by (eapply Permutation_in;
              [apply Permutation_sym; exact P | left; reflexivity]).
        destruct Ha as [Ha|Ha]; [congruence|].
        destruct Hb as [Hb|Hb]; [congruence|].
        apply F2 in Ha. apply F1 in Hb. lia. }
      f_equal. apply IH; [exact S2|]. eapply Permutation_cons_inv. exact P.
Qed.

Lemma sort_perm_eq (l1 l2 : list Z) :
  Permutation l1 l2 -> Py.sort l1 = Py.sort l2.
Proof.
  intros P. apply sorted_perm_eq; try apply sort_sorted.
  eapply perm_trans; [apply sort_perm|].
  eapply perm_trans; [exact P | apply Permutation_sym, sort_perm].
Qed.

Lemma list_eqb_sym (l1 l2 : list Z) : Py.list_eqb l1 l2 = Py.list_eqb l2 l1.
Proof.
  revert l2. induction l1 as [|x l1 IH]; intros [|y l2]; simpl; try reflexivity.
  rewrite Z.eqb_sym, IH. reflexivity.
Qed.

Lemma differences_sym (s1 : string) :
  forall s2, differences s1 s2 = differences s2 s1.
Proof.
  induction s1 as [|c s1 IH]; intros [|d s2]; simpl; try reflexivity.
  rewrite Ascii.eqb_sym, IH. reflexivity.
Qed.

Lemma merge_sym (s1 : string) : forall s2, merge s1 s2 = merge s2 s1.
Proof.
  induction s1 as [|c s1 IH]; intros [|d s2]; simpl; try reflexivity.
  rewrite IH. destruct (Ascii.eqb_spec c d) as [->|N].
  - rewrite Ascii.eqb_refl. reflexivity.
  - destruct (Ascii.eqb_spec d c); [congruence | reflexivity].
Qed.

End CombineSymmetry.

(** X13: on patterns of one length [combine] does not depend on the order
    of its operands: both calls return nothing, or both return the same
    new term. *)
Theorem combine_commutative
        (self minterm : Minterm.t)
        (Hlen : String.length (Minterm._value self)
                = String.length (Minterm._value minterm)) :
  Minterm.combine self minterm = Minterm.combine minterm self.
Proof.
  rewrite (combine_eq self minterm Hlen).
  rewrite (combine_eq minterm self (eq_sym Hlen)).
  rewrite list_eqb_sym, differences_sym, merge_sym.
  unfold Minterm.__init__.
  rewrite (sort_perm_eq (Minterm._values self ++ Minterm._values minterm)%list
                        (Minterm._values minterm ++ Minterm._values self)%list)
    by apply Permutation_app_comm.
  reflexivity.
Qed.

Lemma combine_commutative_witness :
  Minterm.combine (Minterm.__init__ [2; 3] "01-") (Minterm.__init__ [0; 1] "00-")
  = Minterm.combine (Minterm.__init__ [0; 1] "00-") (Minterm.__init__ [2; 3] "01-").
Proof. apply combine_commutative. reflexivity. Defined.

(** ** The cover test of [__power_set] *)

Section CoverTest.

Variable values : list Z.

Lemma gather_values (l : list Z) :
  forall temp,
    NoDup temp ->
    NoDup (fold_left
             (fun temp value =>
                if negb (Py.mem value temp) && Py.mem value values
                then (temp ++ [value])%list else temp) l temp)
    /\ forall x,
         In x (fold_left
                 (fun temp value =>
                    if negb (Py.mem value temp) && Py.mem value values
                    then (temp ++ [value])%list else temp) l temp)
         <-> In x temp \/ (In x l /\ In x values).
Proof.
  induction l as [|v l IH]; intros temp N; simpl.
  - split; [exact N|]. intros x. tauto.
  - destruct (Py.mem v temp) eqn:Mt; simpl.
    + destruct (IH temp N) as [N' E]. split; [exact N'|].
      intros x. rewrite E. apply mem_In in Mt.
      intuition (subst; tauto).
    + apply mem_false in Mt. destruct (Py.mem v values) eqn:Mv.
      * assert (N1 : NoDup (temp ++ [v])%list).
        { apply NoDup_app; [exact N | repeat constructor; intros [] |].
          intros x Hx [<-|[]]. contradiction. }
        destruct (IH _ N1) as [N' E]. split; [exact N'|].
        intros x. rewrite E, in_app_iff. apply mem_In in Mv. simpl.
        intuition (subst; tauto).
      * destruct (IH temp N) as [N' E]. split; [exact N'|].
        intros x. rewrite E. apply mem_false in Mv.
        intuition (subst; tauto).
Qed.

Lemma gather_subset (subset : list Minterm.t) :
  forall temp,
    NoDup temp ->
    let temp' :=
      fold_left
        (fun temp implicant =>
           fold_left
             (fun temp value =>
                if negb (Py.mem value temp) && Py.mem value values
                then (temp ++ [value])%list else temp)
             (Minterm.get_values implicant) temp)
        subset temp in
    NoDup temp'
    /\ forall x,
         In x temp'
         <-> In x temp
             \/ (In x values
                 /\ exists m, In m subset /\ In x (Minterm.get_values m)).
Proof.
  induction subset as [|m subset IH]; intros temp N; simpl.
  - split; [exact N|]. intros x. split; [tauto|].
    intros [H|[_ [m [[] _]]]]. exact H.
  - destruct (gather_values (Minterm.get_values m) temp N) as [N1 E1].
    destruct (IH _ N1) as [N2 E2]. split; [exact N2|].
    intros x. rewrite E2, E1. split.
    + intros [[H|[H Hv]]|[Hv [m' [Hm' Hx]]]].
      * left. exact H.
      * right. split; [exact Hv|]. exists m. auto.
      * right. split; [exact Hv|]. exists m'. auto.
    + intros [H|[Hv [m' [[<-|Hm'] Hx]]]].
      * left. left. exact H.
      * left. right. auto.
      * right. split; [exact Hv|]. exists m'. auto.
Qed.

Lemma temp_values_spec (subset : list Minterm.t) :
  Sorted Z.le (QM.temp_values values subset)
  /\ NoDup (QM.temp_values values subset)
  /\ forall x,
       In x (QM.temp_values values subset)
       <-> In x values
           /\ exists m, In m subset /\ In x (Minterm.get_values m).
Proof.
  unfold QM.temp_values.
  destruct (gather_subset subset [] (NoDup_nil _)) as [N E].
  split; [apply sort_sorted|]. split.
  - eapply Permutation_NoDup; [apply Permutation_sym, sort_perm | exact N].
  - intros x. rewrite sort_In, E. simpl. tauto.
Qed.

End CoverTest.

(** X14: a subset passes the cover test of [__power_set] exactly when the
    list of wanted values is ascending and free of repetition and every
    wanted value is covered by a member of the subset. *)
Theorem cover_test_iff (values : list Z) (subset : list Minterm.t) :
  Py.list_eqb (QM.temp_values values subset) values = true
  <-> Sorted Z.le values
      /\ NoDup values
      /\ forall v : Z,
           In v values ->
           exists m : Minterm.t, In m subset /\ In v (Minterm.get_values m).
Proof.
  destruct (temp_values_spec values subset) as (S & N & E).
  rewrite list_eqb_eq. split.
  - intros H. rewrite H in S, N, E. split; [exact S|]. split; [exact N|].
    intros v Hv. apply E. exact Hv.
  - intros (S' & N' & C). apply sorted_nodup_ext; try assumption.
    intros x. rewrite E. split; [tauto|]. intros Hx. split; [exact Hx | auto].
Qed.

(** ** What [__get_function] prints *)

Section PrintedForm.

Variable is_maxterm : bool.

Lemma string_app_assoc (a b c : string) :
  ((a ++ b) ++ c)%string = (a ++ (b ++ c))%string.
Proof.
  induction a as [|x a IH]; simpl; [reflexivity | rewrite IH; reflexivity].
Qed.

Lemma literals_none (value : string) :
  forall variables : list string,
    (String.length value <= List.length variables)%nat ->
    (printed_literals is_maxterm value variables = []
     <-> Py.count "-" value = String.length value).
Proof.
  induction value as [|c rest IH]; intros [|name names] L; simpl in L |- *;
    try lia; try tauto.
  assert (B := count_le_length "-" rest).
  destruct (Ascii.eqb c "-").
  - rewrite (IH names) by lia. lia.
  - split; [discriminate | lia].
Qed.

Lemma concat_cons (sep x : string) (l : list string) :
  String.concat sep (x :: l)
  = match l with
    | [] => x
    | _ => (x ++ sep ++ String.concat sep l)%string
    end.
Proof. destruct l; reflexivity. Qed.

Lemma bits_loop (value : string) :
  forall (variables : list string) (result_ : string),
    (String.length value <= List.length variables)%nat ->
    for_each (QM.render_bit variables is_maxterm value)
             (seq 0 (String.length value)) result_
    = ok (result_
          ++ String.concat (if is_maxterm then " OR " else " AND ")
                           (printed_literals is_maxterm value variables))%string.
Proof.
  induction value as [|c rest IH]; intros [|name names] result_ L;
    simpl in L; try lia.
  - simpl. rewrite append_empty_r. reflexivity.
  - simpl. rewrite append_empty_r. reflexivity.
  - cbn [String.length seq for_each]. rewrite <- seq_shift.
    assert (Head :
      QM.render_bit (name :: names) is_maxterm (String c rest) result_ 0
      = ok (if Ascii.eqb c "-" then result_
            else (result_ ++ printed_literal is_maxterm c name
                  ++ (if (Py.count "-" rest <? String.length rest)%nat
                      then (if is_maxterm then " OR " else " AND ")
                      else ""))%string)).
    { unfold QM.render_bit, printed_literal. cbn [String.get nth_error].
      replace (Py.slice_from (0 + 1) (String c rest)) with rest by reflexivity.
      replace (String.length (String c rest) - 0 - 1)%nat
        with (String.length rest) by (simpl; lia).
      destruct (Ascii.eqb_spec c "-") as [->|N].
      - destruct is_maxterm; simpl; rewrite andb_false_r; reflexivity.
      - cbn [bind ok negb]. rewrite andb_true_r.
        destruct (Ascii.eqb c (if is_maxterm then "1" else "0")%char),
          (Py.count "-" rest <? String.length rest)%nat;
          cbn [bind ok]; rewrite ?string_app_assoc, ?append_empty_r;
          reflexivity. }
    rewrite Head. cbn [bind ok]. rewrite for_each_map.
    cbn [printed_literals].
    assert (Tail : forall r,
      for_each
        (fun s x => QM.render_bit (name :: names) is_maxterm (String c rest) s (S x))
        (seq 0 (String.length rest)) r
      = ok (r ++ String.concat (if is_maxterm then " OR " else " AND ")
                               (printed_literals is_maxterm rest names))%string).
    { intros r. apply (IH names r). lia. }
    rewrite Tail. f_equal.
    destruct (Ascii.eqb c "-"); [reflexivity|].
    rewrite concat_cons.
    assert (None_ := literals_none rest names ltac:(lia)).
    assert (B := count_le_length "-" rest).
    destruct (printed_literals is_maxterm rest names) as [|y l].
    + destruct (Nat.ltb_spec (Py.count "-" rest) (String.length rest)) as [H|H].
      * exfalso. assert (Py.count "-" rest = String.length rest)
          by (apply None_; reflexivity). lia.
      * simpl. rewrite !append_empty_r. reflexivity.
    + destruct (Nat.ltb_spec (Py.count "-" rest) (String.length rest)) as [H|H].
      * rewrite !string_app_assoc. reflexivity.
      * exfalso. assert (y :: l = []) by (apply None_; lia). discriminate.
Qed.

Variable variables : list string.

Lemma implicant_step (count j : nat) (result_ : string) (m : Minterm.t) :
  (String.length (Minterm.get_value m) <= List.length variables)%nat ->
  QM.render_implicant variables is_maxterm count result_ (j, m)
  = ok (result_ ++ printed_clause variables is_maxterm m
        ++ (if (j <? count - 1)%nat
            then (if is_maxterm then " AND " else " OR ") else ""))%string.
Proof.
  intros L. unfold QM.render_implicant, printed_clause.
  rewrite bits_loop by exact L. cbn [bind ok].
  destruct (Py.count "-" (Minterm.get_value m) <? List.length variables)%nat,
    (j <? count - 1)%nat;
    rewrite ?string_app_assoc, ?append_empty_r; reflexivity.
Qed.

Lemma implicants_loop (count : nat) (l : list Minterm.t) :
  forall (a : nat) (result_ : string),
    Forall (fun m => (String.length (Minterm.get_value m)
                      <= List.length variables)%nat) l ->
    (a + List.length l = count)%nat ->
    for_each (QM.render_implicant variables is_maxterm count)
             (List.combine (seq a (List.length l)) l) result_
    = ok (result_
          ++ String.concat (if is_maxterm then " AND " else " OR ")
                           (map (printed_clause variables is_maxterm) l))%string.
Proof.
  induction l as [|m l IH]; intros a result_ H E.
  - simpl. rewrite append_empty_r. reflexivity.
  - inversion H as [|? ? Hm Hl]; subst.
    cbn [List.length seq List.combine for_each map].
    rewrite implicant_step by exact Hm. cbn [bind ok].
    rewrite (IH (S a)) by (assumption || (simpl in *; lia)).
    f_equal. rewrite concat_cons. simpl List.length.
    destruct l as [|m' l'].
    + simpl. replace (a <? a + 1 - 1)%nat with false
        by (symmetry; apply Nat.ltb_ge; lia).
      rewrite !append_empty_r. reflexivity.
    + replace (a <? a + S (List.length (m' :: l')) - 1)%nat with true
        by (symmetry; apply Nat.ltb_lt; simpl; lia).
      cbn [map]. rewrite !string_app_assoc. reflexivity.
Qed.

Lemma render_eq (prime_implicants : list Minterm.t) :
  Forall (fun m => (String.length (Minterm.get_value m)
                    <= List.length variables)%nat) prime_implicants ->
  QM.render variables is_maxterm prime_implicants
  = ok (printed_expression variables is_maxterm prime_implicants).
Proof.
  intros H. unfold QM.render, printed_expression.
  destruct prime_implicants as [|first others]; [reflexivity|].
  destruct (_ && _); [reflexivity|].
  rewrite (implicants_loop (List.length (first :: others)) (first :: others)
             0 EmptyString H eq_refl).
  reflexivity.
Qed.

End PrintedForm.

(** X15: when no pattern is longer than the variable list, the printed
    expression is [0] for no implicant, [1] for a single implicant with as
    many dashes as variables, and otherwise the clauses of the implicants
    joined by the clause joiner of the mode; a clause is the literals of
    the positions that are no dash, joined by the literal joiner, with no
    joiner after the last one, and in parentheses unless the pattern has as
    many dashes as there are variables. *)
Theorem render_printed_form
        (variables : list string) (is_maxterm : bool)
        (prime_implicants : list Minterm.t)
        (Hlen : Forall (fun m => (String.length (Minterm.get_value m)
                                  <= List.length variables)%nat)
                       prime_implicants) :
  QM.render variables is_maxterm prime_implicants
  = ok (printed_expression variables is_maxterm prime_implicants).
Proof. exact (render_eq is_maxterm variables prime_implicants Hlen). Qed.

Lemma render_printed_form_witness :
  QM.render ABC false
    [Minterm.mk [1; 3] "0-1" false; Minterm.mk [6; 7] "11-" false]
  = ok "(NOT A AND C) OR (A AND B)".
Proof.
  apply (render_printed_form ABC false
           [Minterm.mk [1; 3] "0-1" false; Minterm.mk [6; 7] "11-" false]).
  repeat constructor.
Defined.

(** ** Reading back what was printed *)

Section Parser.

Lemma atom_reads_and (b : list Expr.token) (e : Expr.t) :
  reads_atom b e -> reads_and b e.
Proof.
  intros A f rest F N. destruct f as [|f]; [lia|]. simpl.
  rewrite A by lia.
  destruct rest as [|[| | | | |w] rest]; try reflexivity. contradiction.
Qed.

Lemma and_reads_or (b : list Expr.token) (e : Expr.t) :
  reads_and b e -> reads_or b e.
Proof.
  intros A f rest F N O. destruct f as [|f]; [lia|]. simpl.
  rewrite A by (lia || assumption).
  destruct rest as [|[| | | | |w] rest]; try reflexivity. contradiction.
Qed.

Lemma join_length (sep : Expr.token) (b : list Expr.token)
      (bs : list (list Expr.token)) :
  bs <> [] ->
  join_tokens sep (b :: bs) = (b ++ sep :: join_tokens sep bs)%list.
Proof. destruct bs; [congruence | reflexivity]. Qed.

Lemma and_join (blocks : list (list Expr.token)) :
  forall es : list Expr.t,
    blocks <> [] -> Forall2 reads_atom blocks es ->
    reads_and (join_tokens Expr.AND blocks) (chain Expr.And es).
Proof.
  induction blocks as [|b bs IH]; intros es Hne H; [congruence|].
  inversion H as [|? e ? es' Hb Hbs]; subst.
  destruct bs as [|b' bs'].
  - inversion Hbs; subst. simpl. apply atom_reads_and. exact Hb.
  - assert (R := IH es' ltac:(discriminate) Hbs).
    inversion Hbs as [|? e' ? es'' _ _]; subst.
    rewrite join_length by discriminate.
    intros f rest F N. destruct f as [|f]; [lia|].
    rewrite length_app in F. cbn [List.length] in F.
    cbn [Expr.parse_and]. rewrite <- app_assoc. rewrite Hb by lia.
    cbn [app]. rewrite R by (lia || assumption).
    reflexivity.
Qed.

Lemma or_join (blocks : list (list Expr.token)) :
  forall es : list Expr.t,
    blocks <> [] -> Forall2 reads_and blocks es ->
    reads_or (join_tokens Expr.OR blocks) (chain Expr.Or es).
Proof.
  induction blocks as [|b bs IH]; intros es Hne H; [congruence|].
  inversion H as [|? e ? es' Hb Hbs]; subst.
  destruct bs as [|b' bs'].
  - inversion Hbs; subst. simpl. apply and_reads_or. exact Hb.
  - assert (R := IH es' ltac:(discriminate) Hbs).
    inversion Hbs as [|? e' ? es'' _ _]; subst.
    rewrite join_length by discriminate.
    intros f rest F N O. destruct f as [|f]; [lia|].
    rewrite length_app in F. cbn [List.length] in F.
    cbn [Expr.parse_or]. rewrite <- app_assoc. rewrite Hb by (lia || exact I).
    cbn [app]. rewrite R by (lia || assumption).
    reflexivity.
Qed.

Lemma paren_reads_atom (b : list Expr.token) (e : Expr.t) :
  reads_or b e ->
  reads_atom (Expr.LPAREN :: b ++ [Expr.RPAREN])%list e.
Proof.
  intros R f rest F. destruct f as [|f]; [simpl in F; lia|].
  cbn [List.length] in F. rewrite length_app in F. cbn [List.length] in F.
  cbn [app Expr.parse_atom]. rewrite <- app_assoc. cbn [app].
  rewrite R by (lia || exact I). reflexivity.
Qed.

Lemma literal_reads_atom (is_maxterm : bool) (c : ascii) (name : string) :
  Expr.atom name = Expr.Var name ->
  reads_atom (literal_tokens is_maxterm c name) (literal_ast is_maxterm c name).
Proof.
  intros Hn f rest F. unfold literal_tokens, literal_ast in *.
  destruct (Ascii.eqb c _).
  - destruct f as [|[|f]]; simpl in F; try lia. simpl. rewrite Hn. reflexivity.
  - destruct f as [|f]; simpl in F; try lia. simpl. rewrite Hn. reflexivity.
Qed.

End Parser.

Section Scanner.

Lemma tokenize_scan (s : string) :
  forall word tokens,
    Expr.tokenize s word tokens
    = Expr.flush (fst (scan s word tokens)) (snd (scan s word tokens)).
Proof.
  induction s as [|c s IH]; intros word tokens; simpl; [reflexivity|].
  destruct (Ascii.eqb c " "); [apply IH|].
  destruct (Ascii.eqb c "("); [apply IH|].
  destruct (Ascii.eqb c ")"); apply IH.
Qed.

Lemma scan_app (s1 s2 : string) :
  forall word tokens,
    scan (s1 ++ s2) word tokens
    = scan s2 (fst (scan s1 word tokens)) (snd (scan s1 word tokens)).
Proof.
  induction s1 as [|c s1 IH]; intros word tokens; simpl; [reflexivity|].
  destruct (Ascii.eqb c " "); [apply IH|].
  destruct (Ascii.eqb c "("); [apply IH|].
  destruct (Ascii.eqb c ")"); apply IH.
Qed.

Lemma scan_plain (s : string) :
  forall word tokens,
    plain_chars s = true -> scan s word tokens = ((word ++ s)%string, tokens).
Proof.
  induction s as [|c s IH]; intros word tokens H; simpl.
  - rewrite append_empty_r. reflexivity.
  - simpl in H. apply andb_true_iff in H. destruct H as [Hc H].
    unfold plain_char in Hc. apply negb_true_iff in Hc.
    apply orb_false_iff in Hc. destruct Hc as [Hc H3].
    apply orb_false_iff in Hc. destruct Hc as [H1 H2].
    rewrite H1, H2, H3, IH by exact H. rewrite append_snoc. reflexivity.
Qed.

Lemma plain_name_facts (w : string) :
  plain_name w = true ->
  plain_chars w = true
  /\ (forall tokens, Expr.flush w tokens = (tokens ++ [Expr.WORD w])%list)
  /\ Expr.atom w = Expr.Var w.
Proof.
  unfold plain_name. intros H.
  repeat (apply andb_true_iff in H; destruct H as [H ?]).
  repeat match goal with
         | K : negb _ = true |- _ => apply negb_true_iff in K
         end.
  split; [exact H|]. split.
  - intros tokens. unfold Expr.flush, Expr.classify.
    destruct w as [|c w]; [discriminate|].
    repeat match goal with K : String.eqb _ _ = false |- _ => rewrite K; clear K end.
    reflexivity.
  - unfold Expr.atom.
    repeat match goal with K : String.eqb _ _ = false |- _ => rewrite ?K; clear K end.
    reflexivity.
Qed.

End Scanner.

Section ScanPrinted.

Variable is_maxterm : bool.

Lemma printed_literals_positions (value : string) :
  forall variables,
    printed_literals is_maxterm value variables
    = map (fun p => printed_literal is_maxterm (fst p) (snd p))
          (positions value variables).
Proof.
  induction value as [|c rest IH]; intros [|name names]; simpl; try reflexivity.
  destruct (Ascii.eqb c "-"); simpl; rewrite IH; reflexivity.
Qed.

Lemma positions_plain (value : string) :
  forall variables,
    Forall (fun name => plain_name name = true) variables ->
    Forall (fun p => plain_name (snd p) = true) (positions value variables).
Proof.
  induction value as [|c rest IH]; intros [|name names] H; simpl;
    try constructor.
  inversion H; subst. destruct (Ascii.eqb c "-"); [apply IH; assumption|].
  constructor; [assumption | apply IH; assumption].
Qed.

Lemma positions_none (value : string) :
  forall variables,
    (String.length value <= List.length variables)%nat ->
    (positions value variables = []
     <-> Py.count "-" value = String.length value).
Proof.
  induction value as [|c rest IH]; intros [|name names] L; simpl in L |- *;
    try lia; try tauto.
  assert (B := count_le_length "-" rest).
  destruct (Ascii.eqb c "-").
  - rewrite (IH names) by lia. lia.
  - split; [discriminate | lia].
Qed.

Lemma scan_literal (c : ascii) (name tail : string)
      (tokens : list Expr.token) :
  plain_name name = true ->
  scan (printed_literal is_maxterm c name ++ tail) EmptyString tokens
  = scan tail name
         (if Ascii.eqb c (if is_maxterm then "1" else "0")%char
          then (tokens ++ [Expr.NOT])%list else tokens).
Proof.
  intros H. apply plain_name_facts in H. destruct H as (Hc & _ & _).
  unfold printed_literal. destruct (Ascii.eqb c _).
  - rewrite string_app_assoc.
    change (scan ("NOT " ++ (name ++ tail)) EmptyString tokens)
      with (scan (name ++ tail) EmptyString (tokens ++ [Expr.NOT])%list).
    rewrite scan_app, (scan_plain name) by exact Hc. reflexivity.
  - simpl. rewrite scan_app, (scan_plain name) by exact Hc. reflexivity.
Qed.

Lemma scan_inner_joiner (name tail : string) (tokens : list Expr.token) :
  plain_name name = true ->
  scan ((if is_maxterm then " OR " else " AND ") ++ tail) name tokens
  = scan tail EmptyString
         (tokens ++ [Expr.WORD name;
                     if is_maxterm then Expr.OR else Expr.AND])%list.
Proof.
  intros H. apply plain_name_facts in H. destruct H as (_ & Hf & _).
  destruct is_maxterm; simpl; rewrite Hf, <- app_assoc; reflexivity.
Qed.

Lemma scan_close (name tail : string) (tokens : list Expr.token) :
  plain_name name = true ->
  scan (")" ++ tail) name tokens
  = scan tail EmptyString (tokens ++ [Expr.WORD name; Expr.RPAREN])%list.
Proof.
  intros H. apply plain_name_facts in H. destruct H as (_ & Hf & _).
  simpl. rewrite Hf, <- app_assoc. reflexivity.
Qed.

Lemma scan_outer_joiner (tail : string) (tokens : list Expr.token) :
  scan ((if is_maxterm then " AND " else " OR ") ++ tail) EmptyString tokens
  = scan tail EmptyString
         (tokens ++ [if is_maxterm then Expr.AND else Expr.OR])%list.
Proof. destruct is_maxterm; reflexivity. Qed.

Lemma scan_body (l : list (ascii * string)) :
  forall (tail : string) (tokens : list Expr.token),
    l <> [] ->
    Forall (fun p => plain_name (snd p) = true) l ->
    scan (String.concat (if is_maxterm then " OR " else " AND ")
                        (map (fun p => printed_literal is_maxterm (fst p) (snd p)) l)
          ++ ")" ++ tail) EmptyString tokens
    = scan tail EmptyString
           (tokens
            ++ join_tokens (if is_maxterm then Expr.OR else Expr.AND)
                 (map (fun p => literal_tokens is_maxterm (fst p) (snd p)) l)
            ++ [Expr.RPAREN])%list.
Proof.
  induction l as [|[c name] l IH]; intros tail tokens Hne H; [congruence|].
  inversion H as [|? ? Hn Hl]; subst. simpl in Hn.
  destruct l as [|q l'].
  - cbn [map String.concat join_tokens fst snd].
    rewrite scan_literal, scan_close by exact Hn.
    f_equal. unfold literal_tokens.
    destruct (Ascii.eqb c _); rewrite <- ?app_assoc; reflexivity.
  - cbn [map fst snd]. rewrite concat_cons. cbn [map].
    rewrite !string_app_assoc.
    rewrite scan_literal, scan_inner_joiner by exact Hn.
    change (String.concat ?sep (?x :: map ?f l'))
      with (String.concat sep (map f (q :: l'))).
    rewrite IH by (discriminate || exact Hl).
    f_equal. rewrite join_length by discriminate.
    cbn [map fst snd].
    change (literal_tokens is_maxterm c name)
      with (if Ascii.eqb c (if is_maxterm then "1" else "0")%char
            then [Expr.NOT; Expr.WORD name] else [Expr.WORD name]).
    destruct (Ascii.eqb c _); rewrite <- ?app_assoc; reflexivity.
Qed.

Variable variables : list string.
Hypothesis plain_variables :
  Forall (fun name => plain_name name = true) variables.

Lemma scan_clause (m : Minterm.t) (tail : string) (tokens : list Expr.token) :
  proper_clause variables m ->
  scan (printed_clause variables is_maxterm m ++ tail) EmptyString tokens
  = scan tail EmptyString (tokens ++ clause_tokens variables is_maxterm m)%list.
Proof.
  intros [L C]. unfold printed_clause, clause_tokens.
  destruct (Nat.ltb_spec (Py.count "-" (Minterm.get_value m))
                         (List.length variables)) as [_|F]; [|lia].
  rewrite printed_literals_positions, !string_app_assoc.
  change (scan ("(" ++ ?s) EmptyString tokens)
    with (scan s EmptyString (tokens ++ [Expr.LPAREN])%list).
  rewrite scan_body.
  - f_equal. rewrite <- !app_assoc. reflexivity.
  - intros E. apply positions_none in E; lia.
  - apply positions_plain. exact plain_variables.
Qed.

Lemma scan_clauses (l : list Minterm.t) :
  forall tokens : list Expr.token,
    l <> [] -> Forall (proper_clause variables) l ->
    scan (String.concat (if is_maxterm then " AND " else " OR ")
                        (map (printed_clause variables is_maxterm) l))
         EmptyString tokens
    = (EmptyString,
       (tokens ++ expression_tokens variables is_maxterm l)%list).
Proof.
  unfold expression_tokens.
  induction l as [|m l IH]; intros tokens Hne H; [congruence|].
  inversion H as [|? ? Hm Hl]; subst. destruct l as [|m' l'].
  - cbn [map String.concat join_tokens].
    rewrite <- (append_empty_r (printed_clause variables is_maxterm m)).
    rewrite scan_clause by exact Hm. reflexivity.
  - cbn [map]. rewrite concat_cons. cbn [map].
    rewrite scan_clause, scan_outer_joiner by exact Hm.
    change (String.concat ?sep (?x :: map ?f l'))
      with (String.concat sep (map f (m' :: l'))).
    rewrite IH by (discriminate || exact Hl).
    rewrite join_length by discriminate. cbn [map].
    rewrite <- !app_assoc. reflexivity.
Qed.

End ScanPrinted.

Section ReadBack.

Variable variables : list string.
Variable is_maxterm : bool.
Hypothesis plain_variables :
  Forall (fun name => plain_name name = true) variables.

Lemma Forall2_map {A B C : Type} (R : B -> C -> Prop)
      (f : A -> B) (g : A -> C) (l : list A) :
  (forall x, In x l -> R (f x) (g x)) -> Forall2 R (map f l) (map g l).
Proof.
  induction l as [|x l IH]; intros H; simpl; constructor.
  - apply H. left. reflexivity.
  - apply IH. intros y Hy. apply H. right. exact Hy.
Qed.

Lemma clause_reads_atom (m : Minterm.t) :
  proper_clause variables m ->
  reads_atom (clause_tokens variables is_maxterm m)
             (clause_ast variables is_maxterm m).
Proof.
  intros [L C]. unfold clause_tokens, clause_ast.
  assert (Hne : positions (Minterm.get_value m) variables <> []).
  { intros E. apply positions_none in E; lia. }
  assert (Hp := positions_plain (Minterm.get_value m) variables plain_variables).
  rewrite Forall_forall in Hp.
  assert (Atoms :
    Forall2 reads_atom
      (map (fun p => literal_tokens is_maxterm (fst p) (snd p))
           (positions (Minterm.get_value m) variables))
      (map (fun p => literal_ast is_maxterm (fst p) (snd p))
           (positions (Minterm.get_value m) variables))).
  { apply Forall2_map. intros p Hin. apply literal_reads_atom.
    apply plain_name_facts. apply Hp. exact Hin. }
  assert (Hne' : map (fun p => literal_tokens is_maxterm (fst p) (snd p))
                     (positions (Minterm.get_value m) variables) <> []).
  { destruct (positions (Minterm.get_value m) variables);
      [congruence | discriminate]. }
  apply paren_reads_atom. destruct is_maxterm.
  - apply or_join; [exact Hne'|].
    eapply Forall2_impl; [|exact Atoms]. apply atom_reads_and.
  - apply and_reads_or. apply and_join; assumption.
Qed.

Lemma expression_reads_or (prime_implicants : list Minterm.t) :
  prime_implicants <> [] ->
  Forall (proper_clause variables) prime_implicants ->
  reads_or (expression_tokens variables is_maxterm prime_implicants)
           (expression_ast variables is_maxterm prime_implicants).
Proof.
  intros Hne H. unfold expression_tokens, expression_ast.
  rewrite Forall_forall in H.
  assert (Atoms :
    Forall2 reads_atom
      (map (clause_tokens variables is_maxterm) prime_implicants)
      (map (clause_ast variables is_maxterm) prime_implicants)).
  { apply Forall2_map. intros m Hm. apply clause_reads_atom. apply H. exact Hm. }
  assert (Hne' : map (clause_tokens variables is_maxterm) prime_implicants <> []).
  { destruct prime_implicants; [congruence | discriminate]. }
  destruct is_maxterm.
  - apply and_reads_or. apply and_join; assumption.
  - apply or_join; [exact Hne'|].
    eapply Forall2_impl; [|exact Atoms]. apply atom_reads_and.
Qed.

(** Printing and reading back gives the expression of the implicants. *)
Lemma parse_printed (prime_implicants : list Minterm.t) :
  prime_implicants <> [] ->
  Forall (proper_clause variables) prime_implicants ->
  Expr.parse (printed_expression variables is_maxterm prime_implicants)
  = Some (expression_ast variables is_maxterm prime_implicants).
Proof.
  intros Hne H. unfold printed_expression.
  destruct prime_implicants as [|first others]; [congruence|].
  assert (Hf : proper_clause variables first) by (inversion H; assumption).
  destruct Hf as [L C].
  replace (Py.count "-" (Minterm.get_value first) =? List.length variables)%nat
    with false by (symmetry; apply Nat.eqb_neq; lia).
  rewrite andb_false_r. unfold Expr.parse.
  rewrite tokenize_scan, (scan_clauses is_maxterm variables plain_variables)
    by assumption.
  cbn [fst snd Expr.flush app].
  assert (R := expression_reads_or (first :: others) Hne H
                 (3 * List.length
                        (expression_tokens variables is_maxterm (first :: others))
                  + 3)%nat [] ltac:(lia) I I).
  rewrite app_nil_r in R. rewrite R. reflexivity.
Qed.

End ReadBack.

Section Evaluation.

Variable env : string -> bool.

Lemma chain_or_eval (es : list Expr.t) :
  Expr.eval env (chain Expr.Or es) = existsb (Expr.eval env) es.
Proof.
  induction es as [|e [|e' es] IH]; simpl in *; try reflexivity.
  - rewrite orb_false_r. reflexivity.
  - rewrite IH. reflexivity.
Qed.

Lemma chain_and_eval (es : list Expr.t) :
  es <> [] -> Expr.eval env (chain Expr.And es) = forallb (Expr.eval env) es.
Proof.
  induction es as [|e [|e' es] IH]; intros H; [congruence| |].
  - simpl. rewrite andb_true_r. reflexivity.
  - change (Expr.eval env e && Expr.eval env (chain Expr.And (e' :: es))
            = Expr.eval env e && forallb (Expr.eval env) (e' :: es)).
    rewrite IH by discriminate. reflexivity.
Qed.

Lemma literal_eval (is_maxterm : bool) (b c : ascii) (name : string) :
  env name = Ascii.eqb b "1" ->
  (Ascii.eqb b "0" || Ascii.eqb b "1") = true ->
  (Ascii.eqb c "0" || Ascii.eqb c "1") = true ->
  Expr.eval env (literal_ast is_maxterm c name)
  = xorb is_maxterm (Ascii.eqb b c).
Proof.
  intros He Hb Hc. unfold literal_ast.
  apply orb_true_iff in Hb, Hc.
  destruct Hb as [Hb|Hb], Hc as [Hc|Hc];
    apply Ascii.eqb_eq in Hb, Hc; subst b c;
    destruct is_maxterm; simpl; rewrite He; reflexivity.
Qed.

Lemma positions_eval (value : string) :
  forall (names : list string) (bits : string),
    agrees env names bits ->
    String.length value = List.length names ->
    String.length bits = List.length names ->
    binary bits = true -> ternary value = true ->
    forallb (fun p => Expr.eval env (literal_ast false (fst p) (snd p)))
            (positions value names)
    = matches bits value
    /\ existsb (fun p => Expr.eval env (literal_ast true (fst p) (snd p)))
               (positions value names)
       = negb (matches bits value).
Proof.
  induction value as [|c rest IH]; intros [|name names] [|b bits] A Lv Lb Hb Ht;
    simpl in Lv, Lb; try discriminate; [split; reflexivity|].
  simpl in A, Hb, Ht. destruct A as [He A].
  apply andb_true_iff in Hb, Ht. destruct Hb as [Hb Hb'], Ht as [Hc Ht].
  destruct (IH names bits A ltac:(lia) ltac:(lia) Hb' Ht) as [F E].
  simpl. destruct (Ascii.eqb_spec c "-") as [->|N].
  - simpl. split; assumption.
  - assert (Hc' : (Ascii.eqb c "0" || Ascii.eqb c "1") = true).
    { rewrite orb_false_r in Hc. exact Hc. }
    simpl. rewrite !(literal_eval _ b c name He Hb Hc'), F, E. simpl.
    split; [reflexivity|].
    destruct (Ascii.eqb b c), (matches bits rest); reflexivity.
Qed.

Lemma existsb_map_eval {A : Type} (f : A -> Expr.t) (l : list A) :
  existsb (Expr.eval env) (map f l) = existsb (fun x => Expr.eval env (f x)) l.
Proof. induction l as [|x l IH]; simpl; [reflexivity | rewrite IH; reflexivity]. Qed.

Lemma forallb_map_eval {A : Type} (f : A -> Expr.t) (l : list A) :
  forallb (Expr.eval env) (map f l) = forallb (fun x => Expr.eval env (f x)) l.
Proof. induction l as [|x l IH]; simpl; [reflexivity | rewrite IH; reflexivity]. Qed.

Variable variables : list string.
Variable bits : string.
Hypothesis env_agrees : agrees env variables bits.
Hypothesis bits_length : String.length bits = List.length variables.
Hypothesis bits_binary : binary bits = true.

Lemma clause_eval (is_maxterm : bool) (m : Minterm.t) :
  proper_clause variables m -> ternary (Minterm.get_value m) = true ->
  Expr.eval env (clause_ast variables is_maxterm m)
  = xorb is_maxterm (matches bits (Minterm.get_value m)).
Proof.
  intros [L C] T. unfold clause_ast.
  destruct (positions_eval (Minterm.get_value m) variables bits
              env_agrees L bits_length bits_binary T) as [F E].
  destruct is_maxterm.
  - rewrite chain_or_eval, existsb_map_eval, E. reflexivity.
  - rewrite chain_and_eval, forallb_map_eval, F; [reflexivity|].
    intros Z. apply map_eq_nil in Z. apply positions_none in Z; lia.
Qed.

Lemma expression_eval (is_maxterm : bool) (prime_implicants : list Minterm.t) :
  prime_implicants <> [] ->
  Forall (fun m => proper_clause variables m
                   /\ ternary (Minterm.get_value m) = true) prime_implicants ->
  Expr.eval env (expression_ast variables is_maxterm prime_implicants)
  = xorb is_maxterm
         (existsb (fun m => matches bits (Minterm.get_value m)) prime_implicants).
Proof.
  intros Hne H. unfold expression_ast. destruct is_maxterm.
  - rewrite chain_and_eval, forallb_map_eval
      by (destruct prime_implicants; [congruence | discriminate]).
    clear Hne. induction H as [|m l [Hm Tm] Hl IH]; [reflexivity|].
    simpl. rewrite (clause_eval true m Hm Tm), IH. simpl.
    destruct (matches bits (Minterm.get_value m)); reflexivity.
  - rewrite chain_or_eval, existsb_map_eval.
    clear Hne. induction H as [|m l [Hm Tm] Hl IH]; [reflexivity|].
    simpl in *. rewrite (clause_eval false m Hm Tm), IH. reflexivity.
Qed.

End Evaluation.

Section Assignment.

Lemma agrees_ext (env1 env2 : string -> bool) (names : list string) :
  forall bits,
    (forall name, In name names -> env1 name = env2 name) ->
    agrees env1 names bits -> agrees env2 names bits.
Proof.
  induction names as [|name names IH]; intros [|b bits] H A; simpl in *; auto.
  destruct A as [He A]. split.
  - rewrite <- H by (left; reflexivity). exact He.
  - apply IH; [|exact A]. intros n Hn. apply H. right. exact Hn.
Qed.

Lemma lookup_agrees (names : list string) :
  forall bits,
    NoDup names ->
    agrees (fun name => Expr.lookup name names bits) names bits.
Proof.
  induction names as [|name names IH]; intros [|b bits] N; simpl; auto.
  inversion N as [|? ? Hn N']; subst.
  rewrite String.eqb_refl. split; [reflexivity|].
  apply (agrees_ext (fun n => Expr.lookup n names bits)); [|apply IH; exact N'].
  intros n Hin. destruct (String.eqb_spec name n) as [->|_];
    [contradiction | reflexivity].
Qed.

End Assignment.

(** ** The value of the printed expression *)

Section PrintedValue.

Variable variables : list string.
Hypothesis plain_variables :
  Forall (fun name => plain_name name = true) variables.
Hypothesis distinct_variables : NoDup variables.

Lemma value_printed (is_maxterm : bool) (prime_implicants : list Minterm.t)
      (x : Z) :
  prime_implicants <> [] ->
  Forall (fun m => proper_clause variables m
                   /\ ternary (Minterm.get_value m) = true) prime_implicants ->
  in_range variables x ->
  Expr.value_at variables
    (printed_expression variables is_maxterm prime_implicants) x
  = Some (xorb is_maxterm
               (existsb (fun m => matches (QM.__get_bits variables x)
                                          (Minterm.get_value m))
                        prime_implicants)).
Proof.
  intros Hne H Hx. unfold Expr.value_at.
  assert (Hp : Forall (proper_clause variables) prime_implicants).
  { eapply Forall_impl; [|exact H]. intros m Hm. apply Hm. }
  rewrite (parse_printed variables is_maxterm plain_variables _ Hne Hp).
  simpl. f_equal.
  assert (Hvars : variables <> []).
  { destruct prime_implicants as [|m l]; [congruence|].
    inversion Hp as [|? ? [L C] _]; subst. intros ->. simpl in L. lia. }
  apply expression_eval; try assumption.
  - apply lookup_agrees. exact distinct_variables.
  - apply get_bits_length; assumption.
  - apply get_bits_binary. apply Hx.
Qed.

Lemma matches_all_dash (value : string) :
  forall bits,
    String.length bits = String.length value ->
    Py.count "-" value = String.length value ->
    matches bits value = true.
Proof.
  induction value as [|c rest IH]; intros [|b bits] L C; simpl in L;
    try discriminate; [reflexivity|].
  simpl in C |- *. assert (B := count_le_length "-" rest).
  destruct (Ascii.eqb_spec c "-") as [->|N]; [|lia].
  simpl. apply IH; lia.
Qed.

Lemma solve_result_exact (values dont_cares : list Z) (result : list Minterm.t) :
  variables <> [] ->
  Forall (in_range variables) (values ++ dont_cares)%list ->
  QM.__solve variables values dont_cares = ok result ->
  Forall (fun m => exact_term variables m
                   /\ incl (Minterm.get_values m) (values ++ dont_cares)%list)
         result.
Proof.
  intros Hvars Hrange S. unfold QM.__solve in S.
  bind_inv S as groups Hg. bind_inv S as pis Hp.
  apply solve_from_incl in S.
  assert (E := all_exact _ _ _ _ _ Hvars Hrange Hg Hp).
  assert (G := prime_implicants_cover_given _ _ _ _ _ Hg Hp).
  rewrite Forall_forall in E, G. apply Forall_forall. intros m Hm.
  split; [apply E, S, Hm | exact (G m (S m Hm))].
Qed.

Lemma exact_lengths (result : list Minterm.t) :
  Forall (exact_term variables) result ->
  Forall (fun m => (String.length (Minterm.get_value m)
                    <= List.length variables)%nat) result.
Proof.
  intros H. eapply Forall_impl; [|exact H]. intros m (L & _). lia.
Qed.

(** An implicant that matches no more than the given indices is no row of
    dashes as long as some index is not given. *)
Lemma proper_when_bounded (given : list Z) (m : Minterm.t) (x : Z) :
  variables <> [] -> in_range variables x -> ~ In x given ->
  exact_term variables m -> incl (Minterm.get_values m) given ->
  proper_clause variables m /\ ternary (Minterm.get_value m) = true.
Proof.
  intros Hvars Hx Hout (L & T & E) I. split; [|exact T]. split; [exact L|].
  assert (B := count_le_length "-" (Minterm.get_value m)).
  destruct (Nat.eq_dec (Py.count "-" (Minterm.get_value m))
                       (String.length (Minterm.get_value m))) as [C|C]; [|lia].
  exfalso. apply Hout, I, (E x Hx). apply matches_all_dash; [|exact C].
  rewrite L. apply get_bits_length; assumption.
Qed.

Lemma construct_printed (values dont_cares : list Z) (is_maxterm : bool)
      (result : list Minterm.t) :
  variables <> [] ->
  Forall (in_range variables) (values ++ dont_cares)%list ->
  QM.__solve variables values dont_cares = ok result ->
  exists q : QM.t,
    QM.__init__ variables values (Some dont_cares) is_maxterm = ok q
    /\ fst (QM.get_function q)
       = printed_expression variables is_maxterm result.
Proof.
  intros Hvars Hrange S.
  assert (X := solve_result_exact _ _ _ Hvars Hrange S).
  assert (L : Forall (fun m => (String.length (Minterm.get_value m)
                                <= List.length variables)%nat) result).
  { apply exact_lengths. eapply Forall_impl; [|exact X]. intros m Hm. apply Hm. }
  unfold QM.__init__, QM.__get_function. rewrite S. cbn [bind ok].
  rewrite (render_eq is_maxterm variables result L). cbn [bind ok].
  eexists. split; reflexivity.
Qed.

End PrintedValue.



(** X17: for a valid input with distinct plain variable names, in minterm
    mode, the constructor returns an instance whose expression is false at
    every index of the truth table that is neither a true value nor a
    don't-care. *)
Theorem expression_false_outside_given
        (variables : list string) (values dont_cares : list Z) (x : Z)
        (Hvalid : valid_input variables values dont_cares)
        (Hplain : Forall (fun name => plain_name name = true) variables)
        (Hdistinct : NoDup variables)
        (Hx : in_range variables x)
        (Hout : ~ In x (values ++ dont_cares)%list) :
  exists q : QM.t,
    QM.__init__ variables values (Some dont_cares) false = ok q
    /\ Expr.value_at variables (fst (QM.get_function q)) x = Some false.
Proof.
  assert (R : exists result, QM.__solve variables values dont_cares = ok result).
  { destruct (solve_valid variables values dont_cares Hvalid)
      as (pis & ess & used & _ & _ & A & B).
    destruct (Nat.eq_dec (count_occ bool_dec used false) 0) as [C|C].
    - eexists. exact (A C).
    - destruct (B C) as (others & p & _ & _ & S). eexists. exact S. }
  destruct R as [result S]. destruct Hvalid as (Hvars & Hrange & _).
  destruct (construct_printed variables values dont_cares false result
              Hvars Hrange S) as [q [Hq Hf]].
  exists q. split; [exact Hq|]. rewrite Hf.
  assert (X := solve_result_exact variables _ _ _ Hvars Hrange S).
  destruct result as [|m l]; [reflexivity|].
  rewrite (value_printed variables Hplain Hdistinct); try assumption.
  - f_equal. cbn [xorb]. apply not_true_is_false. intros E.
    apply existsb_exists in E. destruct E as [m' [Hm' M]].
    rewrite Forall_forall in X. destruct (X m' Hm') as [(_ & _ & Ex) I].
    apply Hout, I, (Ex x Hx). exact M.
  - discriminate.
  - eapply Forall_impl; [|exact X]. intros m' [E I].
    eapply proper_when_bounded; eassumption.
Qed.

Lemma expression_false_outside_given_witness :
  exists q : QM.t,
    QM.__init__ ABC [0; 1; 2; 5; 6; 7] (Some []) false = ok q
    /\ Expr.value_at ABC (fst (QM.get_function q)) 3 = Some false.
Proof.
  apply expression_false_outside_given.
  - repeat split.
    + discriminate.
    + repeat constructor; unfold in_range; simpl; lia.
    + repeat constructor; simpl; intuition lia.
    + intros v _ [].
  - repeat constructor.
  - repeat constructor; simpl; intuition discriminate.
  - unfold in_range. simpl. lia.
  - simpl. intuition lia.
Defined.

Section EssentialOnly.

Lemma all_equal_distinct (l : list Minterm.t) (p : Minterm.t) :
  (forall m, In m l -> m = p) -> distinct l -> In p l -> l = [p].
Proof.
  intros E D H. destruct l as [|m1 [|m2 l]]; [contradiction| |].
  - rewrite (E m1 (or_introl eq_refl)). reflexivity.
  - exfalso. rewrite (E m1 (or_introl eq_refl)) in D.
    rewrite (E m2 (or_intror (or_introl eq_refl))) in D.
    destruct D as [C _]. simpl in C. rewrite eq_refl_term in C. discriminate C.
Qed.

Lemma value_of_one (variables : list string) (v : Z) :
  Expr.value_at variables "1" v = Some true.
Proof. reflexivity. Qed.

End EssentialOnly.

(** X18: for distinct plain variable names, a non-empty variable list and
    indices of the truth table, in minterm mode: if the essential pass
    leaves no true value unmarked, the constructor returns an instance
    whose expression is true at every true value. *)
Theorem expression_true_at_values_when_essential
        (variables : list string) (values dont_cares : list Z)
        (groups : list (list Minterm.t))
        (prime_implicants essential : list Minterm.t) (values_used : list bool)
        (Hvars : variables <> [])
        (Hrange : Forall (in_range variables) (values ++ dont_cares)%list)
        (Hplain : Forall (fun name => plain_name name = true) variables)
        (Hdistinct : NoDup variables)
        (Hgroups : QM.__initial_group variables values dont_cares = ok groups)
        (Hprime : QM.__get_prime_implicants groups = ok prime_implicants)
        (Hpass : QM.essential_pass values dont_cares prime_implicants
                 = ok (essential, values_used))
        (Hall : count_occ bool_dec values_used false = 0%nat) :
  exists q : QM.t,
    QM.__init__ variables values (Some dont_cares) false = ok q
    /\ forall v : Z,
         In v values ->
         Expr.value_at variables (fst (QM.get_function q)) v = Some true.
Proof.
  destruct (essential_covers _ _ _ _ _ _ _ Hvars Hrange Hgroups Hprime Hpass Hall)
    as [S C].
  destruct (construct_printed variables values dont_cares false essential
              Hvars Hrange S) as [q [Hq Hf]].
  exists q. split; [exact Hq|]. intros v Hv. rewrite Hf.
  assert (X := solve_result_exact variables _ _ _ Hvars Hrange S).
  rewrite Forall_forall in X.
  assert (Rv : in_range variables v).
  { rewrite Forall_forall in Hrange. apply Hrange, in_or_app. left. exact Hv. }
  destruct (C v Hv) as (m & Hm & Cm & Mm).
  destruct (existsb (fun m => (Py.count "-" (Minterm.get_value m)
                               =? String.length (Minterm.get_value m))%nat)
                    essential) eqn:D.
  - apply existsb_exists in D. destruct D as [p [Hp Dp]].
    apply Nat.eqb_eq in Dp.
    destruct (essential_pass_origin _ _ _ _ Hpass) as (I & Dst & Sole & _).
    simpl in I, Dst, Sole.
    destruct (X p Hp) as [(Lp & _ & Ep) _].
    assert (One : essential = [p]).
    { apply all_equal_distinct; [|exact Dst | exact Hp].
      intros m' Hm'. destruct (Sole m' Hm') as [w [Hw F]].
      assert (Rw : in_range variables w).
      { rewrite Forall_forall in Hrange. apply Hrange, in_or_app. left. exact Hw. }
      assert (Cw : In p (filter (covers w) prime_implicants)).
      { apply filter_In. split; [apply I; exact Hp|].
        apply mem_In. apply (Ep w Rw). apply matches_all_dash; [|exact Dp].
        rewrite Lp. apply get_bits_length; assumption. }
      rewrite F in Cw. destruct Cw as [->|[]]. reflexivity. }
    rewrite One. unfold printed_expression. cbn [List.length Nat.eqb andb].
    replace (Py.count "-" (Minterm.get_value p) =? List.length variables)%nat
      with true by (symmetry; apply Nat.eqb_eq; lia).
    apply value_of_one.
  - rewrite (value_printed variables Hplain Hdistinct); try assumption.
    + f_equal. cbn [xorb]. apply existsb_exists. exists m. auto.
    + intros Z. rewrite Z in Hm. contradiction.
    + apply Forall_forall. intros m' Hm'.
      destruct (X m' Hm') as [(L & T & E) _]. split; [|exact T].
      split; [exact L|].
      assert (B := count_le_length "-" (Minterm.get_value m')).
      assert (N : (Py.count "-" (Minterm.get_value m')
                   =? String.length (Minterm.get_value m'))%nat = false).
      { destruct (Nat.eqb_spec (Py.count "-" (Minterm.get_value m'))
                               (String.length (Minterm.get_value m')))
          as [Eq|]; [|reflexivity].
        assert (K : existsb
                      (fun m => (Py.count "-" (Minterm.get_value m)
                                 =? String.length (Minterm.get_value m))%nat)
                      essential = true).
        { apply existsb_exists. exists m'. split; [exact Hm'|].
          apply Nat.eqb_eq. exact Eq. }
        congruence. }
      apply Nat.eqb_neq in N. lia.
Qed.

Lemma expression_true_at_values_when_essential_witness :
  exists q : QM.t,
    QM.__init__ ABC [1; 3; 5; 7] (Some []) false = ok q
    /\ forall v : Z,
         In v [1; 3; 5; 7] ->
         Expr.value_at ABC (fst (QM.get_function q)) v = Some true.
Proof.
  apply (expression_true_at_values_when_essential ABC [1; 3; 5; 7] []
           (buckets ABC [1; 3; 5; 7])
           [Minterm.mk [1; 3; 5; 7] "--1" false]
           [Minterm.mk [1; 3; 5; 7] "--1" false]
           [true; true; true; true]).
  - discriminate.
  - repeat constructor; unfold in_range; simpl; lia.
  - repeat constructor.
  - repeat constructor; simpl; intuition discriminate.
  - evaluate.
  - evaluate.
  - evaluate.
  - reflexivity.
Defined.

(** X19: the covered list of every prime implicant is in ascending
    order. *)
Theorem prime_implicants_sorted
        (variables : list string) (values dont_cares : list Z)
        (groups : list (list Minterm.t)) (prime_implicants : list Minterm.t)
        (Hgroups : QM.__initial_group variables values dont_cares = ok groups)
        (Hprime : QM.__get_prime_implicants groups = ok prime_implicants) :
  Forall (fun m => Sorted Z.le (Minterm.get_values m)) prime_implicants.
Proof.
  eapply Forall_impl; [|exact (prime_implicants_built _ _ _ _ _ Hgroups Hprime)].
  intros m Hm. apply built_sorted. exact Hm.
Qed.

Lemma prime_implicants_sorted_witness :
  Forall (fun m => Sorted Z.le (Minterm.get_values m)) cyclic_pool.
Proof.
  apply (prime_implicants_sorted ABC [0; 1; 2; 5; 6; 7] []
           (buckets ABC [0; 1; 2; 5; 6; 7])).
  - evaluate.
  - evaluate.
Defined.

(** ** The terms a run compares *)

Section Ranks.

Variable variables : list string.












End Ranks.


